(** * GIMP: the cage coefficient kernel and the item tree

    A shallow embedding of two files of the GIMP source tree,

    - [app/gegl/gimpoperationcagecoefcalc.c]: the GEGL source operation that
      fills a buffer with Green-coordinate coefficients for a cage, and
    - [app/core/gimpitemtree.c]: the tree of items of one image with its
      name index,

    together with the properties of both that the specification states.

    Floating-point values are IEEE 754 values of the Standard Library's
    [spec_float]; a [gdouble] operation is the binary64 one, a [gfloat]
    operation the binary32 one, storing a [gdouble] into a [gfloat] rounds
    it to binary32, and a [gfloat] compared with a [gdouble] is converted
    to binary64 first. *)

From Stdlib Require Import ZArith List Bool Lia String Ascii.
From Stdlib Require Import SpecFloat.
From stdpp Require Import gmap strings list.

Local Open Scope Z_scope.

(** ** C integers *)

(** [gint] is a 32-bit two's complement integer: [gint_wrap] brings the
    result of an arithmetic operation back into its range. *)
Definition G_MININT : Z := - 2 ^ 31.
Definition G_MAXINT : Z := 2 ^ 31 - 1.

Definition gint_wrap (z : Z) : Z := (z + 2 ^ 31) mod 2 ^ 32 - 2 ^ 31.

Definition gint_range (z : Z) : Prop := G_MININT <= z <= G_MAXINT.

(** GLib's [CLAMP (x, low, high)]. *)
Definition CLAMP (x low high : Z) : Z :=
  if high <? x then high else if x <? low then low else x.

Module CageCoefCalc.

(** ** Floating point *)

Abbreviation gdouble := spec_float (only parsing).
Abbreviation gfloat := spec_float (only parsing).

Definition dadd : gdouble -> gdouble -> gdouble := SFadd 53 1024.
Definition dsub : gdouble -> gdouble -> gdouble := SFsub 53 1024.
Definition dmul : gdouble -> gdouble -> gdouble := SFmul 53 1024.
Definition ddiv : gdouble -> gdouble -> gdouble := SFdiv 53 1024.
Definition dsqrt : gdouble -> gdouble := SFsqrt 53 1024.

Definition fadd : gfloat -> gfloat -> gfloat := SFadd 24 128.
Definition fsub : gfloat -> gfloat -> gfloat := SFsub 24 128.
Definition fmul : gfloat -> gfloat -> gfloat := SFmul 24 128.
Definition fdiv : gfloat -> gfloat -> gfloat := SFdiv 24 128.

(** The conversion of a [gdouble] to [gfloat] that an assignment to a
    [gfloat] variable performs (round to nearest, ties to even).  The
    converse conversion is exact: every binary32 value is a binary64 one. *)
Definition to_gfloat (x : gdouble) : gfloat :=
  match x with
  | S754_finite s m e => binary_round 24 128 s m e
  | _ => x
  end.

(** The conversion of a [gfloat] to [gdouble] that a comparison with a
    [gdouble] performs on its [gfloat] operand: the same value, written
    with the mantissa and the exponent of binary64.  The arithmetic
    operations take the value of an operand whatever its mantissa is; the
    comparison [SFltb] reads the exponent and the mantissa as they stand,
    and is the order of the values for two operands of one format. *)
Definition to_gdouble (x : gfloat) : gdouble :=
  match x with
  | S754_finite s m e => binary_round 53 1024 s m e
  | _ => x
  end.

(** A [gfloat] is a float of the format binary32, a [gdouble] one of
    binary64. *)
Definition is_gfloat (x : spec_float) : Prop := valid_binary 24 128 x = true.
Definition is_gdouble (x : spec_float) : Prop := valid_binary 53 1024 x = true.

(** The conversion of a [gint] to [gdouble]. *)
Definition of_gint (z : Z) : gdouble := binary_normalize 53 1024 z 0 false.

Definition isnan (x : spec_float) : bool :=
  match x with S754_nan => true | _ => false end.

Definition isfinite (x : spec_float) : bool :=
  match x with S754_zero _ | S754_finite _ _ _ => true | _ => false end.

Definition d0 : gdouble := S754_zero false.
Definition d1 : gdouble := of_gint 1.
Definition d2 : gdouble := of_gint 2.
Definition d4 : gdouble := of_gint 4.

(** The literal [0.000000001] and [M_PI], as the binary64 values the
    compiler reads them as. *)
Definition d1e_9 : gdouble := S754_finite false 4835703278458517 (-82).
Definition M_PI : gdouble := S754_finite false 7074237752028440 (-51).

#[global] Instance spec_float_inhabited : Inhabited spec_float :=
  populate (S754_zero false).

(** ** Data *)

Record GimpVector2 := { vx : gdouble; vy : gdouble }.

Record GeglRectangle := { rx : Z; ry : Z; width : Z; height : Z }.

(** [GimpCageConfig], as far as the operation reads it.  The vertex count
    is a [gint] that counts the entries of [cage_vertices]; it is never
    negative.  [point_inside] is [gimp_cage_config_point_inside], which
    belongs to gimpcageconfig.c: the operation takes its answer as it
    comes. *)
Record GimpCageConfig := {
  cage_vertice_number : nat;
  cage_vertices : list GimpVector2;
  point_inside : Z -> Z -> bool
}.

Definition vertex (config : GimpCageConfig) (j : nat) : GimpVector2 :=
  nth j (cage_vertices config) {| vx := d0; vy := d0 |}.

(** Modelled from the spec: [gimp_vector2_normalize] belongs to libgimpmath
    and is not under src/.  Section 4.1 has the two directions normalized
    to unit vectors: each component is divided by the Euclidean length. *)
Definition gimp_vector2_normalize (v : GimpVector2) : GimpVector2 :=
  let len := dsqrt (dadd (dmul (vx v) (vx v)) (dmul (vy v) (vy v))) in
  {| vx := ddiv (vx v) len; vy := ddiv (vy v) len |}.

(** The local [deter] of [gimp_operation_cage_coef_calc_is_on_straight]
    (lines 164 to 172), a [gfloat]. *)
Definition straight_deter (d1_ d2_ p : GimpVector2) : gfloat :=
  let v1 := {| vx := dsub (vx p) (vx d1_); vy := dsub (vy p) (vy d1_) |} in
  let v2 := {| vx := dsub (vx d2_) (vx d1_); vy := dsub (vy d2_) (vy d1_) |} in
  let v1 := gimp_vector2_normalize v1 in
  let v2 := gimp_vector2_normalize v2 in
  to_gfloat (dsub (dmul (vx v1) (vy v2)) (dmul (vx v2) (vy v1))).

(** Line 174: [deter] is converted to [gdouble] for each of the two
    comparisons with the [gdouble] literal. *)
Definition gimp_operation_cage_coef_calc_is_on_straight
    (d1_ d2_ p : GimpVector2) : bool :=
  let deter := straight_deter d1_ d2_ p in
  SFltb (to_gdouble deter) d1e_9 && SFltb (SFopp d1e_9) (to_gdouble deter).

(** [|d| < 1e-9] for a [gfloat] [d] of value [m * 2^e], in integers: both
    sides of [m * 2^e < 1 / 10^9] are multiplied by [10^9 * 2^149], the
    exponent of a [gfloat] being -149 at least.  A NaN and the infinities
    are not below the threshold. *)
Definition abs_below_1e_9 (d : gfloat) : bool :=
  match d with
  | S754_zero _ => true
  | S754_finite _ m e => Z.pos m * 2 ^ (e + 149) * 10 ^ 9 <? 2 ^ 149
  | _ => false
  end.

(** ** The kernel

    [log] and [atan2] are the C library's; the kernel is embedded for any
    pair of such functions.  [sqrt] is the correctly rounded IEEE
    operation. *)
Section Kernel.

Variable log : gdouble -> gdouble.
Variable atan2 : gdouble -> gdouble -> gdouble.
Variable config : GimpCageConfig.

Local Abbreviation N := (cage_vertice_number config).

Section Edge.

(** The pixel [(x, y)] and the edge [j], from vertex [j] to vertex
    [(j + 1) % N]. *)
Variables (x y : Z) (j : nat).

Definition e_v1 : GimpVector2 := vertex config j.
Definition e_v2 : GimpVector2 := vertex config ((j + 1) mod N)%nat.
Definition e_p : GimpVector2 := {| vx := of_gint x; vy := of_gint y |}.
Definition e_a : GimpVector2 :=
  {| vx := dsub (vx e_v2) (vx e_v1); vy := dsub (vy e_v2) (vy e_v1) |}.
Definition e_b : GimpVector2 :=
  {| vx := dsub (vx e_v1) (of_gint x); vy := dsub (vy e_v1) (of_gint y) |}.

Definition e_Q : gfloat :=
  to_gfloat (dadd (dmul (vx e_a) (vx e_a)) (dmul (vy e_a) (vy e_a))).
Definition e_S : gfloat :=
  to_gfloat (dadd (dmul (vx e_b) (vx e_b)) (dmul (vy e_b) (vy e_b))).
Definition e_R : gfloat :=
  to_gfloat (dmul d2 (dadd (dmul (vx e_a) (vx e_b)) (dmul (vy e_a) (vy e_b)))).
Definition e_BA : gfloat :=
  to_gfloat (dsub (dmul (vx e_b) (vy e_a)) (dmul (vy e_b) (vx e_a))).
Definition e_SRT : gfloat :=
  to_gfloat (dsqrt (dsub (dmul (dmul d4 e_S) e_Q) (fmul e_R e_R))).

Definition e_L0 : gfloat := to_gfloat (log e_S).
Definition e_L1 : gfloat := to_gfloat (log (fadd (fadd e_S e_Q) e_R)).
Definition e_A0 : gfloat := to_gfloat (ddiv (atan2 e_R e_SRT) e_SRT).
Definition e_A1 : gfloat :=
  to_gfloat (ddiv (atan2 (dadd (dmul d2 e_Q) e_R) e_SRT) e_SRT).
Definition e_A10 : gfloat := fsub e_A1 e_A0.
Definition e_L10 : gfloat := fsub e_L1 e_L0.

(** The value assigned to [coef[j + N]] on line 245. *)
Definition edge_coef_value : gfloat :=
  to_gfloat
    (dmul (ddiv d1 (dmul d4 M_PI))
       (dsub
          (dadd
             (dadd (dmul (dsub (dmul d4 e_S) (fdiv (fmul e_R e_R) e_Q)) e_A10)
                   (dmul (ddiv e_R (dmul d2 e_Q)) e_L10))
             e_L1)
          d2)).

(** The two terms of lines 255 and 256. *)
Definition vertex_term_add : gdouble :=
  dmul (ddiv e_BA (dmul d2 M_PI))
       (dsub (ddiv e_L10 (dmul d2 e_Q))
             (dmul e_A10 (dadd d2 (fdiv e_R e_Q)))).
Definition vertex_term_sub : gdouble :=
  dmul (ddiv e_BA (dmul d2 M_PI))
       (dsub (ddiv e_L10 (dmul d2 e_Q))
             (fmul e_A10 (fdiv e_R e_Q))).

Definition on_straight : bool :=
  gimp_operation_cage_coef_calc_is_on_straight e_v1 e_v2 e_p.

End Edge.

(** The loop over the edges works on the tile's float array [buf] through
    the cursor [coef], at offset [cur] in it: [coef[i]] is [buf[cur + i]].

    Lines 245 to 250: the edge coefficient is assigned, read back, and
    replaced by 0 when it is a NaN. *)
Definition edge_write (x y : Z) (cur : nat) (buf : list gfloat) (j : nat)
    : list gfloat :=
  let buf := <[(cur + (j + N))%nat := edge_coef_value x y j]> buf in
  if isnan (buf !!! (cur + (j + N))%nat)
  then <[(cur + (j + N))%nat := d0]> buf
  else buf.

(** Lines 253 to 257: unless the pixel is on the straight line of the edge,
    the two vertex coefficients of the edge are updated in place. *)
Definition vertex_write (x y : Z) (cur : nat) (buf : list gfloat) (j : nat)
    : list gfloat :=
  if negb (on_straight x y j) then
    let buf :=
      <[(cur + j)%nat :=
          to_gfloat (dadd (buf !!! (cur + j)%nat) (vertex_term_add x y j))]>
        buf in
    <[(cur + (j + 1) mod N)%nat :=
        to_gfloat (dsub (buf !!! (cur + (j + 1) mod N)%nat)
                        (vertex_term_sub x y j))]> buf
  else buf.

(** One turn of the loop over the edges (lines 217 to 258). *)
Definition edge_step (x y : Z) (cur : nat) (buf : list gfloat) (j : nat)
    : list gfloat :=
  vertex_write x y cur (edge_write x y cur buf j) j.

(** What the turn for edge [j] leaves in the slot [N + j] (lines 245 to
    250): the value of line 245, or 0 when that value is a NaN. *)
Definition edge_coef (x y : Z) (j : nat) : gfloat :=
  if isnan (edge_coef_value x y j) then d0 else edge_coef_value x y j.

(** What the turn for edge [j] makes of the vertex coefficient [i] when it
    holds [v] (lines 253 to 257). *)
Definition vertex_update (x y : Z) (i : nat) (v : gfloat) (j : nat) : gfloat :=
  if on_straight x y j then v
  else
    let v :=
      if decide (i = j)
      then to_gfloat (dadd v (vertex_term_add x y j)) else v in
    if decide (i = (j + 1) mod N)%nat
    then to_gfloat (dsub v (vertex_term_sub x y j)) else v.

(** The vertex coefficient [i] after the whole loop over the edges, from
    the value [v] the slot held before it. *)
Definition vertex_coef (x y : Z) (i : nat) (v : gfloat) : gfloat :=
  fold_left (vertex_update x y i) (seq 0 N) v.

(** The body of the loop over the pixels up to the cursor's advance (lines
    215 to 259). *)
Definition pixel_step (x y : Z) (cur : nat) (buf : list gfloat)
    : list gfloat :=
  if point_inside config x y
  then fold_left (edge_step x y cur) (seq 0 N) buf
  else buf.

(** The update of [x] and [y] at the end of the loop body (lines 264 to
    269). *)
Definition advance (roi : GeglRectangle) (xy : Z * Z) : Z * Z :=
  let x := gint_wrap (fst xy + 1) in
  if gint_wrap (rx roi + width roi) <=? x
  then (rx roi, gint_wrap (snd xy + 1))
  else (x, snd xy).

(** The coordinates the loop holds when it reaches the pixel number [k] of
    a region. *)
Definition coords (roi : GeglRectangle) (k : nat) : Z * Z :=
  Nat.iter k (advance roi) (rx roi, ry roi).

(** [while (n_pixels--)] (lines 213 to 270). *)
Fixpoint pixel_loop (roi : GeglRectangle) (n_pixels : nat) (xy : Z * Z)
    (cur : nat) (buf : list gfloat) : list gfloat :=
  match n_pixels with
  | O => buf
  | S n_pixels =>
      let buf := pixel_step (fst xy) (snd xy) cur buf in
      pixel_loop roi n_pixels (advance roi xy) (cur + 2 * N)%nat buf
  end.

End Kernel.

(** ** The operation

    The buffer iterator of line 201 yields the regions of the output buffer
    one at a time; a region has its rectangle, its pixel count and its float
    array, [2 * N] floats a pixel.  The array holds what the buffer held:
    the iterator is opened with [GEGL_BUFFER_READWRITE]. *)
Record tile := {
  t_roi : GeglRectangle;
  t_length : nat;
  t_data : list gfloat
}.

(** The body of [while (gegl_buffer_iterator_next (it))] (lines 205 to 270):
    [x] and [y] start at the region's origin and [coef] at the start of its
    array. *)
Definition process_tile (log : gdouble -> gdouble)
    (atan2 : gdouble -> gdouble -> gdouble) (config : GimpCageConfig)
    (t : tile) : tile :=
  {| t_roi := t_roi t;
     t_length := t_length t;
     t_data := pixel_loop log atan2 config (t_roi t) (t_length t)
                 (rx (t_roi t), ry (t_roi t)) 0%nat (t_data t) |}.

(** What a run of C code comes to: a value, or the dereference of a null
    pointer. *)
Inductive run (A : Type) : Type :=
  | Fault : run A
  | Done : A -> run A.
Arguments Fault {A}.
Arguments Done {A} _.

Definition bind {A B : Type} (m : run A) (k : A -> run B) : run B :=
  match m with
  | Fault => Fault
  | Done a => k a
  end.

(** [p->field] for a pointer [p] that may be null. *)
Definition deref {A B : Type} (p : option A) (field : A -> B) : run B :=
  match p with
  | None => Fault
  | Some a => Done (field a)
  end.

(** The coordinates of the pixel number [k] of a region, and the offset of
    its slot [i] in the region's array. *)
Definition tile_x (t : tile) (k : nat) : Z := fst (coords (t_roi t) k).
Definition tile_y (t : tile) (k : nat) : Z := snd (coords (t_roi t) k).
Definition slot (config : GimpCageConfig) (k i : nat) : nat :=
  (k * (2 * cage_vertice_number config) + i)%nat.

(** [gimp_operation_cage_coef_calc_process] (lines 186 to 274).  [config]
    is [occc->config], null when the operation has no configuration; [it]
    holds the regions the iterator yields over [roi].  The result is the
    returned [gboolean] with the regions as the operation leaves them.
    Line 194 reads [config->cage_vertice_number] for the format; the test of
    [config] follows on line 198. *)
Definition gimp_operation_cage_coef_calc_process
    (log : gdouble -> gdouble) (atan2 : gdouble -> gdouble -> gdouble)
    (config : option GimpCageConfig) (it : list tile)
    : run (bool * list tile) :=
  bind (deref config (fun c => (2 * cage_vertice_number c)%nat))
    (fun format =>
       match config with
       | None => Done (false, it)
       | Some c => Done (true, map (process_tile log atan2 c) it)
       end).

(** ** Cages for the scenarios *)

Definition vec (x y : Z) : GimpVector2 := {| vx := of_gint x; vy := of_gint y |}.

(** A flat triangle, ten pixels high and ten thousand wide; the pixel
    (5000, 1) lies inside it. *)
Definition flat_triangle : GimpCageConfig :=
  {| cage_vertice_number := 3;
     cage_vertices := [vec 0 0; vec 10000 0; vec 5000 10];
     point_inside := fun x y =>
       (0 <? y) && (500 * y <? x) && (500 * y <? 10000 - x) |}.

(** An L-shaped cage whose inner vertical side carries a vertex in its
    middle: (5, 5), (5, 7) and (5, 10) lie on the line x = 5, which runs
    through the interior below y = 5. *)
Definition l_shape : GimpCageConfig :=
  {| cage_vertice_number := 7;
     cage_vertices :=
       [vec 0 0; vec 10 0; vec 10 5; vec 5 5; vec 5 7; vec 5 10; vec 0 10];
     point_inside := fun x y =>
       (0 <? x) && (0 <? y)
       && (((x <? 10) && (y <? 5)) || ((x <? 5) && (y <? 10))) |}.

(** A square with a notch in its left side.  The pixel (8, 24) lies inside
    it, on the straight line of the edge from (0, 0) to (7, 21) and beyond
    the vertex (7, 21). *)
Definition notched_square : GimpCageConfig :=
  {| cage_vertice_number := 5;
     cage_vertices := [vec 0 0; vec 7 21; vec 0 30; vec 30 30; vec 30 0];
     point_inside := fun x y =>
       (0 <? y) && (y <? 30) && (x <? 30)
       && (if y <=? 21 then y <? 3 * x else 7 * (30 - y) <? 9 * x) |}.

(** A region of one pixel at [(x, y)] over a buffer [data]. *)
Definition one_pixel (x y : Z) (data : list gfloat) : tile :=
  {| t_roi := {| rx := x; ry := y; width := 1; height := 1 |};
     t_length := 1;
     t_data := data |}.

End CageCoefCalc.

(** * The cage operation: regions of the iterator *)

Module CageRegion.

Import CageCoefCalc.

(** The argument of [sqrt] on line 235, a [gdouble]: [4.0 * S * Q] is
    computed in binary64 and the product [R * R] of two [gfloat] values in
    binary32. *)
Definition sqrt_argument (config : GimpCageConfig) (x y : Z) (j : nat)
    : gdouble :=
  dsub (dmul (dmul d4 (e_S config x y j)) (e_Q config j))
       (fmul (e_R config x y j) (e_R config x y j)).

(** A region of [w] by [h] pixels at [(x, y)] as the iterator yields it:
    [it->length] is the number of its pixels. *)
Definition region (x y w h : Z) (data : list gfloat) : tile :=
  {| t_roi := {| rx := x; ry := y; width := w; height := h |};
     t_length := Z.to_nat (w * h);
     t_data := data |}.

(** A zero of either sign, or a NaN. *)
Definition zero_or_nan (x : spec_float) : bool :=
  match x with
  | S754_zero _ | S754_nan => true
  | _ => false
  end.

(** A triangle with the corner (10, 0) entered twice: the edge 1 has no
    length. *)
Definition pinched_triangle : GimpCageConfig :=
  {| cage_vertice_number := 4;
     cage_vertices := [vec 0 0; vec 10 0; vec 10 0; vec 0 10];
     point_inside := fun x y => (0 <? x) && (0 <? y) && (x + y <? 10) |}.

End CageRegion.

(** * The cage operation: the object *)

Module CageOperation.

Import CageCoefCalc.

(** An object of GObject is known by its address. *)
Definition GObject := nat.

(** The property ids the operation is asked for: that of the [config]
    property, or another number. *)
Inductive property_id :=
  | GIMP_OPERATION_CAGE_COEF_CALC_PROP_CONFIG
  | PROP_OTHER (id : Z).

(** What a method does to the world outside the operation, in order: the
    references it takes and drops, and its warnings. *)
Inductive effect :=
  | g_object_ref (o : GObject)
  | g_object_unref (o : GObject)
  | G_OBJECT_WARN_INVALID_PROPERTY_ID (id : Z).

(** [GimpOperationCageCoefCalc]: the field [config], null or the address
    of a [GimpCageConfig]. *)
Record GimpOperationCageCoefCalc := { config : option GObject }.

(** [gimp_operation_cage_coef_calc_init] (lines 85 to 89) writes nothing:
    the instance is as GObject allocates it, all zero. *)
Definition gimp_operation_cage_coef_calc_init : GimpOperationCageCoefCalc :=
  {| config := None |}.

(** [gimp_operation_cage_coef_calc_set_property] (lines 134 to 154).
    [g_value_dup_object] returns the object of the value with one more
    reference, or null. *)
Definition gimp_operation_cage_coef_calc_set_property
    (self : GimpOperationCageCoefCalc) (id : property_id)
    (value : option GObject) : GimpOperationCageCoefCalc * list effect :=
  match id with
  | GIMP_OPERATION_CAGE_COEF_CALC_PROP_CONFIG =>
      ({| config := value |},
       match config self with Some o => [g_object_unref o] | None => [] end
       ++ match value with Some o => [g_object_ref o] | None => [] end)
  | PROP_OTHER n => (self, [G_OBJECT_WARN_INVALID_PROPERTY_ID n])
  end.

(** [gimp_operation_cage_coef_calc_get_property] (lines 114 to 132): the
    object the value is set to, when it is set. *)
Definition gimp_operation_cage_coef_calc_get_property
    (self : GimpOperationCageCoefCalc) (id : property_id)
    : option (option GObject) * list effect :=
  match id with
  | GIMP_OPERATION_CAGE_COEF_CALC_PROP_CONFIG => (Some (config self), [])
  | PROP_OTHER n => (None, [G_OBJECT_WARN_INVALID_PROPERTY_ID n])
  end.

(** [gimp_operation_cage_coef_calc_finalize] (lines 100 to 112), up to the
    call of the parent's [finalize]. *)
Definition gimp_operation_cage_coef_calc_finalize
    (self : GimpOperationCageCoefCalc)
    : GimpOperationCageCoefCalc * list effect :=
  match config self with
  | Some o => ({| config := None |}, [g_object_unref o])
  | None => (self, [])
  end.

(** [gimp_operation_cage_coef_calc_prepare] (lines 91 to 98): the number of
    floats of the format it sets for the output.  [objects] holds the
    configurations by their addresses. *)
Definition gimp_operation_cage_coef_calc_prepare
    (objects : gmap GObject GimpCageConfig) (self : GimpOperationCageCoefCalc)
    : run nat :=
  deref (config self ≫= (objects !!.))
    (fun c => (2 * cage_vertice_number c)%nat).

(** A caller sets properties one after the other. *)
Fixpoint set_properties (self : GimpOperationCageCoefCalc)
    (calls : list (property_id * option GObject))
    : GimpOperationCageCoefCalc * list effect :=
  match calls with
  | [] => (self, [])
  | (id, value) :: calls =>
      let '(self, e1) :=
        gimp_operation_cage_coef_calc_set_property self id value in
      let '(self, e2) := set_properties self calls in
      (self, e1 ++ e2)
  end.

(** The references to [o] taken less the references to [o] dropped. *)
Fixpoint references (o : GObject) (effects : list effect) : Z :=
  match effects with
  | [] => 0
  | g_object_ref o' :: effects =>
      (if decide (o' = o) then 1 else 0) + references o effects
  | g_object_unref o' :: effects =>
      references o effects - (if decide (o' = o) then 1 else 0)
  | _ :: effects => references o effects
  end.

(** The references the operation holds to [o]: one when [config] is [o]. *)
Definition held (self : GimpOperationCageCoefCalc) (o : GObject) : Z :=
  if decide (config self = Some o) then 1 else 0.

(** The value of the last write of the [config] property, from [v]. *)
Fixpoint last_config (v : option GObject)
    (calls : list (property_id * option GObject)) : option GObject :=
  match calls with
  | [] => v
  | (GIMP_OPERATION_CAGE_COEF_CALC_PROP_CONFIG, value) :: calls =>
      last_config value calls
  | _ :: calls => last_config v calls
  end.

End CageOperation.

(** * The item tree *)

Module ItemTree.

(** ** C strings and the C library *)

(** [glong] is a 64-bit integer. *)
Definition G_MINLONG : Z := - 2 ^ 63.
Definition G_MAXLONG : Z := 2 ^ 63 - 1.

(** [isspace] in the C locale: the space and the characters 9 to 13. *)
Definition isspace (a : ascii) : bool :=
  let n := nat_of_ascii a in
  (n =? 32)%nat || ((9 <=? n)%nat && (n <=? 13)%nat).

Definition isdigit (a : ascii) : bool :=
  let n := nat_of_ascii a in
  (48 <=? n)%nat && (n <=? 57)%nat.

Definition digit_value (a : ascii) : Z := Z.of_nat (nat_of_ascii a) - 48.

Definition digit_char (d : Z) : ascii := ascii_of_nat (48 + Z.to_nat d).

Fixpoint skip_spaces (s : string) : string :=
  match s with
  | String a s' => if isspace a then skip_spaces s' else s
  | EmptyString => s
  end.

(** The value of the longest prefix of digits of [s], read from [acc]. *)
Fixpoint parse_digits (s : string) (acc : Z) : Z :=
  match s with
  | String a s' =>
      if isdigit a then parse_digits s' (10 * acc + digit_value a) else acc
  | EmptyString => acc
  end.

(** [strtol (s, NULL, 10)]: white space, an optional sign, digits; a value
    out of the range of [glong] is clamped to it. *)
Definition strtol (s : string) : Z :=
  let v :=
    match skip_spaces s with
    | String "-" s' => - parse_digits s' 0
    | String "+" s' => parse_digits s' 0
    | s' => parse_digits s' 0
    end in
  Z.max G_MINLONG (Z.min G_MAXLONG v).

(** [atoi (s)] is [(int) strtol (s, NULL, 10)]. *)
Definition atoi (s : string) : Z := gint_wrap (strtol s).

(** The decimal digits of [n >= 0], most significant first; [fuel] bounds
    their number. *)
Fixpoint render_nat (fuel : nat) (n : Z) : string :=
  match fuel with
  | O => EmptyString
  | S fuel =>
      if n <? 10 then String (digit_char n) EmptyString
      else render_nat fuel (n / 10) +:+ String (digit_char (n mod 10)) EmptyString
  end.

(** [g_strdup_printf ("%d", n)].  A number has no more decimal digits than
    binary ones. *)
Definition printf_d (n : Z) : string :=
  if n <? 0
  then String "-" (render_nat (S (Z.to_nat (Z.log2 (- n)))) (- n))
  else render_nat (S (Z.to_nat (Z.log2 n))) n.

(** [strrchr (s, c)], as the pair of the text before the last [c] of [s]
    and the text after it: the text at [ext + 1], and what [*ext = '\0']
    leaves of [s]. *)
Fixpoint strrchr (s : string) (c : ascii) : option (string * string) :=
  match s with
  | EmptyString => None
  | String a s' =>
      match strrchr s' c with
      | Some (pre, ext1) => Some (String a pre, ext1)
      | None => if Ascii.eqb a c then Some (EmptyString, s') else None
      end
  end.

(** A string of digits, and a string that holds the character [c]. *)
Fixpoint digits_only (s : string) : bool :=
  match s with
  | EmptyString => true
  | String a s' => isdigit a && digits_only s'
  end.

Fixpoint has_char (c : ascii) (s : string) : bool :=
  match s with
  | EmptyString => false
  | String a s' => Ascii.eqb a c || has_char c s'
  end.

(** ** Items, containers and the tree

    An item is known by its address.  What the tree reads and writes of the
    objects of gimpitem.c, gimpviewable.c, gimpcontainer.c and the undo
    stack of the image is kept in one state. *)
Definition item := nat.
Definition image := nat.

Record GimpItem := {
  name : string;
  parent : option item;
  (** The children of a group, in order; [None] for an item that cannot
      hold children ([gimp_viewable_get_children] returns [NULL]). *)
  children : option (list item);
  item_image : image;
  removed : bool
}.

Inductive undo :=
  | UndoItemReorder (desc : string) (i : item)
  | UndoItemRename (desc : string) (i : item).

(** A [GimpContainer]: the tree's own, or the children of a group. *)
Inductive GimpContainer :=
  | Toplevel
  | ChildrenOf (p : item).

#[global] Instance GimpContainer_eq_dec : EqDecision GimpContainer.
Proof. solve_decision. Defined.

Record GimpItemTree := {
  tree_image : image;
  container : list item;
  active_item : option item;
  name_hash : gmap string item;
  heap : gmap item GimpItem;
  undo_stack : list undo
}.

Definition with_container (l : list item) (w : GimpItemTree) : GimpItemTree :=
  {| tree_image := tree_image w; container := l;
     active_item := active_item w; name_hash := name_hash w;
     heap := heap w; undo_stack := undo_stack w |}.

Definition with_active_item (a : option item) (w : GimpItemTree)
    : GimpItemTree :=
  {| tree_image := tree_image w; container := container w;
     active_item := a; name_hash := name_hash w;
     heap := heap w; undo_stack := undo_stack w |}.

Definition with_name_hash (h : gmap string item) (w : GimpItemTree)
    : GimpItemTree :=
  {| tree_image := tree_image w; container := container w;
     active_item := active_item w; name_hash := h;
     heap := heap w; undo_stack := undo_stack w |}.

Definition with_heap (h : gmap item GimpItem) (w : GimpItemTree)
    : GimpItemTree :=
  {| tree_image := tree_image w; container := container w;
     active_item := active_item w; name_hash := name_hash w;
     heap := h; undo_stack := undo_stack w |}.

Definition with_undo_stack (u : list undo) (w : GimpItemTree) : GimpItemTree :=
  {| tree_image := tree_image w; container := container w;
     active_item := active_item w; name_hash := name_hash w;
     heap := heap w; undo_stack := u |}.

Definition set_name (s : string) (o : GimpItem) : GimpItem :=
  {| name := s; parent := parent o; children := children o;
     item_image := item_image o; removed := removed o |}.

Definition set_parent (p : option item) (o : GimpItem) : GimpItem :=
  {| name := name o; parent := p; children := children o;
     item_image := item_image o; removed := removed o |}.

Definition set_children (c : option (list item)) (o : GimpItem) : GimpItem :=
  {| name := name o; parent := parent o; children := c;
     item_image := item_image o; removed := removed o |}.

Definition set_removed (b : bool) (o : GimpItem) : GimpItem :=
  {| name := name o; parent := parent o; children := children o;
     item_image := item_image o; removed := b |}.

(** ** The collaborators

    The tree works on items and containers through functions of
    gimpobject.c, gimpviewable.c, gimpitem.c, gimpcontainer.c and
    gimpimage-undo-push.c, none of which is under src/.  They are embedded
    as sections 3 and 4.2 of the specification describe them. *)

(** [GIMP_IS_ITEM]: the address is that of an item. *)
Definition GIMP_IS_ITEM (w : GimpItemTree) (i : item) : bool :=
  bool_decide (is_Some (heap w !! i)).

(** Modelled from the spec: [gimp_object_get_name] and
    [gimp_object_set_name] (gimpobject.c), the name an item carries. *)
Definition gimp_object_get_name (w : GimpItemTree) (i : item) : string :=
  match heap w !! i with Some o => name o | None => EmptyString end.

Definition gimp_object_set_name (w : GimpItemTree) (i : item) (s : string)
    : GimpItemTree :=
  with_heap (alter (set_name s) i (heap w)) w.

(** Modelled from the spec: [gimp_item_get_parent] and
    [gimp_item_get_image] (gimpitem.c), the parent, an item or null, and
    the owning image. *)
Definition gimp_item_get_parent (w : GimpItemTree) (i : item) : option item :=
  heap w !! i ≫= parent.

Definition gimp_item_get_image (w : GimpItemTree) (i : item) : option image :=
  item_image <$> heap w !! i.

(** Modelled from the spec: [gimp_viewable_set_parent] and
    [gimp_viewable_get_children] (gimpviewable.c); the children container
    of an item that can hold none is null. *)
Definition gimp_viewable_set_parent (w : GimpItemTree) (i : item)
    (p : option item) : GimpItemTree :=
  with_heap (alter (set_parent p) i (heap w)) w.

Definition gimp_viewable_get_children (w : GimpItemTree) (i : item)
    : option GimpContainer :=
  match heap w !! i ≫= children with
  | Some _ => Some (ChildrenOf i)
  | None => None
  end.

(** Modelled from the spec: [gimp_item_removed] (gimpitem.c), the notice
    that the item was removed. *)
Definition gimp_item_removed (w : GimpItemTree) (i : item) : GimpItemTree :=
  with_heap (alter (set_removed true) i (heap w)) w.

(** The children of a container, and the container with other children. *)
Definition container_items (w : GimpItemTree) (c : GimpContainer)
    : list item :=
  match c with
  | Toplevel => container w
  | ChildrenOf p => default [] (heap w !! p ≫= children)
  end.

Definition set_container_items (w : GimpItemTree) (c : GimpContainer)
    (l : list item) : GimpItemTree :=
  match c with
  | Toplevel => with_container l w
  | ChildrenOf p => with_heap (alter (set_children (Some l)) p (heap w)) w
  end.

(** Modelled from the spec: [gimp_item_get_container] (gimpitem.c), the
    children of the parent or the container of the tree. *)
Definition gimp_item_get_container (w : GimpItemTree) (i : item)
    : GimpContainer :=
  match gimp_item_get_parent w i with
  | Some p => ChildrenOf p
  | None => Toplevel
  end.

(** The position of the first [i] in [l], from [k] on; -1 when there is
    none. *)
Fixpoint index_from (k : Z) (i : item) (l : list item) : Z :=
  match l with
  | [] => -1
  | x :: l' => if decide (x = i) then k else index_from (k + 1) i l'
  end.

(** Modelled from the spec: [gimp_container_get_child_index],
    [gimp_item_get_index], [gimp_container_get_n_children] and
    [gimp_container_get_child_by_index] (gimpcontainer.c, gimpitem.c) over
    the ordered children; no child is null. *)
Definition gimp_container_get_child_index (w : GimpItemTree)
    (c : GimpContainer) (i : item) : Z :=
  index_from 0 i (container_items w c).

Definition gimp_item_get_index (w : GimpItemTree) (i : item) : Z :=
  gimp_container_get_child_index w (gimp_item_get_container w i) i.

Definition gimp_container_get_n_children (w : GimpItemTree)
    (c : GimpContainer) : Z :=
  Z.of_nat (length (container_items w c)).

Definition gimp_container_get_child_by_index (w : GimpItemTree)
    (c : GimpContainer) (index : Z) : option item :=
  if index <? 0 then None else container_items w c !! Z.to_nat index.

(** The list without its first [i]. *)
Fixpoint remove_first (i : item) (l : list item) : list item :=
  match l with
  | [] => []
  | x :: l' => if decide (x = i) then l' else x :: remove_first i l'
  end.

Definition insert_at (index : Z) (i : item) (l : list item) : list item :=
  if index <? 0 then l ++ [i]
  else take (Z.to_nat index) l ++ i :: drop (Z.to_nat index) l.

(** Modelled from the spec: [gimp_container_remove] (gimpcontainer.c)
    takes the object out of the ordered children. *)
Definition gimp_container_remove (w : GimpItemTree) (c : GimpContainer)
    (i : item) : GimpItemTree :=
  set_container_items w c (remove_first i (container_items w c)).

(** Modelled from the spec: [gimp_container_insert] (gimpcontainer.c)
    puts the object at the index; an index of -1 appends. *)
Definition gimp_container_insert (w : GimpItemTree) (c : GimpContainer)
    (i : item) (index : Z) : GimpItemTree :=
  set_container_items w c (insert_at index i (container_items w c)).

(** Modelled from the spec: [gimp_container_reorder] (gimpcontainer.c)
    moves the object to the index within its container. *)
Definition gimp_container_reorder (w : GimpItemTree) (c : GimpContainer)
    (i : item) (new_index : Z) : GimpItemTree :=
  set_container_items w c
    (insert_at new_index i (remove_first i (container_items w c))).

(** Modelled from the spec: [gimp_item_is_attached] (gimpitem.c).  An
    item is attached when the container its parent pointer names holds it
    and the parent, if there is one, is attached. *)
Fixpoint attached_within (fuel : nat) (w : GimpItemTree) (i : item) : bool :=
  match fuel with
  | O => false
  | S fuel =>
      match gimp_item_get_parent w i with
      | None => bool_decide (i ∈ container w)
      | Some p =>
          bool_decide (i ∈ container_items w (ChildrenOf p))
          && attached_within fuel w p
      end
  end.

Definition gimp_item_is_attached (w : GimpItemTree) (i : item) : bool :=
  GIMP_IS_ITEM w i && attached_within (S (size (heap w))) w i.

(** Modelled from the spec: [gimp_image_undo_push_item_reorder] and
    [gimp_image_undo_push_item_rename] (gimpimage-undo-push.c) are opaque;
    a push is recorded on the undo stack of the image. *)
Definition gimp_image_undo_push_item_reorder (w : GimpItemTree)
    (undo_desc : string) (i : item) : GimpItemTree :=
  with_undo_stack (UndoItemReorder undo_desc i :: undo_stack w) w.

Definition gimp_image_undo_push_item_rename (w : GimpItemTree)
    (undo_desc : string) (i : item) : GimpItemTree :=
  with_undo_stack (UndoItemRename undo_desc i :: undo_stack w) w.

(** ** gimpitemtree.c *)

Definition gimp_item_tree_get_active_item (w : GimpItemTree) : option item :=
  active_item w.

(** [gimp_item_tree_set_active_item] (lines 293 to 314); the notification
    of the change is left out. *)
Definition gimp_item_tree_set_active_item (w : GimpItemTree)
    (i : option item) : GimpItemTree :=
  if negb (match i with
           | None => true
           | Some i =>
               GIMP_IS_ITEM w i && gimp_item_is_attached w i
               && bool_decide (gimp_item_get_image w i = Some (tree_image w))
           end)
  then w
  else if bool_decide (i = active_item w) then w
  else with_active_item i w.

Definition gimp_item_tree_get_item_by_name (w : GimpItemTree) (s : string)
    : option item :=
  name_hash w !! s.

(** One turn of the loop of [gimp_item_tree_uniquefy_name] (lines 598 to
    628): the name the item gets from the name [s] it has.  [number] is a
    [gint]; [number++] wraps at [G_MAXINT], as it does on the machines GIMP
    is built for. *)
Definition next_name (s : string) : string :=
  match strrchr s "#" with
  | Some (stem, ext1) =>
      let number := atoi ext1 in
      let ext_str := printf_d number in
      if String.eqb ext_str ext1
      then stem +:+ String "#" (printf_d (gint_wrap (number + 1)))
      else s +:+ String "#" (printf_d (gint_wrap (0 + 1)))
  | None => s +:+ String "#" (printf_d (gint_wrap (0 + 1)))
  end.

(** The name the item has after [k] turns of the loop, from the name [s]. *)
Definition name_at (s : string) (k : nat) : string := Nat.iter k next_name s.

(** The loop of lines 595 to 629, for at most [fuel] turns: the first name
    from [s] on that the name index does not hold, or [None] when [fuel]
    turns do not reach one. *)
Fixpoint uniquefy_loop (fuel : nat) (hash : gmap string item) (s : string)
    : option string :=
  match hash !! s with
  | None => Some s
  | Some _ =>
      match fuel with
      | O => None
      | S fuel => uniquefy_loop fuel hash (next_name s)
      end
  end.

(** [gimp_item_tree_uniquefy_name] (lines 580 to 634). *)
Definition gimp_item_tree_uniquefy_name (fuel : nat) (w : GimpItemTree)
    (i : item) (new_name : option string) : option GimpItemTree :=
  let w :=
    match new_name with
    | Some s =>
        let w :=
          with_name_hash (delete (gimp_object_get_name w i) (name_hash w)) w in
        gimp_object_set_name w i s
    | None => w
    end in
  match uniquefy_loop fuel (name_hash w) (gimp_object_get_name w i) with
  | Some s =>
      let w := gimp_object_set_name w i s in
      Some (with_name_hash (<[gimp_object_get_name w i := i]> (name_hash w)) w)
  | None => None
  end.

(** [gimp_item_tree_add_item] (lines 390 to 419).  A failed
    [g_return_if_fail] leaves the state as it is. *)
Definition gimp_item_tree_add_item (fuel : nat) (w : GimpItemTree)
    (i : item) (new_parent : option item) (position : Z)
    : option GimpItemTree :=
  if negb (GIMP_IS_ITEM w i) then Some w
  else if gimp_item_is_attached w i then Some w
  else if negb (bool_decide (gimp_item_get_image w i = Some (tree_image w)))
  then Some w
  else
    match gimp_item_tree_uniquefy_name fuel w i None with
    | None => None
    | Some w =>
        let c :=
          match new_parent with
          | Some p => gimp_viewable_get_children w p
          | None => Some Toplevel
          end in
        let w :=
          match new_parent with
          | Some p => gimp_viewable_set_parent w i (Some p)
          | None => w
          end in
        match c with
        | Some c => Some (gimp_container_insert w c i position)
        | None => Some w
        end
    end.

(** [gimp_item_tree_remove_item] (lines 421 to 472): the state it leaves and
    the item it returns. *)
Definition gimp_item_tree_remove_item (w : GimpItemTree) (i : item)
    (new_active : option item) : GimpItemTree * option item :=
  if negb (GIMP_IS_ITEM w i) then (w, None)
  else if negb (gimp_item_is_attached w i) then (w, None)
  else if negb (bool_decide (gimp_item_get_image w i = Some (tree_image w)))
  then (w, None)
  else
    let p := gimp_item_get_parent w i in
    let c := gimp_item_get_container w i in
    let index := gimp_item_get_index w i in
    let w := gimp_container_remove w c i in
    let w :=
      match p with
      | Some _ => gimp_viewable_set_parent w i None
      | None => w
      end in
    let w := gimp_item_removed w i in
    let new_active :=
      match new_active with
      | Some a => Some a
      | None =>
          let n_children := gimp_container_get_n_children w c in
          if 0 <? n_children then
            let index := CLAMP index 0 (n_children - 1) in
            gimp_container_get_child_by_index w c index
          else
            match p with
            | Some p => Some p
            | None => None
            end
      end in
    (w, new_active).

(** The container [gimp_item_tree_reorder_item] moves the item to: the
    children of the new parent, or the container of the tree. *)
Definition reorder_destination (new_parent : option item) : GimpContainer :=
  match new_parent with
  | Some p => ChildrenOf p
  | None => Toplevel
  end.

(** [gimp_item_tree_reorder_item] (lines 474 to 548). *)
Definition gimp_item_tree_reorder_item (w : GimpItemTree) (i : item)
    (new_parent : option item) (new_index : Z) (push_undo : bool)
    (undo_desc : string) : GimpItemTree * bool :=
  if negb (GIMP_IS_ITEM w i) then (w, false)
  else if negb (gimp_item_is_attached w i) then (w, false)
  else if negb (bool_decide (gimp_item_get_image w i = Some (tree_image w)))
  then (w, false)
  else if negb (match new_parent with
                | None => true
                | Some p =>
                    GIMP_IS_ITEM w p && gimp_item_is_attached w p
                    && bool_decide (gimp_item_get_image w p
                                    = Some (tree_image w))
                    && bool_decide (is_Some (gimp_viewable_get_children w p))
                end)
  then (w, false)
  else
    let c := gimp_item_get_container w i in
    let new_container :=
      match new_parent with
      | Some p => default Toplevel (gimp_viewable_get_children w p)
      | None => Toplevel
      end in
    let n_items := gimp_container_get_n_children w new_container in
    let n_items :=
      if decide (new_container = c) then n_items - 1 else n_items in
    let new_index := CLAMP new_index 0 n_items in
    if negb (bool_decide (new_container = c))
       || negb (new_index =? gimp_item_get_index w i)
    then
      let w :=
        if push_undo
        then gimp_image_undo_push_item_reorder w undo_desc i else w in
      if negb (bool_decide (new_container = c)) then
        let w := gimp_container_remove w c i in
        let w := gimp_viewable_set_parent w i new_parent in
        let w := gimp_container_insert w new_container i new_index in
        (w, true)
      else
        (gimp_container_reorder w c i new_index, true)
    else (w, true).

(** [gimp_item_tree_rename_item] (lines 550 to 575). *)
Definition gimp_item_tree_rename_item (fuel : nat) (w : GimpItemTree)
    (i : item) (new_name : string) (push_undo : bool) (undo_desc : string)
    : option GimpItemTree :=
  if negb (GIMP_IS_ITEM w i) then Some w
  else if negb (gimp_item_is_attached w i) then Some w
  else if negb (bool_decide (gimp_item_get_image w i = Some (tree_image w)))
  then Some w
  else if negb (String.eqb new_name (gimp_object_get_name w i)) then
    let w :=
      if push_undo
      then gimp_image_undo_push_item_rename w undo_desc i else w in
    gimp_item_tree_uniquefy_name fuel w i (Some new_name)
  else Some w.

(** ** Trees for the scenarios *)

(** An item of the image 0 that is in no tree yet, without children and
    with children. *)
Definition leaf (s : string) : GimpItem :=
  {| name := s; parent := None; children := None;
     item_image := 0%nat; removed := false |}.

Definition group (s : string) : GimpItem :=
  {| name := s; parent := None; children := Some [];
     item_image := 0%nat; removed := false |}.

(** [gimp_item_tree_new] for the image 0, over the objects of [h]. *)
Definition gimp_item_tree_new (h : gmap item GimpItem) : GimpItemTree :=
  {| tree_image := 0%nat; container := []; active_item := None;
     name_hash := ∅; heap := h; undo_stack := [] |}.

(** The items are added one after the other at position 0 of [new_parent]. *)
Fixpoint add_items (fuel : nat) (w : GimpItemTree) (new_parent : option item)
    (l : list item) : option GimpItemTree :=
  match l with
  | [] => Some w
  | i :: l =>
      match gimp_item_tree_add_item fuel w i new_parent 0 with
      | Some w => add_items fuel w new_parent l
      | None => None
      end
  end.

(** Two items that both ask for the name [s], added to an empty tree. *)
Definition twice (s : string) : option GimpItemTree :=
  add_items 4 (gimp_item_tree_new {[1%nat := leaf s; 2%nat := leaf s]}) None
    [1%nat; 2%nat].

(** A group G with the items A and B, beside an item C at the top level. *)
Definition group_heap : gmap item GimpItem :=
  {[1%nat := group "G"; 2%nat := leaf "A"; 3%nat := leaf "B";
    4%nat := leaf "C"]}.

Definition group_tree : GimpItemTree :=
  default (gimp_item_tree_new group_heap)
    (w ← add_items 8 (gimp_item_tree_new group_heap) None [4%nat; 1%nat];
     add_items 8 w (Some 1%nat) [3%nat; 2%nat]).

(** One item named Layer at the top level. *)
Definition layer_tree : GimpItemTree :=
  default (gimp_item_tree_new {[1%nat := leaf "Layer"]})
    (add_items 4 (gimp_item_tree_new {[1%nat := leaf "Layer"]}) None [1%nat]).

End ItemTree.

(** * The item tree: where a new item goes *)

Module ItemTreeInsert.

Import ItemTree.

(** The [parent] argument of [gimp_item_tree_get_insert_pos]: the sentinel
    [GIMP_IMAGE_ACTIVE_PARENT], which is the address of no item, or an item
    or null. *)
Inductive parent_hint :=
  | GIMP_IMAGE_ACTIVE_PARENT
  | Parent (p : option item).

(** The children of [parent], or the container of the tree (lines 365 to
    368, and 409 to 412); null when [parent] can hold no children. *)
Definition children_or_toplevel (w : GimpItemTree) (p : option item)
    : option GimpContainer :=
  match p with
  | Some p => gimp_viewable_get_children w p
  | None => Some Toplevel
  end.

(** [gimp_container_get_child_index] and [gimp_container_get_n_children]
    on a container that may be null: gimpcontainer.c returns -1 and 0 for
    what is no container. *)
Definition child_index_or_fail (w : GimpItemTree) (c : option GimpContainer)
    (i : item) : Z :=
  match c with
  | Some c => gimp_container_get_child_index w c i
  | None => -1
  end.

Definition n_children_or_fail (w : GimpItemTree) (c : option GimpContainer)
    : Z :=
  match c with
  | Some c => gimp_container_get_n_children w c
  | None => 0
  end.

(** [gimp_item_tree_get_insert_pos] (lines 327 to 388): the returned parent
    and what [*position] holds on return. *)
Definition gimp_item_tree_get_insert_pos (w : GimpItemTree)
    (parent : parent_hint) (position : Z) : option item * Z :=
  let '(parent, position) :=
    match parent with
    | GIMP_IMAGE_ACTIVE_PARENT =>
        match active_item w with
        | Some a =>
            match gimp_viewable_get_children w a with
            | Some _ => (Some a, 0)
            | None => (gimp_item_get_parent w a, position)
            end
        | None => (None, position)
        end
    | Parent p => (p, position)
    end in
  let container := children_or_toplevel w parent in
  let position :=
    if position =? -1 then
      let position :=
        match active_item w with
        | Some a => child_index_or_fail w container a
        | None => position
        end in
      if position =? -1 then 0 else position
    else position in
  let position := CLAMP position 0 (n_children_or_fail w container) in
  (parent, position).

(** The name index is sound when each of its keys is the name of the item
    it maps to. *)
Definition name_index_sound (w : GimpItemTree) : Prop :=
  forall s j, gimp_item_tree_get_item_by_name w s = Some j ->
              gimp_object_get_name w j = s.

(** The active item is valid when it is null, or attached and of the image
    of the tree: what [gimp_item_tree_set_active_item] asks of it. *)
Definition active_item_valid (w : GimpItemTree) : Prop :=
  match gimp_item_tree_get_active_item w with
  | Some a =>
      gimp_item_is_attached w a = true
      /\ gimp_item_get_image w a = Some (tree_image w)
  | None => True
  end.

(** ** Trees for the scenarios *)

(** The tree of the group G with A the active item, and beside it an item
    that is in no container yet and asks for the name A. *)
Definition spare_tree : GimpItemTree :=
  with_active_item (Some 2%nat)
    (with_heap (<[5%nat := leaf "A"]> (heap group_tree)) group_tree).

(** The tree of the group G with the group the active item. *)
Definition group_active_tree : GimpItemTree :=
  with_active_item (Some 1%nat) group_tree.

End ItemTreeInsert.

(** * Properties of the C integers *)

Lemma gint_wrap_id n : gint_range n -> gint_wrap n = n.
Proof.
  unfold gint_range, G_MININT, G_MAXINT, gint_wrap. intros H.
  rewrite Z.mod_small by lia. lia.
Qed.

Lemma gint_wrap_range n : gint_range (gint_wrap n).
Proof.
  unfold gint_range, G_MININT, G_MAXINT, gint_wrap.
  pose proof (Z.mod_pos_bound (n + 2 ^ 31) (2 ^ 32)). lia.
Qed.

Lemma gint_wrap_add_l a b : gint_wrap (gint_wrap a + b) = gint_wrap (a + b).
Proof.
  unfold gint_wrap. f_equal.
  replace ((a + 2 ^ 31) mod 2 ^ 32 - 2 ^ 31 + b + 2 ^ 31)
    with ((a + 2 ^ 31) mod 2 ^ 32 + b) by lia.
  rewrite Zplus_mod_idemp_l. f_equal. lia.
Qed.

Lemma gint_wrap_apart a i j :
  0 <= i < j -> j < 2 ^ 32 -> gint_wrap (a + i) <> gint_wrap (a + j).
Proof.
  unfold gint_wrap. change (2 ^ 32) with 4294967296.
  change (2 ^ 31) with 2147483648. intros Hij Hj H.
  pose proof (Z.div_mod (a + i + 2147483648) 4294967296).
  pose proof (Z.div_mod (a + j + 2147483648) 4294967296).
  lia.
Qed.

Lemma CLAMP_min x n :
  0 <= x -> 0 <= n -> CLAMP x 0 n = Z.min x n.
Proof.
  intros Hx Hn. unfold CLAMP.
  destruct (Z.ltb_spec n x), (Z.ltb_spec x 0); lia.
Qed.

Lemma CLAMP_bounds x n : 0 <= n -> 0 <= CLAMP x 0 n <= n.
Proof.
  intros Hn. unfold CLAMP.
  destruct (Z.ltb_spec n x), (Z.ltb_spec x 0); lia.
Qed.

(** * Properties of the cage coefficient kernel *)

Module CageCoefCalcFacts.

Import CageCoefCalc.

(** ** NaN is absorbing *)

Lemma SFadd_nan_r p e x : SFadd p e x S754_nan = S754_nan.
Proof. destruct x; reflexivity. Qed.
Lemma SFadd_nan_l p e x : SFadd p e S754_nan x = S754_nan.
Proof. reflexivity. Qed.
Lemma SFsub_nan_r p e x : SFsub p e x S754_nan = S754_nan.
Proof. destruct x; reflexivity. Qed.
Lemma SFsub_nan_l p e x : SFsub p e S754_nan x = S754_nan.
Proof. reflexivity. Qed.
Lemma SFmul_nan_r p e x : SFmul p e x S754_nan = S754_nan.
Proof. destruct x; reflexivity. Qed.
Lemma SFmul_nan_l p e x : SFmul p e S754_nan x = S754_nan.
Proof. reflexivity. Qed.
Lemma SFdiv_nan_r p e x : SFdiv p e x S754_nan = S754_nan.
Proof. destruct x; reflexivity. Qed.
Lemma SFdiv_nan_l p e x : SFdiv p e S754_nan x = S754_nan.
Proof. reflexivity. Qed.

Ltac nan_step :=
  rewrite ?SFadd_nan_r, ?SFadd_nan_l, ?SFsub_nan_r, ?SFsub_nan_l,
    ?SFmul_nan_r, ?SFmul_nan_l, ?SFdiv_nan_r, ?SFdiv_nan_l.

Ltac nan_absorb :=
  unfold dadd, dsub, dmul, ddiv, fadd, fsub, fmul, fdiv;
  repeat (progress (nan_step; simpl to_gfloat)); try reflexivity.

(** ** The formats of the floats

    [binary_round] leaves a float of the format it rounds to: the mantissa
    has [prec] digits at most, and as many as the exponent allows. *)

Lemma digits2_pos_iter_xO m k :
  Z.pos (digits2_pos (Pos.iter xO m k)) = Z.pos (digits2_pos m) + Z.pos k.
Proof.
  induction k as [|k IH] using Pos.peano_ind.
  - cbn. lia.
  - rewrite Pos.iter_succ. cbn [digits2_pos]. lia.
Qed.

Lemma pos_iter_xO m k : Z.pos (Pos.iter xO m k) = Z.pos m * 2 ^ Z.pos k.
Proof.
  induction k as [|k IH] using Pos.peano_ind.
  - cbn. lia.
  - rewrite Pos.iter_succ, Pos2Z.inj_xO, IH, Pos2Z.inj_succ.
    rewrite Z.pow_succ_r by lia. lia.
Qed.

Lemma Zdigits2_nonneg m : 0 <= Zdigits2 m.
Proof. destruct m; cbn; lia. Qed.

Lemma shr_1_digits r :
  0 <= shr_m r ->
  0 <= shr_m (shr_1 r)
  /\ Zdigits2 (shr_m (shr_1 r)) = Z.max 0 (Zdigits2 (shr_m r) - 1).
Proof.
  destruct r as [m r s]. cbn [shr_m]. intros Hm.
  destruct m as [|p|p]; [cbn; lia| |lia].
  destruct p; cbn; lia.
Qed.

Lemma iter_shr_1_digits n : forall r,
  0 <= shr_m r ->
  0 <= shr_m (SpecFloat.iter_pos shr_1 n r)
  /\ Zdigits2 (shr_m (SpecFloat.iter_pos shr_1 n r))
     = Z.max 0 (Zdigits2 (shr_m r) - Z.pos n).
Proof.
  induction n as [n IH|n IH|]; intros r Hr; cbn [SpecFloat.iter_pos].
  - destruct (shr_1_digits r Hr) as [H1 E1].
    destruct (IH _ H1) as [H2 E2]. destruct (IH _ H2) as [H3 E3].
    split; [exact H3|]. rewrite E3, E2, E1. lia.
  - destruct (IH _ Hr) as [H2 E2]. destruct (IH _ H2) as [H3 E3].
    split; [exact H3|]. rewrite E3, E2. lia.
  - destruct (shr_1_digits r Hr) as [H1 E1]. split; [exact H1|].
    rewrite E1. lia.
Qed.

Lemma shr_digits r e n :
  0 <= shr_m r ->
  0 <= shr_m (fst (shr r e n))
  /\ snd (shr r e n) = e + Z.max 0 n
  /\ Zdigits2 (shr_m (fst (shr r e n)))
     = Z.max 0 (Zdigits2 (shr_m r) - Z.max 0 n).
Proof.
  intros Hr. pose proof (Zdigits2_nonneg (shr_m r)) as Hd.
  destruct n as [|p|p]; cbn [shr fst snd].
  - split; [exact Hr|split; lia].
  - destruct (iter_shr_1_digits p r Hr) as [H1 E1].
    split; [exact H1|split; [lia|rewrite E1; lia]].
  - split; [exact Hr|split; lia].
Qed.

Lemma shr_record_of_loc_m m l : shr_m (shr_record_of_loc m l) = m.
Proof. destruct l as [|[]]; reflexivity. Qed.

Lemma digits2_pos_succ p :
  Z.pos (digits2_pos p) <= Z.pos (digits2_pos (Pos.succ p))
  <= Z.pos (digits2_pos p) + 1.
Proof.
  induction p as [p IH|p IH|].
  - change (Pos.succ p~1) with (Pos.succ p)~0%positive.
    cbn [digits2_pos]. lia.
  - change (Pos.succ p~0) with p~1%positive. cbn [digits2_pos]. lia.
  - change (Pos.succ 1) with 2%positive. cbn. lia.
Qed.

Lemma Zdigits2_succ m :
  0 <= m -> Zdigits2 m <= Zdigits2 (m + 1) <= Zdigits2 m + 1.
Proof.
  intros Hm. destruct m as [|p|p]; [| |lia].
  { change (0 + 1) with 1. cbn [Zdigits2 digits2_pos]. lia. }
  cbn [Zdigits2].
  replace (Z.pos p + 1) with (Z.pos (Pos.succ p)) by lia.
  apply digits2_pos_succ.
Qed.

Lemma round_nearest_even_digits m l :
  0 <= m ->
  0 <= round_nearest_even m l
  /\ Zdigits2 m <= Zdigits2 (round_nearest_even m l) <= Zdigits2 m + 1.
Proof.
  intros Hm. pose proof (Zdigits2_succ m Hm) as Hs.
  unfold round_nearest_even.
  destruct l as [|[]]; try destruct (Z.even m); split; lia.
Qed.

Section Format.

Variables prec emax : Z.
Hypothesis prec_gt_0 : 0 < prec.

Lemma binary_round_aux_valid sx mx ex lx :
  0 <= mx ->
  ex <= fexp prec emax (Zdigits2 mx + ex) ->
  valid_binary prec emax (binary_round_aux prec emax sx mx ex lx) = true.
Proof.
  intros Hmx Hex. unfold binary_round_aux, shr_fexp.
  set (n1 := fexp prec emax (Zdigits2 mx + ex) - ex) in *.
  assert (Hr0 : 0 <= shr_m (shr_record_of_loc mx lx))
    by (rewrite shr_record_of_loc_m; exact Hmx).
  destruct (shr_digits (shr_record_of_loc mx lx) ex n1 Hr0) as (Hm1 & He1 & Hd1).
  rewrite shr_record_of_loc_m in Hd1.
  destruct (shr (shr_record_of_loc mx lx) ex n1) as [r1 e1].
  cbn [fst snd] in Hm1, He1, Hd1.
  destruct (round_nearest_even_digits (shr_m r1) (loc_of_shr_record r1) Hm1)
    as [Hm2 Hd2].
  set (m2 := round_nearest_even (shr_m r1) (loc_of_shr_record r1)) in *.
  set (n2 := fexp prec emax (Zdigits2 m2 + e1) - e1) in *.
  assert (Hr2 : 0 <= shr_m (shr_record_of_loc m2 loc_Exact)) by exact Hm2.
  destruct (shr_digits (shr_record_of_loc m2 loc_Exact) e1 n2 Hr2)
    as (Hm3 & He3 & Hd3).
  change (shr_m (shr_record_of_loc m2 loc_Exact)) with m2 in Hd3.
  destruct (shr (shr_record_of_loc m2 loc_Exact) e1 n2) as [r3 e3].
  cbn [fst snd] in Hm3, He3, Hd3.
  pose proof (Zdigits2_nonneg mx) as Hd0.
  destruct (shr_m r3) as [|m3|m3]; [reflexivity| |reflexivity].
  destruct (Z.leb_spec e3 (emax - prec)) as [Hle|Hgt]; [|reflexivity].
  cbn [valid_binary]. unfold bounded, canonical_mantissa.
  apply andb_true_intro. split; [|apply Z.leb_le; exact Hle].
  apply Z.eqb_eq. cbn [Zdigits2] in Hd3.
  unfold n1, n2, fexp, emin in *. lia.
Qed.

Lemma binary_round_valid s m e :
  valid_binary prec emax (binary_round prec emax s m e) = true.
Proof.
  unfold binary_round, shl_align.
  destruct (fexp prec emax (Z.pos (digits2_pos m) + e) - e) as [|d|d] eqn:Hd.
  - apply binary_round_aux_valid; [lia|]. cbn [Zdigits2]. lia.
  - apply binary_round_aux_valid; [lia|]. cbn [Zdigits2]. lia.
  - apply binary_round_aux_valid; [lia|]. cbn [Zdigits2].
    rewrite digits2_pos_iter_xO.
    replace (Z.pos (digits2_pos m) + Z.pos d
             + fexp prec emax (Z.pos (digits2_pos m) + e))
      with (Z.pos (digits2_pos m) + e) by lia.
    lia.
Qed.

(** A float of the format is its own rounding. *)
Lemma binary_round_aux_canonical s m e :
  bounded prec emax m e = true ->
  binary_round_aux prec emax s (Z.pos m) e loc_Exact = S754_finite s m e.
Proof.
  unfold bounded, canonical_mantissa. intros H.
  apply andb_prop in H. destruct H as [Hc He].
  apply Z.eqb_eq in Hc.
  unfold binary_round_aux, shr_fexp. cbn [Zdigits2].
  rewrite Hc, Z.sub_diag. cbn [shr shr_record_of_loc shr_m loc_of_shr_record
    round_nearest_even Zdigits2].
  rewrite Hc, Z.sub_diag. cbn [shr shr_record_of_loc shr_m].
  rewrite He. reflexivity.
Qed.

End Format.

Lemma to_gfloat_is_gfloat x : is_gfloat (to_gfloat x).
Proof.
  destruct x as [s|s| |s m e]; try reflexivity.
  apply binary_round_valid. lia.
Qed.

Lemma to_gdouble_is_gdouble x : is_gdouble (to_gdouble x).
Proof.
  destruct x as [s|s| |s m e]; try reflexivity.
  apply binary_round_valid. lia.
Qed.

Lemma is_gfloat_finite s m e :
  is_gfloat (S754_finite s m e) ->
  Z.pos (digits2_pos m) <= 24 /\ -149 <= e <= 104.
Proof.
  unfold is_gfloat, valid_binary, bounded, canonical_mantissa, fexp, emin.
  intros H. apply andb_prop in H. destruct H as [Hc He].
  apply Z.eqb_eq in Hc. apply Z.leb_le in He. lia.
Qed.

(** The conversion of a [gfloat] to [gdouble] is exact: the mantissa is
    shifted to the 53 digits of a normal binary64 float and the exponent
    lowered by as much. *)
Lemma to_gdouble_finite s m e :
  is_gfloat (S754_finite s m e) ->
  to_gdouble (S754_finite s m e)
  = S754_finite s (Pos.iter xO m (Z.to_pos (53 - Z.pos (digits2_pos m))))
      (e - (53 - Z.pos (digits2_pos m))).
Proof.
  intros H. apply is_gfloat_finite in H. destruct H as [Hd He].
  unfold to_gdouble, binary_round, shl_align.
  assert (Hf : fexp 53 1024 (Z.pos (digits2_pos m) + e)
               = e - (53 - Z.pos (digits2_pos m)))
    by (unfold fexp, emin; lia).
  rewrite Hf.
  destruct (e - (53 - Z.pos (digits2_pos m)) - e) as [|d|d] eqn:Hs; try lia.
  replace (Z.to_pos (53 - Z.pos (digits2_pos m))) with d by lia.
  apply binary_round_aux_canonical.
  unfold bounded, canonical_mantissa. rewrite digits2_pos_iter_xO.
  apply andb_true_intro. split; [apply Z.eqb_eq|apply Z.leb_le].
  - unfold fexp, emin. lia.
  - lia.
Qed.

Lemma to_gdouble_abs x : to_gdouble (SFabs x) = SFabs (to_gdouble x).
Proof.
  destruct x as [s|s| |s m e]; try reflexivity.
  unfold to_gdouble, SFabs, binary_round.
  destruct (shl_align m e _) as [mz ez]. unfold binary_round_aux.
  destruct (shr_fexp _ _ _ _ _) as [r1 e1].
  destruct (shr_fexp _ _ _ _ _) as [r2 e2].
  destruct (shr_m r2); try reflexivity.
  destruct (e2 <=? _); reflexivity.
Qed.

(** ** The threshold of line 174 *)

Lemma digits2_pos_bounds m :
  2 ^ (Z.pos (digits2_pos m) - 1) <= Z.pos m < 2 ^ Z.pos (digits2_pos m).
Proof.
  induction m as [m IH|m IH|].
  - cbn [digits2_pos]. rewrite Pos2Z.inj_succ, (Pos2Z.inj_xI m).
    replace (Z.succ (Z.pos (digits2_pos m)) - 1)
      with (Z.succ (Z.pos (digits2_pos m) - 1)) by lia.
    rewrite !Z.pow_succ_r by lia. lia.
  - cbn [digits2_pos]. rewrite Pos2Z.inj_succ, (Pos2Z.inj_xO m).
    replace (Z.succ (Z.pos (digits2_pos m)) - 1)
      with (Z.succ (Z.pos (digits2_pos m) - 1)) by lia.
    rewrite !Z.pow_succ_r by lia. lia.
  - cbn [digits2_pos]. change (2 ^ (1 - 1)) with 1. change (2 ^ 1) with 2. lia.
Qed.

(** The literal [0.000000001] is the binary64 float next above 1e-9: the
    one next below it is below 1e-9. *)
Lemma d1e_9_brackets :
  (4835703278458517 - 1) * 10 ^ 9 < 2 ^ 82 < 4835703278458517 * 10 ^ 9.
Proof. split; reflexivity. Qed.

Lemma SFltb_positive m e M E :
  SFltb (S754_finite false m e) (S754_finite false M E)
  = match e ?= E with
    | Lt => true
    | Eq => Z.pos m <? Z.pos M
    | Gt => false
    end.
Proof.
  unfold SFltb, SFcompare. destruct (e ?= E); reflexivity.
Qed.

(** A positive normal [gdouble] is below the literal exactly when it is
    below 1e-9. *)
Lemma normal_below_threshold m e :
  Z.pos (digits2_pos m) = 53 -> -201 <= e ->
  SFltb (S754_finite false m e) d1e_9
  = (Z.pos m * 2 ^ (e + 201) * 10 ^ 9 <? 2 ^ 201).
Proof.
  intros Hd He. pose proof (digits2_pos_bounds m) as Hm. rewrite Hd in Hm.
  change (2 ^ (53 - 1)) with 4503599627370496 in Hm.
  change (2 ^ 53) with 9007199254740992 in Hm.
  pose proof d1e_9_brackets as [Hlo Hhi].
  unfold d1e_9. rewrite SFltb_positive.
  destruct (Z.compare_spec e (-82)) as [->|Hlt|Hgt].
  - change (2 ^ (-82 + 201)) with (2 ^ 119).
    replace (2 ^ 201) with (2 ^ 82 * 2 ^ 119) by reflexivity.
    assert (H119 : 0 < 2 ^ 119) by reflexivity.
    destruct (Z.ltb_spec (Z.pos m) 4835703278458517) as [Hm'|Hm'];
      symmetry.
    + apply Z.ltb_lt. assert (Z.pos m <= 4835703278458517 - 1) by lia. nia.
    + apply Z.ltb_ge. nia.
  - symmetry. apply Z.ltb_lt.
    assert (HX : 0 < 2 ^ (e + 201) <= 2 ^ 118).
    { split; [apply Z.pow_pos_nonneg; lia|apply Z.pow_le_mono_r; lia]. }
    assert (HP : Z.pos m * 2 ^ (e + 201) <= 9007199254740991 * 2 ^ 118)
      by (apply Z.mul_le_mono_nonneg; lia).
    assert (HC : 9007199254740991 * 2 ^ 118 * 10 ^ 9 < 2 ^ 201) by reflexivity.
    nia.
  - symmetry. apply Z.ltb_ge.
    assert (HX : 2 ^ 120 <= 2 ^ (e + 201)) by (apply Z.pow_le_mono_r; lia).
    assert (H120 : 0 < 2 ^ 120) by reflexivity.
    assert (HP : 4503599627370496 * 2 ^ 120 <= Z.pos m * 2 ^ (e + 201))
      by (apply Z.mul_le_mono_nonneg; lia).
    assert (HC : 2 ^ 201 <= 4503599627370496 * 2 ^ 120 * 10 ^ 9)
      by (intros H; discriminate H).
    nia.
Qed.

(** The two comparisons of line 174 say that the absolute value of [deter]
    is below the literal. *)
Lemma abs_below_finite d M E :
  SFltb (SFabs d) (S754_finite false M E)
  = SFltb d (S754_finite false M E) && SFltb (S754_finite true M E) d.
Proof.
  destruct d as [s|s| |s m e]; try reflexivity; try (destruct s; reflexivity).
  unfold SFltb, SFcompare, SFabs.
  destruct s; [|rewrite andb_true_r; reflexivity].
  cbn [andb].
  rewrite (Z.compare_antisym E e).
  destruct (E ?= e); cbn [CompOpp]; try reflexivity.
  rewrite Pos.compare_cont_antisym. reflexivity.
Qed.

Lemma abs_below_threshold d :
  SFltb (SFabs d) d1e_9 = SFltb d d1e_9 && SFltb (SFopp d1e_9) d.
Proof. apply abs_below_finite. Qed.

(** For every [gfloat] the test of line 174 is the test [|d| < 1e-9] on
    the value of the float. *)
Lemma below_threshold_exact d :
  is_gfloat d ->
  SFltb (to_gdouble d) d1e_9 && SFltb (SFopp d1e_9) (to_gdouble d)
  = abs_below_1e_9 d.
Proof.
  intros Hd. rewrite <- abs_below_threshold, <- to_gdouble_abs.
  destruct d as [s|s| |s m e]; try reflexivity.
  assert (Ha : is_gfloat (S754_finite false m e)) by exact Hd.
  destruct (is_gfloat_finite _ _ _ Hd) as [Hdig He].
  cbn [SFabs]. rewrite (to_gdouble_finite false m e Ha).
  set (k := 53 - Z.pos (digits2_pos m)) in *.
  assert (Hk : 0 < k) by (unfold k; lia).
  rewrite normal_below_threshold;
    [|rewrite digits2_pos_iter_xO, Z2Pos.id by exact Hk; unfold k; lia
     |unfold k; lia].
  rewrite pos_iter_xO, Z2Pos.id by exact Hk.
  unfold abs_below_1e_9.
  replace (2 ^ 201) with (2 ^ 149 * 2 ^ 52) by reflexivity.
  replace (Z.pos m * 2 ^ k * 2 ^ (e - k + 201))
    with (Z.pos m * 2 ^ (e + 149) * 2 ^ 52).
  - assert (H52 : 0 < 2 ^ 52) by reflexivity.
    destruct (Z.ltb_spec (Z.pos m * 2 ^ (e + 149) * 10 ^ 9) (2 ^ 149));
      [apply Z.ltb_lt|apply Z.ltb_ge]; nia.
  - rewrite <- !Z.mul_assoc. f_equal.
    rewrite <- !Z.pow_add_r by lia. f_equal. lia.
Qed.

Lemma straight_deter_is_gfloat d1_ d2_ p : is_gfloat (straight_deter d1_ d2_ p).
Proof. apply to_gfloat_is_gfloat. Qed.

(** [gimp_operation_cage_coef_calc_is_on_straight] returns [TRUE] exactly
    when the absolute value of [deter] is below 1e-9. *)
Lemma is_on_straight_exact d1_ d2_ p :
  gimp_operation_cage_coef_calc_is_on_straight d1_ d2_ p
  = abs_below_1e_9 (straight_deter d1_ d2_ p).
Proof.
  unfold gimp_operation_cage_coef_calc_is_on_straight. cbv zeta.
  apply below_threshold_exact, straight_deter_is_gfloat.
Qed.

(** The test at work.  For the pixel (8, 24), on the straight line of the
    edge from (0, 0) to (7, 21), the rounding of the two normalized
    directions leaves 2^-54 in [deter] and not 0, and so it does, with the
    other sign, for (70, 210) and the edge from (0, 0) to (69, 207); for
    (99999, 1) and the edge from (0, 0) to (100000, 1), [deter] is about
    -1e-10.  The three pixels are taken to be on the straight line.  The
    pixel (5000, 1) is not on the line from (0, 0) to (10000, 0): [deter]
    is about -2e-4. *)
Example is_on_straight_at_work :
  straight_deter (vec 0 0) (vec 7 21) (vec 8 24)
  = S754_finite false 8388608 (-77)
  /\ gimp_operation_cage_coef_calc_is_on_straight
       (vec 0 0) (vec 7 21) (vec 8 24) = true
  /\ straight_deter (vec 0 0) (vec 69 207) (vec 70 210)
     = S754_finite true 8388608 (-77)
  /\ gimp_operation_cage_coef_calc_is_on_straight
       (vec 0 0) (vec 69 207) (vec 70 210) = true
  /\ straight_deter (vec 0 0) (vec 100000 1) (vec 99999 1)
     = S754_finite true 14411663 (-57)
  /\ gimp_operation_cage_coef_calc_is_on_straight
       (vec 0 0) (vec 100000 1) (vec 99999 1) = true
  /\ straight_deter (vec 0 0) (vec 10000 0) (vec 5000 1)
     = S754_finite true 13743895 (-36)
  /\ gimp_operation_cage_coef_calc_is_on_straight
       (vec 0 0) (vec 10000 0) (vec 5000 1) = false.
Proof. repeat split; vm_compute; reflexivity. Qed.

(** ** The loop over the edges *)

Section KernelFacts.

Variable log : gdouble -> gdouble.
Variable atan2 : gdouble -> gdouble -> gdouble.
Variable config : GimpCageConfig.

Local Abbreviation N := (cage_vertice_number config).
Local Abbreviation step := (edge_step log atan2 config).

Lemma edge_write_length x y cur (buf : list gfloat) j :
  length (edge_write log atan2 config x y cur buf j) = length buf.
Proof.
  unfold edge_write. case_match; rewrite ?length_insert; reflexivity.
Qed.

Lemma edge_write_eq x y cur (buf : list gfloat) j :
  (cur + (j + N) < length buf)%nat ->
  edge_write log atan2 config x y cur buf j !!! (cur + (j + N))%nat
  = edge_coef log atan2 config x y j.
Proof.
  intros Hlen. unfold edge_write, edge_coef.
  rewrite list_lookup_total_insert_eq by exact Hlen.
  destruct (isnan _).
  - rewrite list_lookup_total_insert_eq; [reflexivity|].
    rewrite length_insert. exact Hlen.
  - rewrite list_lookup_total_insert_eq by exact Hlen. reflexivity.
Qed.

Lemma edge_write_ne x y cur (buf : list gfloat) j k :
  k <> (cur + (j + N))%nat ->
  edge_write log atan2 config x y cur buf j !! k = buf !! k.
Proof.
  intros Hk. unfold edge_write.
  case_match; rewrite ?list_lookup_insert_ne by lia; reflexivity.
Qed.

Lemma lookup_total_eq (l1 l2 : list gfloat) k :
  l1 !! k = l2 !! k -> l1 !!! k = l2 !!! k.
Proof. intros H. rewrite !list_lookup_total_alt, H. reflexivity. Qed.

Lemma mod_slot j : (j < N)%nat -> ((j + 1) mod N < N)%nat.
Proof. intros Hj. apply Nat.mod_upper_bound. lia. Qed.

Lemma vertex_write_length x y cur (buf : list gfloat) j :
  length (vertex_write log atan2 config x y cur buf j) = length buf.
Proof.
  unfold vertex_write. case_match; rewrite ?length_insert; reflexivity.
Qed.

Lemma vertex_write_slot x y cur (buf : list gfloat) j i :
  (j < N)%nat -> (cur + N <= length buf)%nat -> (i < N)%nat ->
  vertex_write log atan2 config x y cur buf j !!! (cur + i)%nat
  = vertex_update log atan2 config x y i (buf !!! (cur + i)%nat) j.
Proof.
  intros Hj Hlen Hi. unfold vertex_write, vertex_update.
  pose proof (mod_slot j Hj) as Hm.
  revert Hm. generalize ((j + 1) mod N)%nat. intros m Hm.
  destruct (on_straight config x y j); simpl; [reflexivity|].
  rewrite !list_lookup_total_insert, !length_insert.
  destruct (decide (i = j)) as [Hij|Hij], (decide (i = m)) as [Him|Him];
    subst; repeat case_decide; try lia; reflexivity.
Qed.

Lemma vertex_write_ne x y cur (buf : list gfloat) j k :
  (j < N)%nat -> (k < cur \/ cur + N <= k)%nat ->
  vertex_write log atan2 config x y cur buf j !! k = buf !! k.
Proof.
  intros Hj Hk. unfold vertex_write.
  pose proof (mod_slot j Hj) as Hm.
  case_match; rewrite ?list_lookup_insert_ne by lia; reflexivity.
Qed.

Lemma edge_step_length x y cur buf j :
  length (step x y cur buf j) = length buf.
Proof.
  unfold edge_step. rewrite vertex_write_length. apply edge_write_length.
Qed.

Lemma edge_step_frame x y cur (buf : list gfloat) j k :
  (j < N)%nat -> (k < cur \/ cur + 2 * N <= k)%nat ->
  step x y cur buf j !! k = buf !! k.
Proof.
  intros Hj Hk. unfold edge_step.
  rewrite vertex_write_ne by lia. apply edge_write_ne. lia.
Qed.

Lemma edge_step_vertex_slot x y cur (buf : list gfloat) j i :
  (j < N)%nat -> (cur + 2 * N <= length buf)%nat -> (i < N)%nat ->
  step x y cur buf j !!! (cur + i)%nat
  = vertex_update log atan2 config x y i (buf !!! (cur + i)%nat) j.
Proof.
  intros Hj Hlen Hi. unfold edge_step.
  rewrite vertex_write_slot by (rewrite ?edge_write_length; lia).
  f_equal. apply lookup_total_eq, edge_write_ne. lia.
Qed.

Lemma edge_step_edge_slot x y cur (buf : list gfloat) j j' :
  (j < N)%nat -> (cur + 2 * N <= length buf)%nat -> (j' < N)%nat ->
  step x y cur buf j !!! (cur + (j' + N))%nat
  = if decide (j' = j) then edge_coef log atan2 config x y j
    else buf !!! (cur + (j' + N))%nat.
Proof.
  intros Hj Hlen Hj'. unfold edge_step.
  rewrite (lookup_total_eq _ (edge_write log atan2 config x y cur buf j))
    by (apply vertex_write_ne; [exact Hj|lia]).
  case_decide as Hd.
  - subst j'. apply edge_write_eq. lia.
  - apply lookup_total_eq, edge_write_ne. lia.
Qed.

(** C4.  When the pixel is collinear with edge [j], that is, when the
    absolute value of [deter] is below 1e-9, the turn for edge [j] leaves
    every vertex coefficient as it was and still writes the edge slot
    [N + j], with 0 in the place of a NaN. *)
Theorem collinear_edge_skips_vertices x y cur (buf : list gfloat) j :
  (j < N)%nat -> (cur + 2 * N <= length buf)%nat ->
  abs_below_1e_9 (straight_deter (vertex config j)
                    (vertex config ((j + 1) mod N)%nat) (vec x y)) = true ->
  (forall i, (i < N)%nat ->
     edge_step log atan2 config x y cur buf j !! (cur + i)%nat
     = buf !! (cur + i)%nat)
  /\ edge_step log atan2 config x y cur buf j !! (cur + (j + N))%nat
     = Some (if isnan (edge_coef_value log atan2 config x y j)
             then d0 else edge_coef_value log atan2 config x y j).
Proof.
  intros Hj Hlen Hd.
  assert (Hs : on_straight config x y j = true).
  { unfold on_straight. rewrite is_on_straight_exact. exact Hd. }
  unfold edge_step, vertex_write. rewrite Hs. simpl negb. cbv iota.
  split.
  - intros i Hi. apply edge_write_ne. lia.
  - rewrite list_lookup_lookup_total_lt by (rewrite edge_write_length; lia).
    rewrite edge_write_eq by lia. reflexivity.
Qed.

(** Folding the turns over a list of edges. *)
Lemma edges_length x y cur js : forall buf,
  length (fold_left (step x y cur) js buf) = length buf.
Proof.
  induction js as [|j js IH]; intros buf; simpl; [reflexivity|].
  rewrite IH. apply edge_step_length.
Qed.

Lemma edges_frame x y cur js k : forall (buf : list gfloat),
  Forall (fun j => (j < N)%nat) js -> (k < cur \/ cur + 2 * N <= k)%nat ->
  fold_left (step x y cur) js buf !! k = buf !! k.
Proof.
  induction js as [|j js IH]; intros buf Hjs Hk; simpl; [reflexivity|].
  inversion Hjs; subst. rewrite IH by assumption.
  apply edge_step_frame; assumption.
Qed.

Lemma edges_vertex_slot x y cur js i : forall (buf : list gfloat),
  Forall (fun j => (j < N)%nat) js ->
  (cur + 2 * N <= length buf)%nat -> (i < N)%nat ->
  fold_left (step x y cur) js buf !!! (cur + i)%nat
  = fold_left (vertex_update log atan2 config x y i) js (buf !!! (cur + i)%nat).
Proof.
  induction js as [|j js IH]; intros buf Hjs Hlen Hi; simpl; [reflexivity|].
  inversion Hjs; subst.
  rewrite IH by (rewrite ?edge_step_length; assumption).
  rewrite edge_step_vertex_slot by assumption. reflexivity.
Qed.

Lemma edges_edge_slot x y cur js j' : forall (buf : list gfloat),
  Forall (fun j => (j < N)%nat) js ->
  (cur + 2 * N <= length buf)%nat -> (j' < N)%nat ->
  fold_left (step x y cur) js buf !!! (cur + (j' + N))%nat
  = if decide (j' ∈ js) then edge_coef log atan2 config x y j'
    else buf !!! (cur + (j' + N))%nat.
Proof.
  induction js as [|j js IH]; intros buf Hjs Hlen Hj'; simpl.
  - destruct (decide (j' ∈ [])) as [Hd|_]; [|reflexivity].
    apply elem_of_nil in Hd. destruct Hd.
  - inversion Hjs; subst.
    rewrite IH by (rewrite ?edge_step_length; assumption).
    rewrite edge_step_edge_slot by assumption.
    destruct (decide (j' = j)) as [->|He].
    + rewrite (decide_True (P := j ∈ j :: js)) by apply list_elem_of_here.
      destruct (decide (j ∈ js)); reflexivity.
    + destruct (decide (j' ∈ js)) as [Hin|Hin].
      * rewrite decide_True by (apply list_elem_of_further; exact Hin).
        reflexivity.
      * rewrite decide_False; [reflexivity|].
        intros [?|?]%elem_of_cons; contradiction.
Qed.

Lemma seq_below n : Forall (fun j => (j < n)%nat) (seq 0 n).
Proof. apply Forall_forall. intros j Hj. apply elem_of_seq in Hj. lia. Qed.


(** ** The loop over the pixels *)

Local Abbreviation pstep := (pixel_step log atan2 config).

Lemma pixel_step_length x y cur buf :
  length (pstep x y cur buf) = length buf.
Proof.
  unfold pixel_step. destruct (point_inside config x y); [|reflexivity].
  apply edges_length.
Qed.

Lemma pixel_step_frame x y cur (buf : list gfloat) k :
  (k < cur \/ cur + 2 * N <= k)%nat ->
  pstep x y cur buf !! k = buf !! k.
Proof.
  intros Hk. unfold pixel_step.
  destruct (point_inside config x y); [|reflexivity].
  apply edges_frame; [apply seq_below|exact Hk].
Qed.

(** The slots of a pixel inside the cage after the loop over the edges. *)
Lemma pixel_step_vertex_slot x y cur (buf : list gfloat) i :
  point_inside config x y = true ->
  (cur + 2 * N <= length buf)%nat -> (i < N)%nat ->
  pstep x y cur buf !! (cur + i)%nat
  = Some (vertex_coef log atan2 config x y i (buf !!! (cur + i)%nat)).
Proof.
  intros Hin Hlen Hi. unfold pixel_step, vertex_coef. rewrite Hin.
  rewrite list_lookup_lookup_total_lt by (rewrite edges_length; lia).
  f_equal. apply edges_vertex_slot; [apply seq_below|exact Hlen|exact Hi].
Qed.

Lemma pixel_step_edge_slot x y cur (buf : list gfloat) j :
  point_inside config x y = true ->
  (cur + 2 * N <= length buf)%nat -> (j < N)%nat ->
  pstep x y cur buf !! (cur + (j + N))%nat
  = Some (edge_coef log atan2 config x y j).
Proof.
  intros Hin Hlen Hj. unfold pixel_step. rewrite Hin.
  rewrite list_lookup_lookup_total_lt by (rewrite edges_length; lia).
  f_equal. rewrite edges_edge_slot by (try apply seq_below; assumption).
  rewrite decide_True; [reflexivity|]. apply elem_of_seq. lia.
Qed.

(** The loop over the edges reads a pixel's own slots only. *)
Lemma pixel_step_local x y cur (buf1 buf2 : list gfloat) i :
  (cur + 2 * N <= length buf1)%nat -> (cur + 2 * N <= length buf2)%nat ->
  (forall i, (i < 2 * N)%nat -> buf1 !! (cur + i)%nat = buf2 !! (cur + i)%nat) ->
  (i < 2 * N)%nat ->
  pstep x y cur buf1 !! (cur + i)%nat = pstep x y cur buf2 !! (cur + i)%nat.
Proof.
  intros Hl1 Hl2 Hsame Hi.
  destruct (point_inside config x y) eqn:Hin.
  - destruct (decide (i < N)%nat) as [Hlt|Hge].
    + rewrite !pixel_step_vertex_slot by assumption.
      do 2 f_equal. apply lookup_total_eq, Hsame. lia.
    + replace i with ((i - N) + N)%nat by lia.
      rewrite !pixel_step_edge_slot by (assumption || lia). reflexivity.
  - unfold pixel_step. rewrite Hin. apply Hsame, Hi.
Qed.

Local Abbreviation ploop := (pixel_loop log atan2 config).

Lemma pixel_loop_length roi n : forall xy cur buf,
  length (ploop roi n xy cur buf) = length buf.
Proof.
  induction n as [|n IH]; intros xy cur buf; simpl; [reflexivity|].
  rewrite IH. apply pixel_step_length.
Qed.

Lemma pixel_loop_frame roi n k : forall xy cur (buf : list gfloat),
  (k < cur \/ cur + n * (2 * N) <= k)%nat ->
  ploop roi n xy cur buf !! k = buf !! k.
Proof.
  induction n as [|n IH]; intros xy cur buf Hk; simpl; [reflexivity|].
  rewrite IH by lia. apply pixel_step_frame. lia.
Qed.

(** The slots of the pixel number [k] of a region hold, after the loop over
    the pixels, what the loop over the edges makes of them at the cursor's
    position [cur + k * 2N] and at the coordinates the loop has reached. *)
Lemma pixel_loop_pixel roi n : forall xy cur (buf : list gfloat) k i,
  (k < n)%nat -> (i < 2 * N)%nat -> (cur + n * (2 * N) <= length buf)%nat ->
  ploop roi n xy cur buf !! (cur + k * (2 * N) + i)%nat
  = pstep (fst (Nat.iter k (advance roi) xy)) (snd (Nat.iter k (advance roi) xy))
      (cur + k * (2 * N))%nat buf !! (cur + k * (2 * N) + i)%nat.
Proof.
  induction n as [|n IH]; intros xy cur buf k i Hk Hi Hlen; [lia|].
  simpl pixel_loop. destruct k as [|k].
  - rewrite pixel_loop_frame by lia. simpl.
    replace (cur + 0)%nat with cur by lia. reflexivity.
  - replace (cur + S k * (2 * N) + i)%nat
      with (cur + 2 * N + k * (2 * N) + i)%nat by lia.
    replace (cur + S k * (2 * N))%nat with (cur + 2 * N + k * (2 * N))%nat by lia.
    rewrite IH by (rewrite ?pixel_step_length; lia).
    rewrite Nat.iter_succ_r.
    apply pixel_step_local; rewrite ?pixel_step_length; try nia.
    intros i' Hi'. apply pixel_step_frame. lia.
Qed.


(** ** NaN in the vertex coefficients *)

Lemma edge_coef_not_nan x y j :
  isnan (edge_coef log atan2 config x y j) = false.
Proof.
  unfold edge_coef.
  destruct (isnan (edge_coef_value log atan2 config x y j)) eqn:H;
    [reflexivity|exact H].
Qed.

Lemma vertex_update_nan x y i j :
  vertex_update log atan2 config x y i S754_nan j = S754_nan.
Proof.
  unfold vertex_update.
  destruct (on_straight config x y j); [reflexivity|].
  destruct (decide (i = j)), (decide (i = (j + 1) mod N)%nat); nan_absorb.
Qed.

Lemma vertex_updates_nan x y i js :
  fold_left (vertex_update log atan2 config x y i) js S754_nan = S754_nan.
Proof.
  induction js as [|j js IH]; simpl; [reflexivity|].
  rewrite vertex_update_nan. exact IH.
Qed.

Lemma vertex_term_add_nan x y j :
  e_SRT config x y j = S754_nan ->
  vertex_term_add log atan2 config x y j = S754_nan.
Proof.
  intros H. unfold vertex_term_add, e_A10, e_A1, e_A0. rewrite H. nan_absorb.
Qed.

(** When the square root of line 235 is a NaN and the pixel is not taken to
    be on the straight line of edge [i], the vertex coefficient [i] ends as
    a NaN, whatever the slot held. *)
Lemma vertex_coef_nan x y i v :
  (i < N)%nat ->
  on_straight config x y i = false ->
  e_SRT config x y i = S754_nan ->
  vertex_coef log atan2 config x y i v = S754_nan.
Proof.
  intros Hi Hs Hsrt. unfold vertex_coef.
  assert (Hsplit : seq 0 N = seq 0 i ++ i :: seq (S i) (N - S i)).
  { replace N with (i + S (N - S i))%nat at 1 by lia.
    rewrite seq_app. reflexivity. }
  rewrite Hsplit, fold_left_app. simpl.
  replace (vertex_update log atan2 config x y i _ i) with S754_nan.
  - apply vertex_updates_nan.
  - unfold vertex_update. rewrite Hs, vertex_term_add_nan by exact Hsrt.
    destruct (decide (i = i)) as [_|Hne]; [|contradiction].
    destruct (decide (i = (i + 1) mod N)%nat); nan_absorb.
Qed.

End KernelFacts.

(** ** The walk over a region *)

Lemma coords_succ roi k : coords roi (S k) = advance roi (coords roi k).
Proof. reflexivity. Qed.

(** The loop walks the region in row-major order. *)
Lemma coords_row_major roi k :
  0 < width roi ->
  gint_range (rx roi) -> gint_range (rx roi + width roi) ->
  gint_range (ry roi) ->
  gint_range (ry roi + Z.of_nat k / width roi) ->
  coords roi k
  = (rx roi + Z.of_nat k mod width roi, ry roi + Z.of_nat k / width roi).
Proof.
  intros Hw Hx Hxw Hy. induction k as [|k IH]; intros Hyk.
  - unfold coords. simpl. rewrite Z.mod_0_l, Z.div_0_l by lia.
    rewrite !Z.add_0_r. reflexivity.
  - assert (Hdm := Z.div_mod (Z.of_nat k) (width roi) ltac:(lia)).
    assert (Hm := Z.mod_pos_bound (Z.of_nat k) (width roi) Hw).
    assert (Hk0 : 0 <= Z.of_nat k / width roi) by (apply Z.div_pos; lia).
    assert (Hmono : Z.of_nat k / width roi <= Z.of_nat (S k) / width roi)
      by (apply Z.div_le_mono; lia).
    unfold gint_range in *.
    rewrite coords_succ, IH by lia. unfold advance. cbn [fst snd].
    rewrite (gint_wrap_id (rx roi + width roi)) by exact Hxw.
    rewrite (gint_wrap_id (rx roi + Z.of_nat k mod width roi + 1))
      by (unfold gint_range; lia).
    replace (Z.of_nat (S k)) with (Z.of_nat k + 1) in * by lia.
    destruct (Z.leb_spec (rx roi + width roi)
                (rx roi + Z.of_nat k mod width roi + 1)) as [Hrow|Hcol].
    + assert (Hq : (Z.of_nat k + 1) = (Z.of_nat k / width roi + 1) * width roi + 0)
        by nia.
      assert (Hd : (Z.of_nat k + 1) / width roi = Z.of_nat k / width roi + 1).
      { symmetry. apply (Z.div_unique_pos _ _ _ 0); lia. }
      assert (Hr : (Z.of_nat k + 1) mod width roi = 0).
      { symmetry. apply (Z.mod_unique_pos _ _ (Z.of_nat k / width roi + 1)); lia. }
      rewrite Hd, Hr in *. rewrite gint_wrap_id by (unfold gint_range; lia).
      f_equal; lia.
    + assert (Hq : (Z.of_nat k + 1)
                   = Z.of_nat k / width roi * width roi
                     + (Z.of_nat k mod width roi + 1)) by nia.
      assert (Hd : (Z.of_nat k + 1) / width roi = Z.of_nat k / width roi).
      { symmetry. apply (Z.div_unique_pos _ _ _ (Z.of_nat k mod width roi + 1)); lia. }
      assert (Hr : (Z.of_nat k + 1) mod width roi = Z.of_nat k mod width roi + 1).
      { symmetry. apply (Z.mod_unique_pos _ _ (Z.of_nat k / width roi)); lia. }
      rewrite Hd, Hr. f_equal; lia.
Qed.

(** ** The operation *)

Section ProcessFacts.

Variable log : gdouble -> gdouble.
Variable atan2 : gdouble -> gdouble -> gdouble.

Lemma process_with_config config it :
  gimp_operation_cage_coef_calc_process log atan2 (Some config) it = Done (true, map (process_tile log atan2 config) it).
Proof. reflexivity. Qed.

Lemma process_returns config it idx t :
  it !! idx = Some t ->
  exists out,
    gimp_operation_cage_coef_calc_process log atan2 (Some config) it = Done (true, out)
    /\ out !! idx = Some (process_tile log atan2 config t).
Proof.
  intros Ht. eexists. split; [apply process_with_config|].
  change (map (process_tile log atan2 config) it)
    with (process_tile log atan2 config <$> it).
  rewrite list_lookup_fmap, Ht. reflexivity.
Qed.

Lemma slot_offset config k i :
  slot config k i = (slot config k 0 + i)%nat.
Proof. unfold slot. lia. Qed.

Lemma process_tile_pixel config t k i :
  (t_length t * (2 * cage_vertice_number config) <= length (t_data t))%nat ->
  (k < t_length t)%nat -> (i < 2 * cage_vertice_number config)%nat ->
  t_data (process_tile log atan2 config t) !! slot config k i
  = pixel_step log atan2 config (tile_x t k) (tile_y t k) (slot config k 0)
      (t_data t) !! slot config k i.
Proof.
  intros Hlen Hk Hi. unfold process_tile, slot, tile_x, tile_y, coords.
  cbn [t_data]. rewrite Nat.add_0_r.
  exact (pixel_loop_pixel log atan2 config (t_roi t) (t_length t)
           (rx (t_roi t), ry (t_roi t)) 0%nat (t_data t) k i Hk Hi Hlen).
Qed.

(** C3, at the failing input.  Without a configuration the operation does
    not return [FALSE]: line 194 reads [config->cage_vertice_number] before
    line 198 tests [config], so the run ends in the dereference of a null
    pointer. *)
Theorem process_without_config_faults it :
  gimp_operation_cage_coef_calc_process log atan2 None it = Fault.
Proof. reflexivity. Qed.

(** With a configuration the operation returns [TRUE], whatever the numbers
    come to: no floating-point value decides the returned flag. *)
Lemma process_with_config_succeeds config it :
  exists out, gimp_operation_cage_coef_calc_process log atan2 (Some config) it = Done (true, out)
              /\ length out = length it.
Proof.
  eexists. split; [apply process_with_config|]. apply length_map.
Qed.

(** C1, as amended.  For a pixel inside the cage the operation leaves in the
    edge slot [N + j] the value of line 245 with 0 in the place of a NaN: an
    edge slot never holds a NaN. *)
Theorem edge_coefficients_never_nan config it idx t k j :
  it !! idx = Some t ->
  (t_length t * (2 * cage_vertice_number config) <= length (t_data t))%nat ->
  (k < t_length t)%nat -> (j < cage_vertice_number config)%nat ->
  point_inside config (tile_x t k) (tile_y t k) = true ->
  exists out t',
    gimp_operation_cage_coef_calc_process log atan2 (Some config) it = Done (true, out)
    /\ out !! idx = Some t'
    /\ t_data t' !! slot config k (j + cage_vertice_number config)
       = Some (edge_coef log atan2 config (tile_x t k) (tile_y t k) j)
    /\ isnan (edge_coef log atan2 config (tile_x t k) (tile_y t k) j) = false.
Proof.
  intros Ht Hlen Hk Hj Hin.
  destruct (process_returns config it idx t Ht) as (out & Hout & Hidx).
  exists out, (process_tile log atan2 config t).
  split; [exact Hout|]. split; [exact Hidx|]. split.
  - rewrite process_tile_pixel by (assumption || lia).
    rewrite slot_offset.
    apply pixel_step_edge_slot; [exact Hin| |exact Hj].
    unfold slot. nia.
  - apply edge_coef_not_nan.
Qed.

(** C2, as amended.  The operation does not clear the vertex slots: for a
    pixel inside the cage the vertex coefficient [i] is what the turns of
    the edge loop make, in the order of the edges, of the value the buffer
    held in that slot, while the edge slot [N + i] is assigned and holds a
    value that owes nothing to the buffer. *)
Theorem vertex_coefficients_accumulate config it idx t k i :
  it !! idx = Some t ->
  (t_length t * (2 * cage_vertice_number config) <= length (t_data t))%nat ->
  (k < t_length t)%nat -> (i < cage_vertice_number config)%nat ->
  point_inside config (tile_x t k) (tile_y t k) = true ->
  exists out t',
    gimp_operation_cage_coef_calc_process log atan2 (Some config) it = Done (true, out)
    /\ out !! idx = Some t'
    /\ t_data t' !! slot config k i
       = Some (vertex_coef log atan2 config (tile_x t k) (tile_y t k) i
                 (t_data t !!! slot config k i))
    /\ t_data t' !! slot config k (i + cage_vertice_number config)
       = Some (edge_coef log atan2 config (tile_x t k) (tile_y t k) i).
Proof.
  intros Ht Hlen Hk Hi Hin.
  destruct (process_returns config it idx t Ht) as (out & Hout & Hidx).
  exists out, (process_tile log atan2 config t).
  split; [exact Hout|]. split; [exact Hidx|].
  assert (Hs : (slot config k 0 + 2 * cage_vertice_number config
                <= length (t_data t))%nat) by (unfold slot; nia).
  split.
  - rewrite process_tile_pixel by (assumption || lia).
    rewrite slot_offset. apply pixel_step_vertex_slot; assumption.
  - rewrite process_tile_pixel by (assumption || lia).
    rewrite slot_offset. apply pixel_step_edge_slot; assumption.
Qed.

(** C5.  The slots of every pixel of a region, inside the cage or not, end
    as the loop over the edges leaves them when it runs at the offset
    [k * 2N] of that pixel: the cursor has advanced by [2N] floats a pixel.
    For a pixel outside the cage they hold what the buffer held. *)
Theorem outside_pixels_untouched config it idx t k i :
  it !! idx = Some t ->
  (t_length t * (2 * cage_vertice_number config) <= length (t_data t))%nat ->
  (k < t_length t)%nat -> (i < 2 * cage_vertice_number config)%nat ->
  exists out t',
    gimp_operation_cage_coef_calc_process log atan2 (Some config) it = Done (true, out)
    /\ out !! idx = Some t'
    /\ t_data t' !! slot config k i
       = pixel_step log atan2 config (tile_x t k) (tile_y t k)
           (slot config k 0) (t_data t) !! slot config k i
    /\ (point_inside config (tile_x t k) (tile_y t k) = false ->
        t_data t' !! slot config k i = t_data t !! slot config k i).
Proof.
  intros Ht Hlen Hk Hi.
  destruct (process_returns config it idx t Ht) as (out & Hout & Hidx).
  exists out, (process_tile log atan2 config t).
  split; [exact Hout|]. split; [exact Hidx|].
  rewrite process_tile_pixel by assumption.
  split; [reflexivity|].
  intros Hin. unfold pixel_step. rewrite Hin. reflexivity.
Qed.

(** A region of one pixel. *)
Lemma one_pixel_vertex_slot config x y data i :
  point_inside config x y = true ->
  (2 * cage_vertice_number config <= length data)%nat ->
  (i < cage_vertice_number config)%nat ->
  t_data (process_tile log atan2 config (one_pixel x y data)) !! i
  = Some (vertex_coef log atan2 config x y i (data !!! i)).
Proof.
  intros Hin Hlen Hi. unfold process_tile, one_pixel. cbn.
  apply (pixel_step_vertex_slot log atan2 config x y 0%nat data i Hin);
    [exact Hlen|exact Hi].
Qed.

(** In the flat triangle the pixel (5000, 1) has S = 25000000, Q = 1e8 and
    R = -1e8 as [gfloat] values, and the [gfloat] product [R * R] exceeds
    [4.0 * S * Q]: line 235 takes the square root of a negative number. *)
Lemma flat_triangle_srt :
  e_SRT flat_triangle 5000 1 0 = S754_nan
  /\ on_straight flat_triangle 5000 1 0 = false.
Proof. split; vm_compute; reflexivity. Qed.

Lemma flat_triangle_vertex_nan :
  vertex_coef log atan2 flat_triangle 5000 1 0 d0 = S754_nan.
Proof.
  apply vertex_coef_nan.
  - simpl. lia.
  - apply flat_triangle_srt.
  - apply flat_triangle_srt.
Qed.

(** In the L-shaped cage the pixel (5, 2) is on the straight line of both
    edges of the vertex 4: no turn of the edge loop writes its slot. *)
Lemma l_shape_vertex_kept v :
  vertex_coef log atan2 l_shape 5 2 4 v = v.
Proof. vm_compute. reflexivity. Qed.

(** In the notched square the pixel (8, 24) is on the straight line of the
    edge 0, where the square root of line 235 is 0 and [A0] and [A1] are
    quotients by 0: the turn for that edge does not reach lines 255 and
    256 and leaves every vertex coefficient as it is. *)
Lemma notched_square_edge_skipped i v :
  vertex_update log atan2 notched_square 8 24 i v 0 = v
  /\ e_SRT notched_square 8 24 0 = S754_zero false.
Proof.
  split; [|vm_compute; reflexivity].
  unfold vertex_update.
  replace (on_straight notched_square 8 24 0) with true
    by (vm_compute; reflexivity).
  reflexivity.
Qed.

End ProcessFacts.

(** C1, the counterexample.  The pixel (5000, 1) lies inside the flat
    triangle, the buffer holds zeros, and whatever [log] and [atan2] return
    the operation leaves a NaN in the slot of the vertex coefficient 0. *)
Lemma process_leaves_nan_in_vertex_slot :
  point_inside flat_triangle 5000 1 = true
  /\ forall log atan2, exists t' v,
       gimp_operation_cage_coef_calc_process log atan2 (Some flat_triangle)
         [one_pixel 5000 1 (replicate 6 d0)] = Done (true, [t'])
       /\ t_data t' !! 0%nat = Some v
       /\ isnan v = true
       /\ isfinite v = false.
Proof.
  split; [reflexivity|]. intros log atan2.
  exists (process_tile log atan2 flat_triangle
            (one_pixel 5000 1 (replicate 6 d0))), S754_nan.
  split; [reflexivity|]. split; [|split; reflexivity].
  rewrite one_pixel_vertex_slot by (try reflexivity; simpl; lia).
  f_equal. apply flat_triangle_vertex_nan.
Qed.

(** C2, the counterexample.  The pixel (5, 2) lies inside the L-shaped
    cage.  Two runs over buffers that differ in the slot of the vertex
    coefficient 4 alone end with different values in that slot: each keeps
    what the buffer held, 1 in the one and 0 in the other. *)
Lemma vertex_coefficient_keeps_buffer_content :
  point_inside l_shape 5 2 = true
  /\ forall log atan2, exists t1 t0,
       gimp_operation_cage_coef_calc_process log atan2 (Some l_shape)
         [one_pixel 5 2 (<[4%nat := d1]> (replicate 14 d0))] = Done (true, [t1])
       /\ gimp_operation_cage_coef_calc_process log atan2 (Some l_shape)
            [one_pixel 5 2 (replicate 14 d0)] = Done (true, [t0])
       /\ t_data t1 !! 4%nat = Some d1
       /\ t_data t0 !! 4%nat = Some d0.
Proof.
  split; [reflexivity|]. intros log atan2.
  do 2 eexists. split; [reflexivity|]. split; [reflexivity|].
  rewrite !one_pixel_vertex_slot by (try reflexivity; simpl; lia).
  rewrite !l_shape_vertex_kept. split; reflexivity.
Qed.

(** ** The theorems at work *)

(** The edge slot 0 of the pixel (5000, 1) of the flat triangle. *)
Lemma edge_coefficients_never_nan_witness :
  point_inside flat_triangle 5000 1 = true
  /\ forall log atan2, exists out t',
       gimp_operation_cage_coef_calc_process log atan2 (Some flat_triangle)
         [one_pixel 5000 1 (replicate 6 d0)] = Done (true, out)
       /\ out !! 0%nat = Some t'
       /\ t_data t' !! 3%nat = Some (edge_coef log atan2 flat_triangle 5000 1 0)
       /\ isnan (edge_coef log atan2 flat_triangle 5000 1 0) = false.
Proof.
  split; [reflexivity|]. intros log atan2.
  apply (edge_coefficients_never_nan log atan2 flat_triangle
           [one_pixel 5000 1 (replicate 6 d0)] 0%nat
           (one_pixel 5000 1 (replicate 6 d0)) 0%nat 0%nat).
  - reflexivity.
  - simpl. lia.
  - simpl. lia.
  - simpl. lia.
  - reflexivity.
Defined.

(** The slots of the vertex 4 and of the edge 4 for the pixel (5, 2) of the
    L-shaped cage, over a buffer that holds 1 in the vertex slot. *)
Lemma vertex_coefficients_accumulate_witness :
  point_inside l_shape 5 2 = true
  /\ forall log atan2, exists out t',
       gimp_operation_cage_coef_calc_process log atan2 (Some l_shape)
         [one_pixel 5 2 (<[4%nat := d1]> (replicate 14 d0))] = Done (true, out)
       /\ out !! 0%nat = Some t'
       /\ t_data t' !! 4%nat
          = Some (vertex_coef log atan2 l_shape 5 2 4
                    ((<[4%nat := d1]> (replicate 14 d0)) !!! 4%nat))
       /\ t_data t' !! 11%nat = Some (edge_coef log atan2 l_shape 5 2 4).
Proof.
  split; [reflexivity|]. intros log atan2.
  apply (vertex_coefficients_accumulate log atan2 l_shape
           [one_pixel 5 2 (<[4%nat := d1]> (replicate 14 d0))] 0%nat
           (one_pixel 5 2 (<[4%nat := d1]> (replicate 14 d0))) 0%nat 4%nat).
  - reflexivity.
  - simpl. lia.
  - simpl. lia.
  - simpl. lia.
  - reflexivity.
Defined.

(** The pixel (8, 24) of the notched square and the edge 0, from (0, 0) to
    (7, 21): the pixel is on the straight line of the edge, and [deter]
    comes to 2^-54. *)
Lemma collinear_edge_skips_vertices_witness :
  abs_below_1e_9 (straight_deter (vertex notched_square 0)
                    (vertex notched_square 1) (vec 8 24)) = true
  /\ forall log atan2,
       (forall i, (i < 5)%nat ->
          edge_step log atan2 notched_square 8 24 0 (replicate 10 d0) 0 !! i
          = replicate 10 d0 !! i)
       /\ edge_step log atan2 notched_square 8 24 0 (replicate 10 d0) 0 !! 5%nat
          = Some (if isnan (edge_coef_value log atan2 notched_square 8 24 0)
                  then d0 else edge_coef_value log atan2 notched_square 8 24 0).
Proof.
  split; [vm_compute; reflexivity|]. intros log atan2.
  apply (collinear_edge_skips_vertices log atan2 notched_square 8 24 0%nat
           (replicate 10 d0) 0%nat).
  - simpl. lia.
  - simpl. lia.
  - vm_compute. reflexivity.
Defined.

(** The pixel (7, 7), outside the L-shaped cage. *)
Lemma outside_pixels_untouched_witness :
  point_inside l_shape 7 7 = false
  /\ forall log atan2, exists out t',
       gimp_operation_cage_coef_calc_process log atan2 (Some l_shape)
         [one_pixel 7 7 (replicate 14 d1)] = Done (true, out)
       /\ out !! 0%nat = Some t'
       /\ t_data t' !! 4%nat
          = pixel_step log atan2 l_shape 7 7 0 (replicate 14 d1) !! 4%nat
       /\ (point_inside l_shape 7 7 = false ->
           t_data t' !! 4%nat = replicate 14 d1 !! 4%nat).
Proof.
  split; [reflexivity|]. intros log atan2.
  apply (outside_pixels_untouched log atan2 l_shape
           [one_pixel 7 7 (replicate 14 d1)] 0%nat
           (one_pixel 7 7 (replicate 14 d1)) 0%nat 4%nat).
  - reflexivity.
  - simpl. lia.
  - simpl. lia.
  - simpl. lia.
Defined.

End CageCoefCalcFacts.

(** * More properties of the cage coefficient kernel *)

Module CageRegionFacts.

Import CageCoefCalc CageRegion CageCoefCalcFacts.

(** ** Writing into a part of an array *)

Section Parts.

Variable log : gdouble -> gdouble.
Variable atan2 : gdouble -> gdouble -> gdouble.
Variable config : GimpCageConfig.

Local Abbreviation N := (cage_vertice_number config).

Lemma edge_write_app_l x y cur (d1 d2 : list gfloat) j :
  (cur + (j + N) < length d1)%nat ->
  edge_write log atan2 config x y cur (d1 ++ d2) j
  = edge_write log atan2 config x y cur d1 j ++ d2.
Proof.
  intros Hlen. unfold edge_write.
  rewrite insert_app_l by lia.
  rewrite lookup_total_app_l by (rewrite length_insert; lia).
  destruct (isnan _); [|reflexivity].
  rewrite insert_app_l by (rewrite length_insert; lia). reflexivity.
Qed.

Lemma vertex_write_app_l x y cur (d1 d2 : list gfloat) j :
  (j < N)%nat -> (cur + N <= length d1)%nat ->
  vertex_write log atan2 config x y cur (d1 ++ d2) j
  = vertex_write log atan2 config x y cur d1 j ++ d2.
Proof.
  intros Hj Hlen. pose proof (mod_slot config j Hj) as Hm.
  unfold vertex_write. destruct (negb _); [|reflexivity].
  rewrite (lookup_total_app_l d1) by lia.
  rewrite (insert_app_l d1) by lia.
  rewrite lookup_total_app_l by (rewrite length_insert; lia).
  rewrite insert_app_l by (rewrite length_insert; lia). reflexivity.
Qed.

Lemma edge_step_app_l x y cur (d1 d2 : list gfloat) j :
  (j < N)%nat -> (cur + 2 * N <= length d1)%nat ->
  edge_step log atan2 config x y cur (d1 ++ d2) j
  = edge_step log atan2 config x y cur d1 j ++ d2.
Proof.
  intros Hj Hlen. unfold edge_step.
  rewrite edge_write_app_l by lia.
  apply vertex_write_app_l; [exact Hj|]. rewrite edge_write_length. lia.
Qed.

Lemma lookup_total_app_plus (d1 d2 : list gfloat) k :
  (d1 ++ d2) !!! (length d1 + k)%nat = d2 !!! k.
Proof.
  rewrite lookup_total_app_r by lia. f_equal. lia.
Qed.

Lemma edge_write_app_r x y cur (d1 d2 : list gfloat) j :
  edge_write log atan2 config x y (length d1 + cur) (d1 ++ d2) j
  = d1 ++ edge_write log atan2 config x y cur d2 j.
Proof.
  unfold edge_write. rewrite <- !Nat.add_assoc.
  rewrite insert_app_r, lookup_total_app_plus.
  destruct (isnan _); [|reflexivity].
  rewrite insert_app_r. reflexivity.
Qed.

Lemma vertex_write_app_r x y cur (d1 d2 : list gfloat) j :
  vertex_write log atan2 config x y (length d1 + cur) (d1 ++ d2) j
  = d1 ++ vertex_write log atan2 config x y cur d2 j.
Proof.
  unfold vertex_write. destruct (negb _); [|reflexivity].
  rewrite <- !Nat.add_assoc.
  rewrite lookup_total_app_plus, insert_app_r, lookup_total_app_plus,
    insert_app_r.
  reflexivity.
Qed.

Lemma edge_step_app_r x y cur (d1 d2 : list gfloat) j :
  edge_step log atan2 config x y (length d1 + cur) (d1 ++ d2) j
  = d1 ++ edge_step log atan2 config x y cur d2 j.
Proof.
  unfold edge_step. rewrite edge_write_app_r. apply vertex_write_app_r.
Qed.

Lemma edges_app_l x y cur js (d2 : list gfloat) : forall d1 : list gfloat,
  Forall (fun j => (j < N)%nat) js -> (cur + 2 * N <= length d1)%nat ->
  fold_left (edge_step log atan2 config x y cur) js (d1 ++ d2)
  = fold_left (edge_step log atan2 config x y cur) js d1 ++ d2.
Proof.
  induction js as [|j js IH]; intros d1 Hjs Hlen; simpl; [reflexivity|].
  inversion Hjs; subst.
  rewrite edge_step_app_l by assumption.
  apply IH; [assumption|]. rewrite edge_step_length. exact Hlen.
Qed.

Lemma edges_app_r x y cur js (d1 : list gfloat) : forall d2 : list gfloat,
  fold_left (edge_step log atan2 config x y (length d1 + cur)) js (d1 ++ d2)
  = d1 ++ fold_left (edge_step log atan2 config x y cur) js d2.
Proof.
  induction js as [|j js IH]; intros d2; simpl; [reflexivity|].
  rewrite edge_step_app_r. apply IH.
Qed.

Lemma pixel_step_app_l x y cur (d1 d2 : list gfloat) :
  (cur + 2 * N <= length d1)%nat ->
  pixel_step log atan2 config x y cur (d1 ++ d2)
  = pixel_step log atan2 config x y cur d1 ++ d2.
Proof.
  intros Hlen. unfold pixel_step.
  destruct (point_inside config x y); [|reflexivity].
  apply edges_app_l; [apply seq_below|exact Hlen].
Qed.

Lemma pixel_step_app_r x y cur (d1 d2 : list gfloat) :
  pixel_step log atan2 config x y (length d1 + cur) (d1 ++ d2)
  = d1 ++ pixel_step log atan2 config x y cur d2.
Proof.
  unfold pixel_step. destruct (point_inside config x y); [|reflexivity].
  apply edges_app_r.
Qed.

Lemma pixel_loop_app_l roi n (d2 : list gfloat) : forall xy cur (d1 : list gfloat),
  (cur + n * (2 * N) <= length d1)%nat ->
  pixel_loop log atan2 config roi n xy cur (d1 ++ d2)
  = pixel_loop log atan2 config roi n xy cur d1 ++ d2.
Proof.
  induction n as [|n IH]; intros xy cur d1 Hlen; simpl; [reflexivity|].
  rewrite pixel_step_app_l by lia.
  apply IH. rewrite pixel_step_length. lia.
Qed.

Lemma pixel_loop_app_r roi n (d1 : list gfloat) : forall xy cur (d2 : list gfloat),
  pixel_loop log atan2 config roi n xy (length d1 + cur) (d1 ++ d2)
  = d1 ++ pixel_loop log atan2 config roi n xy cur d2.
Proof.
  induction n as [|n IH]; intros xy cur d2; simpl; [reflexivity|].
  rewrite pixel_step_app_r, <- Nat.add_assoc. apply IH.
Qed.

(** The loop over [n1 + n2] pixels is the loop over [n1] pixels followed
    by the loop over [n2] pixels from where the first one has got. *)
Lemma pixel_loop_add roi n1 n2 : forall xy cur buf,
  pixel_loop log atan2 config roi (n1 + n2) xy cur buf
  = pixel_loop log atan2 config roi n2 (Nat.iter n1 (advance roi) xy)
      (cur + n1 * (2 * N))%nat
      (pixel_loop log atan2 config roi n1 xy cur buf).
Proof.
  induction n1 as [|n1 IH]; intros xy cur buf.
  - simpl. rewrite Nat.add_0_r. reflexivity.
  - cbn [Nat.add pixel_loop]. rewrite IH, Nat.iter_succ_r.
    f_equal. lia.
Qed.

(** The walk reads the origin's abscissa and the width of the rectangle,
    nothing else of it. *)
Lemma advance_ext roi roi' xy :
  rx roi = rx roi' -> width roi = width roi' ->
  advance roi xy = advance roi' xy.
Proof. intros Hx Hw. unfold advance. rewrite Hx, Hw. reflexivity. Qed.

Lemma pixel_loop_ext roi roi' n : forall xy cur buf,
  rx roi = rx roi' -> width roi = width roi' ->
  pixel_loop log atan2 config roi n xy cur buf
  = pixel_loop log atan2 config roi' n xy cur buf.
Proof.
  induction n as [|n IH]; intros xy cur buf Hx Hw; simpl; [reflexivity|].
  rewrite (advance_ext roi roi') by assumption. apply IH; assumption.
Qed.

End Parts.

(** ** Regions *)

(** After the [w * h] pixels of [h] whole rows the walk is at the start of
    the row that follows. *)
Lemma coords_rows roi h :
  0 < width roi -> 0 <= h ->
  gint_range (rx roi) -> gint_range (rx roi + width roi) ->
  gint_range (ry roi) -> gint_range (ry roi + h) ->
  coords roi (Z.to_nat (width roi * h)) = (rx roi, ry roi + h).
Proof.
  intros Hw Hh Hx Hxw Hy Hyh.
  assert (Hk : Z.of_nat (Z.to_nat (width roi * h)) = h * width roi) by nia.
  rewrite coords_row_major; rewrite ?Hk, ?Z.mod_mul, ?Z.div_mul by lia;
    try assumption.
  rewrite Z.add_0_r. reflexivity.
Qed.

Section Regions.

Variable log : gdouble -> gdouble.
Variable atan2 : gdouble -> gdouble -> gdouble.

(** X3.  The result does not depend on how the iterator cuts the buffer
    into regions of whole rows: the operation leaves in a region of
    [h1 + h2] rows what it leaves in the region of the first [h1] rows
    followed by what it leaves in the region of the [h2] rows below them. *)
Theorem process_row_bands config x y w h1 h2 (d1 d2 : list gfloat) :
  0 < w -> 0 <= h1 -> 0 <= h2 ->
  gint_range x -> gint_range (x + w) -> gint_range y -> gint_range (y + h1) ->
  length d1 = (Z.to_nat (w * h1) * (2 * cage_vertice_number config))%nat ->
  exists t t1 t2,
    gimp_operation_cage_coef_calc_process log atan2 (Some config)
      [region x y w (h1 + h2) (d1 ++ d2)] = Done (true, [t])
    /\ gimp_operation_cage_coef_calc_process log atan2 (Some config)
         [region x y w h1 d1; region x (y + h1) w h2 d2] = Done (true, [t1; t2])
    /\ t_data t = t_data t1 ++ t_data t2.
Proof.
  intros Hw Hh1 Hh2 Hx Hxw Hy Hyh Hlen.
  do 3 eexists. split; [reflexivity|]. split; [reflexivity|].
  unfold process_tile, region. cbn [t_data t_roi t_length rx ry].
  set (roi := {| rx := x; ry := y; width := w; height := h1 + h2 |}).
  set (roi1 := {| rx := x; ry := y; width := w; height := h1 |}).
  set (roi2 := {| rx := x; ry := y + h1; width := w; height := h2 |}).
  replace (Z.to_nat (w * (h1 + h2)))
    with (Z.to_nat (w * h1) + Z.to_nat (w * h2))%nat by nia.
  rewrite pixel_loop_add.
  change (Nat.iter (Z.to_nat (w * h1)) (advance roi) (x, y))
    with (coords roi (Z.to_nat (width roi * h1))).
  rewrite coords_rows by assumption. cbn [rx ry roi].
  rewrite pixel_loop_app_l by lia.
  rewrite <- Hlen.
  rewrite <- (pixel_loop_length log atan2 config roi (Z.to_nat (w * h1))
                (x, y) 0%nat d1) at 1.
  rewrite (Nat.add_comm 0), pixel_loop_app_r.
  f_equal; apply pixel_loop_ext; reflexivity.
Qed.

(** X1.  The operation keeps the shape of the buffer: it returns as many
    regions as the iterator yields, each with its rectangle, its pixel
    count and an array of the same length, and it leaves every float past
    the slots of the last pixel as it was. *)
Theorem process_keeps_buffer_shape config it :
  exists out,
    gimp_operation_cage_coef_calc_process log atan2 (Some config) it
    = Done (true, out)
    /\ length out = length it
    /\ forall idx t, it !! idx = Some t ->
         exists t', out !! idx = Some t'
           /\ t_roi t' = t_roi t
           /\ t_length t' = t_length t
           /\ length (t_data t') = length (t_data t)
           /\ forall k,
                (t_length t * (2 * cage_vertice_number config) <= k)%nat ->
                t_data t' !! k = t_data t !! k.
Proof.
  exists (map (process_tile log atan2 config) it).
  split; [reflexivity|]. split; [apply length_map|].
  intros idx t Ht. exists (process_tile log atan2 config t). split.
  - change (map (process_tile log atan2 config) it)
      with (process_tile log atan2 config <$> it).
    rewrite list_lookup_fmap, Ht. reflexivity.
  - split; [reflexivity|]. split; [reflexivity|].
    unfold process_tile. cbn [t_data]. split.
    + apply pixel_loop_length.
    + intros k Hk. apply pixel_loop_frame. lia.
Qed.

Lemma pixel_loop_outside config roi n : forall xy cur buf,
  (forall k, (k < n)%nat ->
     point_inside config (fst (Nat.iter k (advance roi) xy))
       (snd (Nat.iter k (advance roi) xy)) = false) ->
  pixel_loop log atan2 config roi n xy cur buf = buf.
Proof.
  induction n as [|n IH]; intros xy cur buf Hout; simpl; [reflexivity|].
  unfold pixel_step.
  pose proof (Hout 0%nat ltac:(lia)) as H0.
  change (point_inside config (fst xy) (snd xy) = false) in H0.
  rewrite H0.
  apply IH. intros k Hk. rewrite <- Nat.iter_succ_r. apply Hout. lia.
Qed.

(** X2.  When no pixel of any region lies inside the cage, the operation
    returns [TRUE] and the regions as the iterator yielded them, float for
    float. *)
Theorem regions_outside_cage_unchanged config it :
  (forall t k, t ∈ it -> (k < t_length t)%nat ->
     point_inside config (tile_x t k) (tile_y t k) = false) ->
  gimp_operation_cage_coef_calc_process log atan2 (Some config) it
  = Done (true, it).
Proof.
  intros Hout. unfold gimp_operation_cage_coef_calc_process. cbn.
  do 2 f_equal. induction it as [|t it IH]; [reflexivity|].
  cbn [map]. f_equal.
  - destruct t as [roi n data]. unfold process_tile. cbn [t_roi t_length t_data].
    f_equal. apply pixel_loop_outside. intros k Hk.
    apply (Hout {| t_roi := roi; t_length := n; t_data := data |} k);
      [apply list_elem_of_here|exact Hk].
  - apply IH. intros t' k Ht'. apply Hout, list_elem_of_further, Ht'.
Qed.

(** The square root of a negative number is a NaN. *)
Lemma e_SRT_nan config x y j :
  SFltb (sqrt_argument config x y j) d0 = true ->
  e_SRT config x y j = S754_nan.
Proof.
  unfold e_SRT. fold (sqrt_argument config x y j).
  destruct (sqrt_argument config x y j) as [s|s| |s m e];
    unfold SFltb, SFcompare, d0; try discriminate;
    destruct s; try discriminate; reflexivity.
Qed.

Lemma edge_coef_value_nan config x y j :
  e_SRT config x y j = S754_nan ->
  edge_coef_value log atan2 config x y j = S754_nan.
Proof.
  intros H. unfold edge_coef_value, e_A10, e_A1, e_A0. rewrite H. nan_absorb.
Qed.

(** X4.  When the argument of the square root of line 235 is negative for
    the edge [j] of a pixel inside the cage, the edge slot [N + j] ends as
    0, and the vertex slot [j] ends as a NaN unless the pixel is taken to
    be on the straight line of the edge. *)
Theorem negative_square_root_argument config it idx t k j :
  it !! idx = Some t ->
  (t_length t * (2 * cage_vertice_number config) <= length (t_data t))%nat ->
  (k < t_length t)%nat -> (j < cage_vertice_number config)%nat ->
  point_inside config (tile_x t k) (tile_y t k) = true ->
  SFltb (sqrt_argument config (tile_x t k) (tile_y t k) j) d0 = true ->
  exists out t',
    gimp_operation_cage_coef_calc_process log atan2 (Some config) it
    = Done (true, out)
    /\ out !! idx = Some t'
    /\ t_data t' !! slot config k (j + cage_vertice_number config) = Some d0
    /\ (on_straight config (tile_x t k) (tile_y t k) j = false ->
        t_data t' !! slot config k j = Some S754_nan).
Proof.
  intros Ht Hlen Hk Hj Hin Hneg.
  destruct (process_returns log atan2 config it idx t Ht) as (out & Hout & Hidx).
  exists out, (process_tile log atan2 config t).
  split; [exact Hout|]. split; [exact Hidx|].
  assert (Hs : (slot config k 0 + 2 * cage_vertice_number config
                <= length (t_data t))%nat) by (unfold slot; nia).
  pose proof (e_SRT_nan config _ _ _ Hneg) as Hsrt.
  split.
  - rewrite process_tile_pixel by (assumption || lia).
    rewrite slot_offset, pixel_step_edge_slot by assumption.
    unfold edge_coef. rewrite edge_coef_value_nan by exact Hsrt. reflexivity.
  - intros Hs'. rewrite process_tile_pixel by (assumption || lia).
    rewrite slot_offset, pixel_step_vertex_slot by assumption.
    f_equal. apply vertex_coef_nan; assumption.
Qed.

(** X5.  A NaN that the buffer holds in a vertex slot is still there when
    the operation returns, for a pixel inside the cage as for one outside
    it. *)
Theorem nan_vertex_slot_survives config it idx t k i :
  it !! idx = Some t ->
  (t_length t * (2 * cage_vertice_number config) <= length (t_data t))%nat ->
  (k < t_length t)%nat -> (i < cage_vertice_number config)%nat ->
  t_data t !! slot config k i = Some S754_nan ->
  exists out t',
    gimp_operation_cage_coef_calc_process log atan2 (Some config) it
    = Done (true, out)
    /\ out !! idx = Some t'
    /\ t_data t' !! slot config k i = Some S754_nan.
Proof.
  intros Ht Hlen Hk Hi Hnan.
  destruct (process_returns log atan2 config it idx t Ht) as (out & Hout & Hidx).
  exists out, (process_tile log atan2 config t).
  split; [exact Hout|]. split; [exact Hidx|].
  assert (Hs : (slot config k 0 + 2 * cage_vertice_number config
                <= length (t_data t))%nat) by (unfold slot; nia).
  rewrite process_tile_pixel by (assumption || lia).
  destruct (point_inside config (tile_x t k) (tile_y t k)) eqn:Hin.
  - rewrite slot_offset, pixel_step_vertex_slot by assumption.
    rewrite <- slot_offset.
    rewrite (list_lookup_total_correct _ _ _ Hnan).
    unfold vertex_coef. rewrite vertex_updates_nan. reflexivity.
  - unfold pixel_step. rewrite Hin. exact Hnan.
Qed.

End Regions.

(** ** An edge without length *)

Lemma dsub_diag x : zero_or_nan (dsub x x) = true.
Proof.
  destruct x as [s|s| |s m e]; try reflexivity; try (destruct s; reflexivity).
  unfold dsub, SFsub. cbv zeta.
  match goal with
  | |- context [binary_normalize _ _ ?z _ _] => replace z with 0
  end; [reflexivity|]. symmetry. apply Z.sub_diag.
Qed.

Lemma dmul_zero_or_nan x y :
  zero_or_nan x = true -> zero_or_nan (dmul x y) = true.
Proof. destruct x, y; try discriminate; reflexivity. Qed.

Lemma dmul_zero_or_nan_r x y :
  isfinite x = true -> zero_or_nan y = true -> zero_or_nan (dmul x y) = true.
Proof. destruct x, y; try discriminate; reflexivity. Qed.

Lemma dadd_zero_or_nan x y :
  zero_or_nan x = true -> zero_or_nan y = true ->
  zero_or_nan (dadd x y) = true.
Proof.
  destruct x as [[]| | |], y as [[]| | |]; try discriminate; reflexivity.
Qed.

Lemma to_gfloat_zero_or_nan x :
  zero_or_nan x = true -> zero_or_nan (to_gfloat x) = true.
Proof. destruct x; try discriminate; reflexivity. Qed.

Lemma fmul_zero_or_nan x y :
  zero_or_nan x = true -> zero_or_nan (fmul x y) = true.
Proof. destruct x, y; try discriminate; reflexivity. Qed.

Lemma fdiv_zero_or_nan x y :
  zero_or_nan x = true -> zero_or_nan y = true -> fdiv x y = S754_nan.
Proof. destruct x, y; try discriminate; reflexivity. Qed.

Section Degenerate.

Variable log : gdouble -> gdouble.
Variable atan2 : gdouble -> gdouble -> gdouble.

(** For an edge from a vertex to itself, [Q] and [R] are zeros or NaNs,
    and the quotient [(R * R) / Q] of line 245 is a NaN. *)
Lemma zero_length_edge_value config x y j :
  vertex config ((j + 1) mod cage_vertice_number config) = vertex config j ->
  edge_coef_value log atan2 config x y j = S754_nan.
Proof.
  intros Hv.
  assert (Ha : zero_or_nan (vx (e_a config j)) = true
               /\ zero_or_nan (vy (e_a config j)) = true).
  { unfold e_a, e_v2, e_v1. rewrite Hv. cbn [vx vy].
    split; apply dsub_diag. }
  destruct Ha as [Hax Hay].
  assert (HQ : zero_or_nan (e_Q config j) = true).
  { unfold e_Q. apply to_gfloat_zero_or_nan, dadd_zero_or_nan;
      apply dmul_zero_or_nan; assumption. }
  assert (HR : zero_or_nan (e_R config x y j) = true).
  { unfold e_R. apply to_gfloat_zero_or_nan, dmul_zero_or_nan_r; [reflexivity|].
    apply dadd_zero_or_nan; apply dmul_zero_or_nan; assumption. }
  unfold edge_coef_value.
  rewrite (fdiv_zero_or_nan _ _ (fmul_zero_or_nan _ (e_R config x y j) HR) HQ).
  nan_absorb.
Qed.

(** X24.  An edge without length gets the edge coefficient 0: when the
    vertex [j] and the vertex that follows it are the same point, the
    value of line 245 is a NaN whatever the pixel and whatever [log] and
    [atan2] return, and the operation leaves 0 in the edge slot [N + j] of
    every pixel inside the cage. *)
Theorem zero_length_edge_gets_zero config it idx t k j :
  it !! idx = Some t ->
  (t_length t * (2 * cage_vertice_number config) <= length (t_data t))%nat ->
  (k < t_length t)%nat -> (j < cage_vertice_number config)%nat ->
  point_inside config (tile_x t k) (tile_y t k) = true ->
  vertex config ((j + 1) mod cage_vertice_number config) = vertex config j ->
  exists out t',
    gimp_operation_cage_coef_calc_process log atan2 (Some config) it
    = Done (true, out)
    /\ out !! idx = Some t'
    /\ isnan (edge_coef_value log atan2 config (tile_x t k) (tile_y t k) j)
       = true
    /\ t_data t' !! slot config k (j + cage_vertice_number config) = Some d0.
Proof.
  intros Ht Hlen Hk Hj Hin Hv.
  destruct (process_returns log atan2 config it idx t Ht) as (out & Hout & Hidx).
  exists out, (process_tile log atan2 config t).
  split; [exact Hout|]. split; [exact Hidx|].
  assert (Hs : (slot config k 0 + 2 * cage_vertice_number config
                <= length (t_data t))%nat) by (unfold slot; nia).
  rewrite (zero_length_edge_value config _ _ j Hv).
  split; [reflexivity|].
  rewrite process_tile_pixel by (assumption || lia).
  rewrite slot_offset, pixel_step_edge_slot by assumption.
  unfold edge_coef. rewrite (zero_length_edge_value config _ _ j Hv).
  reflexivity.
Qed.

End Degenerate.

(** X6.  The loop visits the pixels of a region row by row: the pixel
    number [k] of a region of width [w] at [(x0, y0)] is the pixel
    [(x0 + k mod w, y0 + k / w)], as long as the coordinates stay within
    the range of [gint]. *)
Theorem pixels_walked_row_major t k :
  0 < width (t_roi t) ->
  gint_range (rx (t_roi t)) -> gint_range (rx (t_roi t) + width (t_roi t)) ->
  gint_range (ry (t_roi t)) ->
  gint_range (ry (t_roi t) + Z.of_nat k / width (t_roi t)) ->
  tile_x t k = rx (t_roi t) + Z.of_nat k mod width (t_roi t)
  /\ tile_y t k = ry (t_roi t) + Z.of_nat k / width (t_roi t).
Proof.
  intros Hw Hx Hxw Hy Hyk. unfold tile_x, tile_y.
  rewrite coords_row_major by assumption. split; reflexivity.
Qed.

(** ** The theorems at work *)

(** The pixel (7, 7), outside the L-shaped cage. *)
Lemma regions_outside_cage_unchanged_witness :
  (forall t k, t ∈ [one_pixel 7 7 (replicate 14 d1)] -> (k < t_length t)%nat ->
     point_inside l_shape (tile_x t k) (tile_y t k) = false)
  /\ forall log atan2,
       gimp_operation_cage_coef_calc_process log atan2 (Some l_shape)
         [one_pixel 7 7 (replicate 14 d1)]
       = Done (true, [one_pixel 7 7 (replicate 14 d1)]).
Proof.
  assert (H : forall t k, t ∈ [one_pixel 7 7 (replicate 14 d1)] ->
                (k < t_length t)%nat ->
                point_inside l_shape (tile_x t k) (tile_y t k) = false).
  { intros t k Ht Hk. apply list_elem_of_singleton in Ht. subst t.
    cbn [t_length one_pixel] in Hk.
    assert (k = 0)%nat as -> by lia. reflexivity. }
  split; [exact H|]. intros log atan2.
  exact (regions_outside_cage_unchanged log atan2 l_shape
           [one_pixel 7 7 (replicate 14 d1)] H).
Defined.

(** Two rows of two pixels of the L-shaped cage, in one region and in two. *)
Lemma process_row_bands_witness :
  0 < 2 /\ 0 <= 1 /\ gint_range 0 /\ gint_range (0 + 2)
  /\ gint_range (0 + 1)
  /\ length (replicate 28 d0)
     = (Z.to_nat (2 * 1) * (2 * cage_vertice_number l_shape))%nat
  /\ forall log atan2, exists t t1 t2,
       gimp_operation_cage_coef_calc_process log atan2 (Some l_shape)
         [region 0 0 2 (1 + 1) (replicate 28 d0 ++ replicate 28 d1)]
       = Done (true, [t])
       /\ gimp_operation_cage_coef_calc_process log atan2 (Some l_shape)
            [region 0 0 2 1 (replicate 28 d0);
             region 0 (0 + 1) 2 1 (replicate 28 d1)]
          = Done (true, [t1; t2])
       /\ t_data t = t_data t1 ++ t_data t2.
Proof.
  assert (H0 : gint_range 0) by (unfold gint_range, G_MININT, G_MAXINT; lia).
  assert (H1 : gint_range (0 + 1)) by (unfold gint_range, G_MININT, G_MAXINT; lia).
  assert (H2 : gint_range (0 + 2)) by (unfold gint_range, G_MININT, G_MAXINT; lia).
  assert (Hl : length (replicate 28 d0)
               = (Z.to_nat (2 * 1) * (2 * cage_vertice_number l_shape))%nat)
    by reflexivity.
  repeat (split; [first [lia|assumption]|]).
  intros log atan2.
  apply (process_row_bands log atan2 l_shape 0 0 2 1 1 (replicate 28 d0)
           (replicate 28 d1)); first [lia|assumption].
Defined.

(** The edge 0 of the flat triangle at the pixel (5000, 1), which is not on
    the straight line of the edge: the vertex slot 0 ends as a NaN. *)
Lemma negative_square_root_argument_witness :
  point_inside flat_triangle
    (tile_x (one_pixel 5000 1 (replicate 6 d0)) 0)
    (tile_y (one_pixel 5000 1 (replicate 6 d0)) 0) = true
  /\ SFltb (sqrt_argument flat_triangle
              (tile_x (one_pixel 5000 1 (replicate 6 d0)) 0)
              (tile_y (one_pixel 5000 1 (replicate 6 d0)) 0) 0) d0 = true
  /\ on_straight flat_triangle
       (tile_x (one_pixel 5000 1 (replicate 6 d0)) 0)
       (tile_y (one_pixel 5000 1 (replicate 6 d0)) 0) 0 = false
  /\ forall log atan2, exists out t',
       gimp_operation_cage_coef_calc_process log atan2 (Some flat_triangle)
         [one_pixel 5000 1 (replicate 6 d0)] = Done (true, out)
       /\ out !! 0%nat = Some t'
       /\ t_data t' !! slot flat_triangle 0 (0 + cage_vertice_number flat_triangle)
          = Some d0
       /\ t_data t' !! slot flat_triangle 0 0 = Some S754_nan.
Proof.
  assert (Hin : point_inside flat_triangle
                  (tile_x (one_pixel 5000 1 (replicate 6 d0)) 0)
                  (tile_y (one_pixel 5000 1 (replicate 6 d0)) 0) = true)
    by reflexivity.
  assert (Hneg : SFltb (sqrt_argument flat_triangle
                          (tile_x (one_pixel 5000 1 (replicate 6 d0)) 0)
                          (tile_y (one_pixel 5000 1 (replicate 6 d0)) 0) 0) d0
                 = true) by (vm_compute; reflexivity).
  assert (Hoff : on_straight flat_triangle
                   (tile_x (one_pixel 5000 1 (replicate 6 d0)) 0)
                   (tile_y (one_pixel 5000 1 (replicate 6 d0)) 0) 0 = false)
    by (vm_compute; reflexivity).
  assert (Ht : [one_pixel 5000 1 (replicate 6 d0)] !! 0%nat
               = Some (one_pixel 5000 1 (replicate 6 d0))) by reflexivity.
  assert (Hlen : (t_length (one_pixel 5000 1 (replicate 6 d0))
                  * (2 * cage_vertice_number flat_triangle)
                  <= length (t_data (one_pixel 5000 1 (replicate 6 d0))))%nat)
    by (simpl; lia).
  assert (Hk : (0 < t_length (one_pixel 5000 1 (replicate 6 d0)))%nat)
    by (simpl; lia).
  assert (Hj : (0 < cage_vertice_number flat_triangle)%nat) by (simpl; lia).
  split; [exact Hin|]. split; [exact Hneg|]. split; [exact Hoff|].
  intros log atan2.
  destruct (negative_square_root_argument log atan2 flat_triangle
              [one_pixel 5000 1 (replicate 6 d0)] 0%nat
              (one_pixel 5000 1 (replicate 6 d0)) 0%nat 0%nat
              Ht Hlen Hk Hj Hin Hneg) as (out & t' & H1 & H2 & H3 & H4).
  exists out, t'.
  split; [exact H1|]. split; [exact H2|]. split; [exact H3|].
  exact (H4 Hoff).
Defined.

(** The pixel (5, 2) of the L-shaped cage over a buffer with a NaN in the
    slot of the vertex 4. *)
Lemma nan_vertex_slot_survives_witness :
  t_data (one_pixel 5 2 (<[4%nat := S754_nan]> (replicate 14 d0)))
    !! slot l_shape 0 4 = Some S754_nan
  /\ forall log atan2, exists out t',
       gimp_operation_cage_coef_calc_process log atan2 (Some l_shape)
         [one_pixel 5 2 (<[4%nat := S754_nan]> (replicate 14 d0))]
       = Done (true, out)
       /\ out !! 0%nat = Some t'
       /\ t_data t' !! slot l_shape 0 4 = Some S754_nan.
Proof.
  assert (H : t_data (one_pixel 5 2 (<[4%nat := S754_nan]> (replicate 14 d0)))
                !! slot l_shape 0 4 = Some S754_nan) by reflexivity.
  split; [exact H|]. intros log atan2.
  apply (nan_vertex_slot_survives log atan2 l_shape
           [one_pixel 5 2 (<[4%nat := S754_nan]> (replicate 14 d0))] 0%nat
           (one_pixel 5 2 (<[4%nat := S754_nan]> (replicate 14 d0)))
           0%nat 4%nat).
  - reflexivity.
  - simpl. lia.
  - simpl. lia.
  - simpl. lia.
  - exact H.
Defined.

(** The edge 1 of the pinched triangle at the pixel (2, 2). *)
Lemma zero_length_edge_gets_zero_witness :
  point_inside pinched_triangle
    (tile_x (one_pixel 2 2 (replicate 8 d0)) 0)
    (tile_y (one_pixel 2 2 (replicate 8 d0)) 0) = true
  /\ vertex pinched_triangle ((1 + 1) mod cage_vertice_number pinched_triangle)
     = vertex pinched_triangle 1
  /\ forall log atan2, exists out t',
       gimp_operation_cage_coef_calc_process log atan2 (Some pinched_triangle)
         [one_pixel 2 2 (replicate 8 d0)] = Done (true, out)
       /\ out !! 0%nat = Some t'
       /\ isnan (edge_coef_value log atan2 pinched_triangle
                   (tile_x (one_pixel 2 2 (replicate 8 d0)) 0)
                   (tile_y (one_pixel 2 2 (replicate 8 d0)) 0) 1) = true
       /\ t_data t'
            !! slot pinched_triangle 0 (1 + cage_vertice_number pinched_triangle)
          = Some d0.
Proof.
  assert (Hin : point_inside pinched_triangle
                  (tile_x (one_pixel 2 2 (replicate 8 d0)) 0)
                  (tile_y (one_pixel 2 2 (replicate 8 d0)) 0) = true)
    by reflexivity.
  assert (Hv : vertex pinched_triangle
                 ((1 + 1) mod cage_vertice_number pinched_triangle)
               = vertex pinched_triangle 1) by reflexivity.
  split; [exact Hin|]. split; [exact Hv|]. intros log atan2.
  apply (zero_length_edge_gets_zero log atan2 pinched_triangle
           [one_pixel 2 2 (replicate 8 d0)] 0%nat
           (one_pixel 2 2 (replicate 8 d0)) 0%nat 1%nat).
  - reflexivity.
  - simpl. lia.
  - simpl. lia.
  - simpl. lia.
  - exact Hin.
  - exact Hv.
Defined.

(** The pixel number 7 of a region of five by two pixels at (3, 4). *)
Lemma pixels_walked_row_major_witness :
  gint_range (ry (t_roi (region 3 4 5 2 []))
              + Z.of_nat 7 / width (t_roi (region 3 4 5 2 [])))
  /\ tile_x (region 3 4 5 2 []) 7
     = rx (t_roi (region 3 4 5 2 []))
       + Z.of_nat 7 mod width (t_roi (region 3 4 5 2 []))
  /\ tile_y (region 3 4 5 2 []) 7
     = ry (t_roi (region 3 4 5 2 []))
       + Z.of_nat 7 / width (t_roi (region 3 4 5 2 [])).
Proof.
  assert (H : forall z, -100 <= z <= 100 -> gint_range z)
    by (unfold gint_range, G_MININT, G_MAXINT; lia).
  assert (Hk : gint_range (ry (t_roi (region 3 4 5 2 []))
                           + Z.of_nat 7 / width (t_roi (region 3 4 5 2 []))))
    by (apply H; vm_compute; split; discriminate).
  split; [exact Hk|].
  apply (pixels_walked_row_major (region 3 4 5 2 []) 7).
  - simpl. lia.
  - apply H. simpl. lia.
  - apply H. simpl. lia.
  - apply H. simpl. lia.
  - exact Hk.
Defined.

End CageRegionFacts.

(** * Properties of the operation object *)

Module CageOperationFacts.

Import CageCoefCalc CageOperation.

Lemma references_app o e1 e2 :
  references o (e1 ++ e2) = references o e1 + references o e2.
Proof.
  induction e1 as [|[o'|o'|n] e1 IH]; cbn [app references]; lia.
Qed.

Lemma set_property_references self id value o :
  references o (snd (gimp_operation_cage_coef_calc_set_property self id value))
  = held (fst (gimp_operation_cage_coef_calc_set_property self id value)) o
    - held self o.
Proof.
  unfold held. destruct id as [|n]; cbn; [|lia].
  destruct self as [[o1|]], value as [o2|]; cbn;
    repeat case_decide; try congruence; try lia.
Qed.

Lemma set_properties_spec calls : forall self o,
  references o (snd (set_properties self calls))
  = held (fst (set_properties self calls)) o - held self o
  /\ config (fst (set_properties self calls))
     = last_config (config self) calls.
Proof.
  induction calls as [|[id value] calls IH]; intros self o.
  - cbn. split; [lia|reflexivity].
  - cbn [set_properties].
    pose proof (set_property_references self id value o) as H1.
    destruct (gimp_operation_cage_coef_calc_set_property self id value)
      as [self1 e1] eqn:Hset.
    destruct (IH self1 o) as [H2 H3].
    destruct (set_properties self1 calls) as [self2 e2].
    cbn [fst snd] in *. rewrite references_app. split; [lia|].
    rewrite H3. destruct id; cbn in Hset; injection Hset as <- _; reflexivity.
Qed.

(** X22.  Whatever properties a caller sets on a new operation, and in
    whatever order, the operation holds one reference to the configuration
    it has and none to any other object, and [finalize] drops that
    reference and leaves [config] null: every reference the operation takes
    it drops once.  The [config] property reads as the value of its last
    write, null when there was none, and [prepare] sets a format of [2 * N]
    floats for the configuration at that address, and ends in the
    dereference of a null pointer when the value is null. *)
Theorem config_references_balanced calls :
  let self := fst (set_properties gimp_operation_cage_coef_calc_init calls) in
  let effects := snd (set_properties gimp_operation_cage_coef_calc_init calls) in
  (forall o, references o effects = held self o)
  /\ (forall o,
        references o
          (effects ++ snd (gimp_operation_cage_coef_calc_finalize self)) = 0)
  /\ config (fst (gimp_operation_cage_coef_calc_finalize self)) = None
  /\ fst (gimp_operation_cage_coef_calc_get_property self
            GIMP_OPERATION_CAGE_COEF_CALC_PROP_CONFIG)
     = Some (last_config None calls)
  /\ forall objects,
       gimp_operation_cage_coef_calc_prepare objects self
       = match last_config None calls with
         | Some o =>
             match objects !! o with
             | Some c => Done (2 * cage_vertice_number c)%nat
             | None => Fault
             end
         | None => Fault
         end.
Proof.
  intros self effects.
  assert (Hspec : forall o,
            references o effects = held self o
            /\ config self = last_config None calls).
  { intros o. subst self effects.
    destruct (set_properties_spec calls gimp_operation_cage_coef_calc_init o)
      as [H1 H2].
    split; [|exact H2]. rewrite H1. unfold held at 2. cbn.
    rewrite decide_False by discriminate. lia. }
  split; [intros o; apply Hspec|]. split.
  { intros o. rewrite references_app, (proj1 (Hspec o)).
    unfold held, gimp_operation_cage_coef_calc_finalize.
    destruct (config self) as [o'|]; cbn.
    - destruct (decide (Some o' = Some o)) as [[= ->]|Hne].
      + rewrite decide_True by reflexivity. lia.
      + rewrite decide_False by congruence. lia.
    - rewrite decide_False by discriminate. lia. }
  split.
  { unfold gimp_operation_cage_coef_calc_finalize.
    destruct (config self) eqn:Hc; [reflexivity|exact Hc]. }
  split.
  { cbn. f_equal. apply (Hspec 0%nat). }
  intros objects. unfold gimp_operation_cage_coef_calc_prepare.
  rewrite (proj2 (Hspec 0%nat)).
  destruct (last_config None calls) as [o|]; cbn; [|reflexivity].
  destruct (objects !! o); reflexivity.
Qed.

(** A caller sets the configuration at the address 7, asks for a property
    the operation does not have, and sets the configuration at the address
    8: the reference to the first one is dropped when the second is set, and
    the reference to the second when the operation is finalized. *)
Example config_set_twice :
  let calls := [(GIMP_OPERATION_CAGE_COEF_CALC_PROP_CONFIG, Some 7%nat);
                (PROP_OTHER 9, Some 3%nat);
                (GIMP_OPERATION_CAGE_COEF_CALC_PROP_CONFIG, Some 8%nat)] in
  let r := set_properties gimp_operation_cage_coef_calc_init calls in
  snd r = [g_object_ref 7%nat; G_OBJECT_WARN_INVALID_PROPERTY_ID 9;
           g_object_unref 7%nat; g_object_ref 8%nat]
  /\ config (fst r) = Some 8%nat
  /\ gimp_operation_cage_coef_calc_finalize (fst r)
     = ({| config := None |}, [g_object_unref 8%nat])
  /\ gimp_operation_cage_coef_calc_prepare {[8%nat := l_shape]} (fst r)
     = Done 14%nat
  /\ gimp_operation_cage_coef_calc_prepare {[8%nat := l_shape]}
       gimp_operation_cage_coef_calc_init = Fault.
Proof. vm_compute. repeat split; reflexivity. Qed.

End CageOperationFacts.

(** * Properties of the item tree *)

Module ItemTreeFacts.

Import ItemTree.

(** ** Numbers and their decimal form *)

Lemma digit_char_spec d :
  0 <= d < 10 ->
  isdigit (digit_char d) = true /\ digit_value (digit_char d) = d.
Proof.
  intros Hd.
  assert (H : d = 0 \/ d = 1 \/ d = 2 \/ d = 3 \/ d = 4 \/ d = 5 \/ d = 6
              \/ d = 7 \/ d = 8 \/ d = 9) by lia.
  repeat (destruct H as [->|H]; [split; reflexivity|]).
  subst. split; reflexivity.
Qed.

Lemma parse_digits_app s1 s2 acc :
  digits_only s1 = true ->
  parse_digits (s1 +:+ s2) acc = parse_digits s2 (parse_digits s1 acc).
Proof.
  revert acc. induction s1 as [|a s1 IH]; intros acc Hd; simpl in *.
  - reflexivity.
  - apply andb_true_iff in Hd as [Ha Hs]. rewrite Ha. apply IH, Hs.
Qed.

Lemma digits_only_app s1 s2 :
  digits_only (s1 +:+ s2) = digits_only s1 && digits_only s2.
Proof.
  induction s1 as [|a s1 IH]; simpl; [reflexivity|].
  rewrite IH. apply andb_assoc.
Qed.

Lemma render_nat_S fuel n :
  render_nat (S fuel) n
  = if n <? 10 then String (digit_char n) EmptyString
    else render_nat fuel (n / 10) +:+ String (digit_char (n mod 10)) EmptyString.
Proof. reflexivity. Qed.

Lemma render_nat_spec fuel : forall n,
  0 <= n < 10 ^ Z.of_nat (S fuel) ->
  digits_only (render_nat (S fuel) n) = true
  /\ parse_digits (render_nat (S fuel) n) 0 = n
  /\ render_nat (S fuel) n <> EmptyString.
Proof.
  induction fuel as [|fuel IH]; intros n Hn;
    rewrite render_nat_S; destruct (Z.ltb_spec n 10) as [Hlt|Hge].
  - assert (Hn10 : 0 <= n < 10) by lia.
    destruct (digit_char_spec n Hn10) as [Hd Hv].
    cbn [digits_only parse_digits]. rewrite Hd, Hv.
    split; [reflexivity|]. split; [lia|discriminate].
  - change (10 ^ Z.of_nat 1) with 10 in Hn. lia.
  - assert (Hn10 : 0 <= n < 10) by lia.
    destruct (digit_char_spec n Hn10) as [Hd Hv].
    cbn [digits_only parse_digits]. rewrite Hd, Hv.
    split; [reflexivity|]. split; [lia|discriminate].
  - assert (Hq : 0 <= n / 10 < 10 ^ Z.of_nat (S fuel)).
    { rewrite (Nat2Z.inj_succ (S fuel)), Z.pow_succ_r in Hn by lia.
      split; [apply Z.div_pos; lia|].
      apply Z.div_lt_upper_bound; lia. }
    destruct (IH _ Hq) as (Hd & Hp & Hne).
    assert (Hm10 : 0 <= n mod 10 < 10) by (apply Z.mod_pos_bound; lia).
    destruct (digit_char_spec (n mod 10) Hm10) as [Hd' Hv'].
    split; [|split].
    + rewrite digits_only_app, Hd. cbn [digits_only]. rewrite Hd'. reflexivity.
    + rewrite parse_digits_app by exact Hd. rewrite Hp.
      cbn [parse_digits]. rewrite Hd', Hv'. pose proof (Z.div_mod n 10). lia.
    + destruct (render_nat (S fuel) (n / 10)); [contradiction|discriminate].
Qed.

Lemma log2_fuel n :
  0 <= n -> 0 <= n < 10 ^ Z.of_nat (S (Z.to_nat (Z.log2 n))).
Proof.
  intros Hn. split; [exact Hn|].
  rewrite Nat2Z.inj_succ, Z2Nat.id by apply Z.log2_nonneg.
  destruct (Z.eq_dec n 0) as [->|Hne]; [reflexivity|].
  apply Z.lt_le_trans with (2 ^ Z.succ (Z.log2 n)).
  - apply Z.log2_spec. lia.
  - apply Z.pow_le_mono_l. pose proof (Z.log2_nonneg n). lia.
Qed.

Lemma strtol_digit_led a s :
  isdigit a = true ->
  strtol (String a s)
  = Z.max G_MINLONG (Z.min G_MAXLONG (parse_digits (String a s) 0)).
Proof.
  destruct a as [[] [] [] [] [] [] [] []]; intros H; try discriminate H;
    reflexivity.
Qed.

Lemma render_pos_led fuel n :
  0 <= n < 10 ^ Z.of_nat (S fuel) ->
  exists a s, render_nat (S fuel) n = String a s /\ isdigit a = true.
Proof.
  intros Hn. destruct (render_nat_spec fuel n Hn) as (Hd & _ & Hne).
  destruct (render_nat (S fuel) n) as [|a s]; [contradiction|].
  exists a, s. split; [reflexivity|].
  cbn [digits_only] in Hd. apply andb_true_iff in Hd. apply Hd.
Qed.

(** Reading back what [printf_d] wrote. *)
Lemma atoi_printf_d n : gint_range n -> atoi (printf_d n) = n.
Proof.
  intros Hr. unfold atoi. rewrite <- (gint_wrap_id n Hr) at 2. f_equal.
  assert (Hlong : G_MINLONG <= n <= G_MAXLONG).
  { unfold gint_range, G_MININT, G_MAXINT in Hr.
    unfold G_MINLONG, G_MAXLONG. lia. }
  unfold printf_d. destruct (Z.ltb_spec n 0) as [Hneg|Hpos].
  - assert (Hn : 0 <= - n) by lia.
    destruct (render_nat_spec _ _ (log2_fuel (- n) Hn)) as (_ & Hp & _).
    unfold strtol. cbn [skip_spaces]. change (isspace "-") with false.
    cbv iota. rewrite Hp. lia.
  - destruct (render_pos_led _ _ (log2_fuel n Hpos)) as (a & s & Hs & Ha).
    destruct (render_nat_spec _ _ (log2_fuel n Hpos)) as (_ & Hp & _).
    rewrite Hs in *. rewrite strtol_digit_led by exact Ha. rewrite Hp. lia.
Qed.

Lemma printf_d_inj n m :
  gint_range n -> gint_range m -> printf_d n = printf_d m -> n = m.
Proof.
  intros Hn Hm H. rewrite <- (atoi_printf_d n Hn), <- (atoi_printf_d m Hm), H.
  reflexivity.
Qed.

Lemma digits_only_no_hash s :
  digits_only s = true -> has_char "#" s = false.
Proof.
  induction s as [|a s IH]; simpl; [reflexivity|].
  intros [Ha Hs]%andb_true_iff. rewrite (IH Hs), orb_false_r.
  destruct a as [[] [] [] [] [] [] [] []]; try discriminate Ha; reflexivity.
Qed.

Lemma printf_d_no_hash n : has_char "#" (printf_d n) = false.
Proof.
  unfold printf_d. destruct (Z.ltb_spec n 0) as [Hneg|Hpos].
  - assert (Hn : 0 <= - n) by lia.
    destruct (render_nat_spec _ _ (log2_fuel (- n) Hn)) as (Hd & _ & _).
    cbn [has_char]. rewrite (digits_only_no_hash _ Hd). reflexivity.
  - destruct (render_nat_spec _ _ (log2_fuel n Hpos)) as (Hd & _ & _).
    apply digits_only_no_hash, Hd.
Qed.

Lemma strrchr_absent s c : has_char c s = false -> strrchr s c = None.
Proof.
  induction s as [|a s IH]; simpl; [reflexivity|].
  intros [Ha Hs]%orb_false_iff. rewrite (IH Hs), Ha. reflexivity.
Qed.

Lemma strrchr_present s c :
  has_char c s = true -> exists pre ext1, strrchr s c = Some (pre, ext1)
                                          /\ s = pre +:+ String c ext1
                                          /\ has_char c ext1 = false.
Proof.
  induction s as [|a s IH]; simpl; [discriminate|].
  destruct (has_char c s) eqn:Hs.
  - intros _. destruct (IH eq_refl) as (pre & ext1 & -> & -> & Hn).
    exists (String a pre), ext1. repeat split. exact Hn.
  - rewrite orb_false_r. intros Ha. rewrite (strrchr_absent s c Hs), Ha.
    apply Ascii.eqb_eq in Ha. subst a.
    exists EmptyString, s. repeat split. exact Hs.
Qed.

Lemma strrchr_last stem c ext1 :
  has_char c ext1 = false ->
  strrchr (stem +:+ String c ext1) c = Some (stem, ext1).
Proof.
  intros Hn. induction stem as [|a stem IH]; simpl.
  - rewrite (strrchr_absent _ _ Hn), Ascii.eqb_refl. reflexivity.
  - rewrite IH. reflexivity.
Qed.

(** A name that ends in [#] and the decimal form of a [gint] gets the next
    number. *)
Lemma next_name_numbered stem n :
  gint_range n ->
  next_name (stem +:+ String "#" (printf_d n))
  = stem +:+ String "#" (printf_d (gint_wrap (n + 1))).
Proof.
  intros Hn. unfold next_name.
  rewrite strrchr_last by apply printf_d_no_hash.
  rewrite atoi_printf_d by exact Hn.
  rewrite String.eqb_refl. reflexivity.
Qed.

(** Any other name is kept whole and gets the number 1. *)
Lemma next_name_atomic s :
  (forall stem n, gint_range n -> s <> stem +:+ String "#" (printf_d n)) ->
  next_name s = s +:+ "#1".
Proof.
  intros Hs. unfold next_name.
  destruct (has_char "#" s) eqn:Hh.
  - destruct (strrchr_present s "#" Hh) as (pre & ext1 & -> & Heq & _).
    destruct (String.eqb_spec (printf_d (atoi ext1)) ext1) as [He|He];
      [|reflexivity].
    exfalso. apply (Hs pre (atoi ext1)); [apply gint_wrap_range|].
    rewrite He. exact Heq.
  - rewrite (strrchr_absent s "#" Hh). reflexivity.
Qed.

Lemma next_name_shape s :
  exists stem k, gint_range k /\ next_name s = stem +:+ String "#" (printf_d k).
Proof.
  unfold next_name. destruct (strrchr s "#") as [[stem ext1]|].
  - destruct (String.eqb _ _).
    + exists stem, (gint_wrap (atoi ext1 + 1)). split; [apply gint_wrap_range|reflexivity].
    + exists s, (gint_wrap (0 + 1)). split; [apply gint_wrap_range|reflexivity].
  - exists s, (gint_wrap (0 + 1)). split; [apply gint_wrap_range|reflexivity].
Qed.

(** ** The loop of the name collisions *)

Lemma name_at_succ s k : name_at s (S k) = next_name (name_at s k).
Proof. reflexivity. Qed.

Lemma name_at_S s k : name_at s (S k) = name_at (next_name s) k.
Proof. unfold name_at. apply Nat.iter_succ_r. Qed.

(** From the first turn on the names are a stem, [#] and a number that
    goes up by one a turn, in the arithmetic of [gint]. *)
Lemma name_at_numbered stem k i :
  gint_range k ->
  name_at (stem +:+ String "#" (printf_d k)) i
  = stem +:+ String "#" (printf_d (gint_wrap (k + Z.of_nat i))).
Proof.
  intros Hk. induction i as [|i IH].
  - unfold name_at. simpl. rewrite Z.add_0_r, gint_wrap_id by exact Hk.
    reflexivity.
  - rewrite name_at_succ, IH.
    rewrite next_name_numbered by apply gint_wrap_range.
    rewrite gint_wrap_add_l.
    replace (k + Z.of_nat i + 1) with (k + Z.of_nat (S i)) by lia.
    reflexivity.
Qed.

Lemma append_inj_l s t1 t2 : s +:+ t1 = s +:+ t2 -> t1 = t2.
Proof.
  induction s as [|a s IH]; simpl; [tauto|]. intros H. injection H. exact IH.
Qed.

Lemma name_at_numbered_apart stem k i j :
  gint_range k -> (i < j)%nat -> Z.of_nat j < 2 ^ 32 ->
  name_at (stem +:+ String "#" (printf_d k)) i
  <> name_at (stem +:+ String "#" (printf_d k)) j.
Proof.
  intros Hk Hij Hj. rewrite !name_at_numbered by exact Hk. intros H.
  apply append_inj_l in H. injection H as H.
  apply printf_d_inj in H; try apply gint_wrap_range.
  revert H. apply gint_wrap_apart; lia.
Qed.

(** Among more names than the index has keys, no two of them equal, one is
    not a key. *)
Lemma fresh_among (hash : gmap string item) (l : list string) :
  NoDup l -> (size hash < length l)%nat ->
  exists s, s ∈ l /\ hash !! s = None.
Proof.
  intros Hnd Hlen.
  destruct (decide (Forall (fun s => is_Some (hash !! s)) l)) as [Hall|Hsome].
  - exfalso.
    assert (Hsub : list_to_set l ⊆ dom hash).
    { intros s Hs. apply elem_of_list_to_set in Hs. apply elem_of_dom.
      rewrite Forall_forall in Hall. apply Hall, Hs. }
    apply subseteq_size in Hsub.
    rewrite size_list_to_set, size_dom in Hsub by exact Hnd. lia.
  - apply not_Forall_Exists in Hsome; [|intros s; apply _].
    apply Exists_exists in Hsome as (s & Hs & Hnone).
    exists s. split; [exact Hs|]. simpl in Hnone.
    destruct (hash !! s); [exfalso; apply Hnone; eauto|reflexivity].
Qed.

Lemma fresh_name_reached (hash : gmap string item) s :
  Z.of_nat (size hash) < 2 ^ 32 ->
  exists i, (1 <= i <= S (size hash))%nat /\ hash !! name_at s i = None.
Proof.
  intros Hsize.
  destruct (next_name_shape s) as (stem & k & Hk & Hs).
  set (f := fun i : nat => name_at (next_name s) i).
  destruct (fresh_among hash (f <$> seq 0 (S (size hash)))) as (x & Hx & Hnone).
  - apply NoDup_fmap_2_strong; [|apply NoDup_seq].
    intros i j Hi Hj Hf. apply elem_of_seq in Hi, Hj. subst f. simpl in Hf.
    rewrite Hs in Hf.
    destruct (Nat.lt_trichotomy i j) as [Hlt|[Heq|Hgt]]; [|exact Heq|].
    + exfalso. revert Hf. apply name_at_numbered_apart; [exact Hk|exact Hlt|lia].
    + exfalso. symmetry in Hf. revert Hf.
      apply name_at_numbered_apart; [exact Hk|exact Hgt|lia].
  - rewrite length_fmap, length_seq. lia.
  - apply list_elem_of_fmap in Hx as (i & -> & Hi). apply elem_of_seq in Hi.
    exists (S i). split; [lia|]. rewrite name_at_S. exact Hnone.
Qed.

(** The loop stops at the first name that is not a key. *)
Lemma uniquefy_loop_first (hash : gmap string item) fuel : forall s i,
  (i <= fuel)%nat ->
  hash !! name_at s i = None ->
  (forall j, (j < i)%nat -> is_Some (hash !! name_at s j)) ->
  uniquefy_loop fuel hash s = Some (name_at s i).
Proof.
  induction fuel as [|fuel IH]; intros s i Hi Hnone Hbefore.
  - assert (i = 0)%nat as -> by lia. simpl in *.
    unfold name_at in Hnone. simpl in Hnone. rewrite Hnone. reflexivity.
  - destruct i as [|i].
    + unfold name_at in *. simpl in *. rewrite Hnone. reflexivity.
    + cbn [uniquefy_loop].
      destruct (Hbefore 0%nat) as [x Hx]; [lia|].
      unfold name_at in Hx at 1. simpl in Hx. rewrite Hx.
      rewrite name_at_S. apply IH; [lia|rewrite <- name_at_S; exact Hnone|].
      intros j Hj. rewrite <- name_at_S. apply Hbefore. lia.
Qed.

Lemma first_fresh (hash : gmap string item) s n :
  hash !! name_at s n = None ->
  exists i, (i <= n)%nat /\ hash !! name_at s i = None
            /\ forall j, (j < i)%nat -> is_Some (hash !! name_at s j).
Proof.
  induction n as [n IH] using lt_wf_ind. intros Hn.
  destruct (decide (Forall (fun j => is_Some (hash !! name_at s j)) (seq 0 n)))
    as [Hall|Hsome].
  - exists n. split; [lia|]. split; [exact Hn|].
    intros j Hj. rewrite Forall_forall in Hall. apply Hall, elem_of_seq. lia.
  - apply not_Forall_Exists in Hsome; [|intros j; apply _].
    apply Exists_exists in Hsome as (j & Hj & Hnone). apply elem_of_seq in Hj.
    simpl in Hnone.
    destruct (IH j) as (i & Hi & Hfresh & Hbefore); [lia| |].
    + destruct (hash !! name_at s j); [exfalso; apply Hnone; eauto|reflexivity].
    + exists i. split; [lia|]. split; assumption.
Qed.

(** C10, as amended.  Over a name index of fewer than 2^32 keys the loop
    of the name collisions ends: within one turn more than the index has
    keys it reaches a name that is no key, the first such name among the
    names it goes through, and any fuel from there on gives that name.
    From the first turn on the names are a stem, [#] and the decimal form
    of a number that goes up by one a turn in the arithmetic of [gint],
    from [G_MAXINT] on to [G_MININT]; the index is the same at every
    turn. *)
Theorem uniquefy_loop_terminates (hash : gmap string item) s :
  Z.of_nat (size hash) < 2 ^ 32 ->
  exists i,
    (i <= S (size hash))%nat
    /\ hash !! name_at s i = None
    /\ (forall j, (j < i)%nat -> is_Some (hash !! name_at s j))
    /\ (forall fuel, (i <= fuel)%nat ->
          uniquefy_loop fuel hash s = Some (name_at s i))
    /\ exists stem k,
         gint_range k
         /\ forall j, name_at s (S j)
                      = stem +:+ String "#" (printf_d (gint_wrap (k + Z.of_nat j))).
Proof.
  intros Hsize.
  destruct (fresh_name_reached hash s Hsize) as (n & Hn & Hnone).
  destruct (first_fresh hash s n Hnone) as (i & Hi & Hfresh & Hbefore).
  exists i. split; [lia|]. split; [exact Hfresh|]. split; [exact Hbefore|].
  split.
  - intros fuel Hfuel. apply uniquefy_loop_first; assumption.
  - destruct (next_name_shape s) as (stem & k & Hk & Hs).
    exists stem, k. split; [exact Hk|].
    intros j. rewrite name_at_S, Hs. apply name_at_numbered, Hk.
Qed.


Lemma uniquefy_loop_returns (hash : gmap string item) fuel s :
  Z.of_nat (size hash) < 2 ^ 32 ->
  (S (size hash) <= fuel)%nat ->
  exists s', uniquefy_loop fuel hash s = Some s' /\ hash !! s' = None.
Proof.
  intros Hsize Hfuel.
  destruct (fresh_name_reached hash s Hsize) as (n & Hn & Hnone).
  destruct (first_fresh hash s n Hnone) as (i & Hi & Hfresh & Hbefore).
  exists (name_at s i). split; [|exact Hfresh].
  apply uniquefy_loop_first; [lia|exact Hfresh|exact Hbefore].
Qed.

(** With fuel for one turn more than the index has keys,
    [gimp_item_tree_uniquefy_name] returns, and the item is indexed under
    the name it has got. *)
Lemma uniquefy_name_returns fuel w i new_name :
  Z.of_nat (size (name_hash w)) < 2 ^ 32 ->
  (S (size (name_hash w)) <= fuel)%nat ->
  exists w',
    gimp_item_tree_uniquefy_name fuel w i new_name = Some w'
    /\ gimp_item_tree_get_item_by_name w' (gimp_object_get_name w' i) = Some i.
Proof.
  intros Hsize Hfuel. unfold gimp_item_tree_uniquefy_name.
  set (w0 := match new_name with
             | Some s =>
                 gimp_object_set_name
                   (with_name_hash
                      (delete (gimp_object_get_name w i) (name_hash w)) w) i s
             | None => w
             end).
  assert (Hle : (size (name_hash w0) <= size (name_hash w))%nat).
  { subst w0. destruct new_name as [s|]; [|lia]. cbn.
    rewrite map_size_delete. destruct (name_hash w !! _); simpl; lia. }
  destruct (uniquefy_loop_returns (name_hash w0) fuel (gimp_object_get_name w0 i))
    as (s' & Hs' & _); [lia|lia|].
  rewrite Hs'. eexists. split; [reflexivity|].
  unfold gimp_item_tree_get_item_by_name. cbn. apply lookup_insert_eq.
Qed.

(** ** Containers *)

Lemma index_from_bounds i l : forall k,
  i ∈ l -> k <= index_from k i l < k + Z.of_nat (length l).
Proof.
  induction l as [|x l IH]; intros k Hin.
  - apply elem_of_nil in Hin. destruct Hin.
  - cbn [index_from length]. destruct (decide (x = i)) as [->|Hne]; [lia|].
    apply elem_of_cons in Hin as [->|Hin]; [contradiction|].
    specialize (IH (k + 1) Hin). lia.
Qed.

Lemma remove_first_length i l :
  i ∈ l -> S (length (remove_first i l)) = length l.
Proof.
  induction l as [|x l IH]; intros Hin.
  - apply elem_of_nil in Hin. destruct Hin.
  - cbn [remove_first]. destruct (decide (x = i)) as [->|Hne]; [reflexivity|].
    apply elem_of_cons in Hin as [->|Hin]; [contradiction|].
    cbn [length]. rewrite (IH Hin). reflexivity.
Qed.

Lemma insert_at_lookup index i (l : list item) :
  0 <= index <= Z.of_nat (length l) ->
  insert_at index i l !! Z.to_nat index = Some i.
Proof.
  intros Hi. unfold insert_at.
  destruct (Z.ltb_spec index 0) as [Hneg|_]; [lia|].
  rewrite lookup_app_r by (rewrite length_take; lia).
  rewrite length_take.
  replace (Z.to_nat index - Z.to_nat index `min` length l)%nat with 0%nat by lia.
  reflexivity.
Qed.

Lemma container_items_set_other w c c' l :
  c <> c' ->
  container_items (set_container_items w c l) c' = container_items w c'.
Proof.
  intros Hne. destruct c as [|p], c' as [|p']; try contradiction; try reflexivity.
  cbn. rewrite lookup_alter_ne by congruence. reflexivity.
Qed.

Lemma container_items_set_same w c l :
  container_items w c <> [] ->
  container_items (set_container_items w c l) c = l.
Proof.
  destruct c as [|p]; [reflexivity|]. cbn. intros Hne.
  rewrite lookup_alter_eq. destruct (heap w !! p) as [o|]; [reflexivity|].
  contradiction.
Qed.

Lemma container_items_set_parent w i p c :
  container_items (gimp_viewable_set_parent w i p) c = container_items w c.
Proof.
  destruct c as [|q]; [reflexivity|]. cbn.
  rewrite lookup_alter. case_decide; [subst|reflexivity].
  destruct (heap w !! q); reflexivity.
Qed.

Lemma container_items_removed w i c :
  container_items (gimp_item_removed w i) c = container_items w c.
Proof.
  destruct c as [|q]; [reflexivity|]. cbn.
  rewrite lookup_alter. case_decide; [subst|reflexivity].
  destruct (heap w !! q); reflexivity.
Qed.

Lemma container_items_undo w s i c :
  container_items (gimp_image_undo_push_item_reorder w s i) c
  = container_items w c.
Proof. destruct c; reflexivity. Qed.

(** An attached item is in the container its parent pointer names. *)
Lemma attached_in_container w i :
  gimp_item_is_attached w i = true ->
  i ∈ container_items w (gimp_item_get_container w i).
Proof.
  unfold gimp_item_is_attached, gimp_item_get_container.
  intros [_ H]%andb_true_iff. cbn [attached_within] in H.
  destruct (gimp_item_get_parent w i) as [p|].
  - apply andb_true_iff in H as [H _]. apply bool_decide_eq_true in H. exact H.
  - apply bool_decide_eq_true in H. exact H.
Qed.

Lemma attached_is_item w i :
  gimp_item_is_attached w i = true -> GIMP_IS_ITEM w i = true.
Proof. unfold gimp_item_is_attached. intros [H _]%andb_true_iff. exact H. Qed.

(** ** Removal *)

(** The name index is none of what the removal writes. *)
Lemma remove_item_keeps_name_hash w i new_active :
  name_hash (fst (gimp_item_tree_remove_item w i new_active)) = name_hash w.
Proof.
  unfold gimp_item_tree_remove_item.
  repeat (case_match; try reflexivity).
  all: cbn; destruct (gimp_item_get_container w i); reflexivity.
Qed.

(** C8.  For an attached item of the tree's image the removal returns the
    suggested item when there is one; without one it returns the child of
    the vacated container at the lesser of the item's old index and the
    last index when that container still has children, the parent when it
    has none, and null at the top level. *)
Theorem remove_item_chooses_new_active w i new_active :
  gimp_item_is_attached w i = true ->
  gimp_item_get_image w i = Some (tree_image w) ->
  snd (gimp_item_tree_remove_item w i new_active)
  = match new_active with
    | Some a => Some a
    | None =>
        let vacated :=
          remove_first i (container_items w (gimp_item_get_container w i)) in
        if decide (vacated = []) then gimp_item_get_parent w i
        else vacated !! Nat.min (Z.to_nat (gimp_item_get_index w i))
                                (length vacated - 1)
    end.
Proof.
  intros Hatt Himg. unfold gimp_item_tree_remove_item.
  rewrite (attached_is_item w i Hatt), Hatt.
  rewrite (bool_decide_eq_true_2 _ Himg). cbn [negb snd].
  destruct new_active as [a|]; [reflexivity|]. cbv zeta.
  pose proof (attached_in_container w i Hatt) as Hin.
  set (c := gimp_item_get_container w i) in *.
  set (l := container_items w c) in *.
  assert (Hitems : container_items
            (gimp_item_removed
               match gimp_item_get_parent w i with
               | Some _ => gimp_viewable_set_parent (gimp_container_remove w c i) i None
               | None => gimp_container_remove w c i
               end i) c = remove_first i l).
  { rewrite container_items_removed.
    destruct (gimp_item_get_parent w i);
      rewrite ?container_items_set_parent;
      (apply container_items_set_same; fold l; intros Hnil; rewrite Hnil in Hin;
       apply elem_of_nil in Hin; destruct Hin). }
  unfold gimp_container_get_n_children, gimp_container_get_child_by_index.
  rewrite Hitems.
  assert (Hidx : 0 <= gimp_item_get_index w i < 0 + Z.of_nat (length l))
    by (apply index_from_bounds; exact Hin).
  destruct (decide (remove_first i l = [])) as [Hnil|Hne].
  - rewrite Hnil. cbn. destruct (gimp_item_get_parent w i); reflexivity.
  - assert (Hlen : (0 < length (remove_first i l))%nat).
    { destruct (remove_first i l); [contradiction|simpl; lia]. }
    destruct (Z.ltb_spec 0 (Z.of_nat (length (remove_first i l)))); [|lia].
    rewrite CLAMP_min by lia.
    destruct (Z.ltb_spec (Z.min (gimp_item_get_index w i)
                (Z.of_nat (length (remove_first i l)) - 1)) 0); [lia|].
    f_equal. lia.
Qed.

(** ** Reordering *)

Lemma container_items_set_exists w c l :
  match c with Toplevel => True | ChildrenOf p => is_Some (heap w !! p) end ->
  container_items (set_container_items w c l) c = l.
Proof.
  destruct c as [|p]; [reflexivity|]. cbn. intros [o Ho].
  rewrite lookup_alter_eq, Ho. reflexivity.
Qed.

Lemma undo_stack_set_container_items w c l :
  undo_stack (set_container_items w c l) = undo_stack w.
Proof. destruct c; reflexivity. Qed.

Lemma get_parent_set_container_items w c l i :
  gimp_item_get_parent (set_container_items w c l) i = gimp_item_get_parent w i.
Proof.
  destruct c as [|p]; [reflexivity|]. unfold gimp_item_get_parent. cbn.
  rewrite lookup_alter. case_decide; [subst|reflexivity].
  destruct (heap w !! i); reflexivity.
Qed.

Lemma get_parent_set_parent w i p :
  GIMP_IS_ITEM w i = true ->
  gimp_item_get_parent (gimp_viewable_set_parent w i p) i = p.
Proof.
  unfold GIMP_IS_ITEM, gimp_item_get_parent. cbn.
  intros [o Ho]%bool_decide_eq_true. rewrite lookup_alter_eq, Ho. reflexivity.
Qed.

Lemma is_item_set_container_items w c l i :
  GIMP_IS_ITEM (set_container_items w c l) i = GIMP_IS_ITEM w i.
Proof.
  destruct c as [|p]; [reflexivity|]. unfold GIMP_IS_ITEM. cbn.
  apply bool_decide_ext. rewrite lookup_alter.
  case_decide; [subst|reflexivity]. rewrite <- !not_eq_None_Some.
  destruct (heap w !! i); cbn; split; congruence.
Qed.

Lemma heap_set_container_items w c l q :
  is_Some (heap (set_container_items w c l) !! q) <-> is_Some (heap w !! q).
Proof.
  destruct c as [|p]; [reflexivity|]. cbn. rewrite lookup_alter.
  case_decide; [subst|reflexivity]. rewrite <- !not_eq_None_Some.
  destruct (heap w !! q); cbn; split; congruence.
Qed.

Lemma heap_set_parent w i p q :
  is_Some (heap (gimp_viewable_set_parent w i p) !! q) <-> is_Some (heap w !! q).
Proof.
  cbn. rewrite lookup_alter.
  case_decide; [subst|reflexivity]. rewrite <- !not_eq_None_Some.
  destruct (heap w !! q); cbn; split; congruence.
Qed.

Lemma children_destination w p :
  is_Some (gimp_viewable_get_children w p) ->
  gimp_viewable_get_children w p = Some (ChildrenOf p)
  /\ is_Some (heap w !! p).
Proof.
  unfold gimp_viewable_get_children. intros [c Hc].
  destruct (heap w !! p) as [o|]; [|discriminate Hc].
  split; [|eauto]. destruct (Some o ≫= children); [reflexivity|discriminate Hc].
Qed.

(** C9.  The requested index is clamped to [n - 1] within the item's own
    container and to [n] in another one, [n] being the number of children
    of the destination.  When neither the container nor the index changes
    the state is left as it is and no undo is pushed; otherwise one undo
    record is pushed exactly when [push_undo] is set, and the item ends at
    the clamped index of the destination, gone from its old container. *)
Theorem reorder_item_clamps_and_moves w i new_parent new_index push_undo
    undo_desc :
  gimp_item_is_attached w i = true ->
  gimp_item_get_image w i = Some (tree_image w) ->
  (forall p, new_parent = Some p ->
     gimp_item_is_attached w p = true
     /\ gimp_item_get_image w p = Some (tree_image w)
     /\ is_Some (gimp_viewable_get_children w p)) ->
  let c := gimp_item_get_container w i in
  let dst := reorder_destination new_parent in
  let n := gimp_container_get_n_children w dst in
  let index := CLAMP new_index 0 (if decide (dst = c) then n - 1 else n) in
  let r := gimp_item_tree_reorder_item w i new_parent new_index push_undo
             undo_desc in
  snd r = true
  /\ if decide (dst = c /\ index = gimp_item_get_index w i)
     then fst r = w
     else undo_stack (fst r)
          = (if push_undo then [UndoItemReorder undo_desc i] else [])
            ++ undo_stack w
          /\ container_items (fst r) dst !! Z.to_nat index = Some i
          /\ gimp_item_get_container (fst r) i = dst
          /\ (dst <> c ->
              container_items (fst r) c
              = remove_first i (container_items w c)).
Proof.
  intros Hatt Himg Hpar c dst n index r.
  pose proof (attached_in_container w i Hatt) as Hin. fold c in Hin.
  assert (Hidx : 0 <= gimp_item_get_index w i
                 < 0 + Z.of_nat (length (container_items w c)))
    by (apply index_from_bounds; exact Hin).
  assert (Hdst : match new_parent with
                 | Some p => default Toplevel (gimp_viewable_get_children w p)
                 | None => Toplevel
                 end = dst
                 /\ match dst with
                    | Toplevel => True
                    | ChildrenOf p => is_Some (heap w !! p)
                    end).
  { subst dst. destruct new_parent as [p|]; [|split; [reflexivity|exact I]].
    destruct (Hpar p eq_refl) as (_ & _ & Hc).
    destruct (children_destination w p Hc) as [-> Hp]. split; [reflexivity|exact Hp]. }
  destruct Hdst as [Hdst Hheap].
  assert (Hr : r = 
    if negb (bool_decide (dst = c)) || negb (index =? gimp_item_get_index w i)
    then
      let w1 := if push_undo
                then gimp_image_undo_push_item_reorder w undo_desc i else w in
      if negb (bool_decide (dst = c)) then
        (gimp_container_insert
           (gimp_viewable_set_parent (gimp_container_remove w1 c i) i new_parent)
           dst i index, true)
      else (gimp_container_reorder w1 c i index, true)
    else (w, true)).
  { subst r. unfold gimp_item_tree_reorder_item.
    rewrite (attached_is_item w i Hatt), Hatt, (bool_decide_eq_true_2 _ Himg).
    cbn [negb].
    replace (match new_parent with
             | Some p => _ && bool_decide (is_Some (gimp_viewable_get_children w p))
             | None => true
             end) with true.
    2:{ destruct new_parent as [p|]; [|reflexivity].
        destruct (Hpar p eq_refl) as (Hpa & Hpi & Hc).
        rewrite (attached_is_item w p Hpa), Hpa, (bool_decide_eq_true_2 _ Hpi),
          (bool_decide_eq_true_2 _ Hc). reflexivity. }
    cbn [negb]. cbv zeta. rewrite Hdst. fold c. fold n.
    subst index. reflexivity. }
  rewrite Hr. clear Hr r.
  destruct (decide (dst = c)) as [Hsame|Hdiff].
  - rewrite (bool_decide_eq_true_2 _ Hsame). cbn [negb orb].
    destruct (Z.eqb_spec index (gimp_item_get_index w i)) as [Heq|Hneq].
    + cbn [negb]. split; [reflexivity|].
      rewrite decide_True by (split; assumption). reflexivity.
    + cbn [negb]. cbv zeta. split; [reflexivity|].
      rewrite decide_False by (intros [_ ?]; contradiction).
      cbn [fst]. unfold gimp_container_reorder.
      rewrite undo_stack_set_container_items. split.
      { destruct push_undo; reflexivity. }
      assert (Hi : 0 <= index <= n - 1).
      { subst index. apply CLAMP_bounds. subst n.
        unfold gimp_container_get_n_children. rewrite Hsame.
        apply remove_first_length in Hin. lia. }
      split.
      { rewrite Hsame. rewrite container_items_set_same.
        - apply insert_at_lookup.
          assert (Hl : container_items
                    (if push_undo
                     then gimp_image_undo_push_item_reorder w undo_desc i
                     else w) c = container_items w c)
            by (destruct push_undo; [apply container_items_undo|reflexivity]).
          rewrite Hl. apply remove_first_length in Hin.
          subst n. unfold gimp_container_get_n_children in Hi.
          rewrite Hsame in Hi. lia.
        - destruct push_undo; rewrite ?container_items_undo;
            intros Hnil; fold c in Hnil; rewrite Hnil in Hin;
            apply elem_of_nil in Hin; destruct Hin. }
      split; [|intros; contradiction].
      unfold gimp_item_get_container at 1.
      rewrite get_parent_set_container_items.
      destruct push_undo; symmetry; exact Hsame.
  - rewrite (bool_decide_eq_false_2 _ Hdiff). cbn [negb orb]. cbv zeta.
    split; [reflexivity|].
    rewrite decide_False by (intros [? _]; contradiction).
    cbn [fst]. unfold gimp_container_insert, gimp_container_remove.
    set (w1 := if push_undo
               then gimp_image_undo_push_item_reorder w undo_desc i else w).
    assert (Hw1 : forall k, container_items w1 k = container_items w k)
      by (intros k; subst w1; destruct push_undo;
          [apply container_items_undo|reflexivity]).
    assert (Hw1h : heap w1 = heap w) by (subst w1; destruct push_undo; reflexivity).
    set (w2 := set_container_items w1 c (remove_first i (container_items w1 c))).
    set (w3 := gimp_viewable_set_parent w2 i new_parent).
    assert (Hheap3 : match dst with
                     | Toplevel => True
                     | ChildrenOf p => is_Some (heap w3 !! p)
                     end).
    { destruct dst as [|p]; [exact I|]. subst w3 w2.
      apply heap_set_parent, heap_set_container_items. rewrite Hw1h. exact Hheap. }
    assert (Hl3 : container_items w3 dst = container_items w dst).
    { subst w3 w2. rewrite container_items_set_parent.
      rewrite container_items_set_other by congruence. apply Hw1. }
    rewrite undo_stack_set_container_items. split.
    { subst w3 w2. cbn [gimp_viewable_set_parent with_heap undo_stack].
      rewrite undo_stack_set_container_items. subst w1.
      destruct push_undo; reflexivity. }
    split.
    { rewrite container_items_set_exists by exact Hheap3.
      apply insert_at_lookup. rewrite Hl3. subst index.
      apply CLAMP_bounds.
      subst n. unfold gimp_container_get_n_children. lia. }
    split.
    { unfold gimp_item_get_container.
      rewrite get_parent_set_container_items. subst w3.
      rewrite get_parent_set_parent.
      - subst dst. destruct new_parent; reflexivity.
      - subst w2. rewrite is_item_set_container_items. subst w1.
        destruct push_undo; apply (attached_is_item w i Hatt). }
    intros _. rewrite container_items_set_other by exact Hdiff.
    subst w3. rewrite container_items_set_parent. subst w2.
    rewrite container_items_set_same.
    + rewrite Hw1. reflexivity.
    + rewrite Hw1. intros Hnil. rewrite Hnil in Hin.
      apply elem_of_nil in Hin. destruct Hin.
Qed.

(** ** The scenarios *)

(** C6, at the failing input.  The item named Layer is attached and
    indexed; after its removal it is attached no more and the container is
    empty, yet the name index still maps Layer to it, and the item added
    again is renamed Layer#1 for a collision with itself. *)
Theorem remove_item_leaves_name_in_index :
  let w := fst (gimp_item_tree_remove_item layer_tree 1%nat None) in
  gimp_item_is_attached layer_tree 1%nat = true
  /\ gimp_item_tree_get_item_by_name layer_tree "Layer" = Some 1%nat
  /\ gimp_item_is_attached w 1%nat = false
  /\ container w = []
  /\ gimp_item_tree_get_item_by_name w "Layer" = Some 1%nat
  /\ option_map (fun w => gimp_object_get_name w 1%nat)
       (gimp_item_tree_add_item 4 w 1%nat None 0) = Some "Layer#1".
Proof. vm_compute. repeat split; reflexivity. Qed.

(** C7, as amended.  The text after the last [#] is taken off and its
    number adopted exactly when it is what ["%d"] prints for a [gint],
    a negative one and its sign included; any other name is kept whole and
    gets [#1]. *)
Theorem suffix_adopted_when_printed_form :
  (forall stem n, gint_range n ->
     next_name (stem +:+ String "#" (printf_d n))
     = stem +:+ String "#" (printf_d (gint_wrap (n + 1))))
  /\ (forall s,
        (forall stem n, gint_range n -> s <> stem +:+ String "#" (printf_d n)) ->
        next_name s = s +:+ "#1")
  /\ next_name "x#007" = "x#007#1"
  /\ option_map (fun w => (gimp_object_get_name w 1%nat,
                           gimp_object_get_name w 2%nat)) (twice "x#007")
     = Some ("x#007", "x#007#1").
Proof.
  split; [exact next_name_numbered|]. split; [exact next_name_atomic|].
  split; [reflexivity|]. vm_compute. reflexivity.
Qed.

(** The name Layer#1 gets the number 2. *)
Lemma suffix_adopted_when_printed_form_witness :
  gint_range 1
  /\ next_name ("Layer" +:+ String "#" (printf_d 1))
     = "Layer" +:+ String "#" (printf_d (gint_wrap (1 + 1))).
Proof.
  assert (H : gint_range 1) by (unfold gint_range, G_MININT, G_MAXINT; lia).
  split; [exact H|].
  exact (proj1 suffix_adopted_when_printed_form "Layer" 1 H).
Defined.

(** C7, the counterexample.  A second item that asks for the name foo#-3
    is not named foo#-3#1: -3 is read as the number of the first one, and
    the item is named foo#-2. *)
Lemma negative_suffix_is_adopted :
  next_name "foo#-3" = "foo#-2"
  /\ option_map (fun w => (gimp_object_get_name w 1%nat,
                           gimp_object_get_name w 2%nat)) (twice "foo#-3")
     = Some ("foo#-3", "foo#-2").
Proof. vm_compute. split; reflexivity. Qed.

(** The loop over an index that holds Layer and Layer#1, from Layer. *)
Lemma uniquefy_loop_terminates_witness :
  Z.of_nat (size ({["Layer" := 1%nat; "Layer#1" := 2%nat]} : gmap string item))
  < 2 ^ 32
  /\ exists i,
       (i <= S (size ({["Layer" := 1%nat; "Layer#1" := 2%nat]}
                      : gmap string item)))%nat
       /\ ({["Layer" := 1%nat; "Layer#1" := 2%nat]} : gmap string item)
          !! name_at "Layer" i = None
       /\ (forall j, (j < i)%nat ->
             is_Some (({["Layer" := 1%nat; "Layer#1" := 2%nat]}
                       : gmap string item) !! name_at "Layer" j))
       /\ (forall fuel, (i <= fuel)%nat ->
             uniquefy_loop fuel {["Layer" := 1%nat; "Layer#1" := 2%nat]} "Layer"
             = Some (name_at "Layer" i))
       /\ exists stem k,
            gint_range k
            /\ forall j, name_at "Layer" (S j)
                         = stem +:+ String "#"
                             (printf_d (gint_wrap (k + Z.of_nat j))).
Proof.
  assert (H : Z.of_nat (size ({["Layer" := 1%nat; "Layer#1" := 2%nat]}
                              : gmap string item)) < 2 ^ 32)
    by (vm_compute; reflexivity).
  split; [exact H|].
  exact (uniquefy_loop_terminates _ "Layer" H).
Defined.

(** C10, the counterexample.  With x#2147483646 and x#2147483647 in the
    index, a name x#2147483646 goes to x#2147483647 at the first turn and
    to x#-2147483648 at the second: the number of the second turn is below
    the number of the first. *)
Lemma number_wraps_at_G_MAXINT :
  let hash : gmap string item :=
    {["x#2147483646" := 1%nat; "x#2147483647" := 2%nat]} in
  name_at "x#2147483646" 1 = "x#2147483647"
  /\ name_at "x#2147483646" 2 = "x#-2147483648"
  /\ uniquefy_loop 3 hash "x#2147483646" = Some "x#-2147483648"
  /\ atoi "-2147483648" < atoi "2147483647".
Proof. vm_compute. repeat split; reflexivity. Qed.

(** The removal of A from the group G. *)
Lemma remove_item_chooses_new_active_witness :
  gimp_item_is_attached group_tree 2%nat = true
  /\ gimp_item_get_image group_tree 2%nat = Some (tree_image group_tree)
  /\ snd (gimp_item_tree_remove_item group_tree 2%nat None)
     = (let vacated :=
          remove_first 2%nat
            (container_items group_tree
               (gimp_item_get_container group_tree 2%nat)) in
        if decide (vacated = []) then gimp_item_get_parent group_tree 2%nat
        else vacated !! Nat.min (Z.to_nat (gimp_item_get_index group_tree 2%nat))
                                (length vacated - 1)).
Proof.
  assert (H1 : gimp_item_is_attached group_tree 2%nat = true)
    by (vm_compute; reflexivity).
  assert (H2 : gimp_item_get_image group_tree 2%nat
               = Some (tree_image group_tree)) by (vm_compute; reflexivity).
  split; [exact H1|]. split; [exact H2|].
  exact (remove_item_chooses_new_active group_tree 2%nat None H1 H2).
Defined.

(** Removing A from the group G suggests B, the item that follows it;
    removing the last item of a group suggests the group. *)
Example remove_item_suggestions :
  snd (gimp_item_tree_remove_item group_tree 2%nat None) = Some 3%nat
  /\ snd (gimp_item_tree_remove_item group_tree 3%nat None) = Some 2%nat
  /\ snd (gimp_item_tree_remove_item group_tree 4%nat (Some 2%nat)) = Some 2%nat
  /\ snd (gimp_item_tree_remove_item
            (fst (gimp_item_tree_remove_item group_tree 2%nat None)) 3%nat None)
     = Some 1%nat
  /\ snd (gimp_item_tree_remove_item layer_tree 1%nat None) = None.
Proof. vm_compute. repeat split; reflexivity. Qed.

(** The move of C into the group G, between A and B. *)
Lemma reorder_item_clamps_and_moves_witness :
  gimp_item_is_attached group_tree 4%nat = true
  /\ (let c := gimp_item_get_container group_tree 4%nat in
      let dst := reorder_destination (Some 1%nat) in
      let n := gimp_container_get_n_children group_tree dst in
      let index := CLAMP 1 0 (if decide (dst = c) then n - 1 else n) in
      let r := gimp_item_tree_reorder_item group_tree 4%nat (Some 1%nat) 1 true
                 "move" in
      snd r = true
      /\ if decide (dst = c /\ index = gimp_item_get_index group_tree 4%nat)
         then fst r = group_tree
         else undo_stack (fst r)
              = (if true then [UndoItemReorder "move" 4%nat] else [])
                ++ undo_stack group_tree
              /\ container_items (fst r) dst !! Z.to_nat index = Some 4%nat
              /\ gimp_item_get_container (fst r) 4%nat = dst
              /\ (dst <> c ->
                  container_items (fst r) c
                  = remove_first 4%nat (container_items group_tree c))).
Proof.
  assert (H1 : gimp_item_is_attached group_tree 4%nat = true)
    by (vm_compute; reflexivity).
  split; [exact H1|].
  apply (reorder_item_clamps_and_moves group_tree 4%nat (Some 1%nat) 1 true "move" H1).
  - vm_compute. reflexivity.
  - intros p Hp. injection Hp as <-. split; [vm_compute; reflexivity|].
    split; [vm_compute; reflexivity|]. vm_compute. eauto.
Defined.

(** Scenario 6 of the specification: C moves between A and B, its parent
    is G, and one undo record is pushed; a move to the place the item has
    pushes none. *)
Example reorder_across_parents :
  let r := gimp_item_tree_reorder_item group_tree 4%nat (Some 1%nat) 1 true
             "move" in
  snd r = true
  /\ container_items (fst r) (ChildrenOf 1%nat) = [2%nat; 4%nat; 3%nat]
  /\ container (fst r) = [1%nat]
  /\ gimp_item_get_parent (fst r) 4%nat = Some 1%nat
  /\ undo_stack (fst r) = [UndoItemReorder "move" 4%nat]
  /\ gimp_item_tree_reorder_item group_tree 2%nat (Some 1%nat) (-5) true "stay"
     = (group_tree, true)
  /\ container_items
       (fst (gimp_item_tree_reorder_item group_tree 2%nat (Some 1%nat) 7 false
               "down")) (ChildrenOf 1%nat) = [3%nat; 2%nat].
Proof. vm_compute. repeat split; reflexivity. Qed.

(** Scenario 4 of the specification. *)
Example name_collision :
  option_map (fun w => map (gimp_object_get_name w) [1%nat; 2%nat; 3%nat])
    (add_items 4
       (gimp_item_tree_new
          {[1%nat := leaf "Layer"; 2%nat := leaf "Layer#1";
            3%nat := leaf "Layer"]}) None [1%nat; 2%nat; 3%nat])
  = Some ["Layer"; "Layer#1"; "Layer#2"].
Proof. vm_compute. reflexivity. Qed.

End ItemTreeFacts.

(** * More properties of the item tree *)

Module ItemTreeInsertFacts.

Import ItemTree ItemTreeInsert ItemTreeFacts.

(** ** The insert position *)

Lemma n_children_or_fail_nonneg w c : 0 <= n_children_or_fail w c.
Proof.
  destruct c as [c|]; cbn; [|lia].
  unfold gimp_container_get_n_children. lia.
Qed.

(** X7.  The position [gimp_item_tree_get_insert_pos] leaves in
    [*position] is an index at which the container of the returned parent
    can take a new child: it lies between 0 and the number of children of
    that container, whatever parent and position the caller passed. *)
Theorem insert_pos_within_container w parent position :
  0 <= snd (gimp_item_tree_get_insert_pos w parent position)
    <= n_children_or_fail w
         (children_or_toplevel w
            (fst (gimp_item_tree_get_insert_pos w parent position))).
Proof.
  unfold gimp_item_tree_get_insert_pos.
  destruct (match parent with
            | GIMP_IMAGE_ACTIVE_PARENT => _
            | Parent p => _
            end) as [p pos].
  cbn [fst snd]. apply CLAMP_bounds, n_children_or_fail_nonneg.
Qed.

(** An attached item is a child of the container its parent has. *)
Lemma attached_parent_children w a p :
  gimp_item_is_attached w a = true ->
  gimp_item_get_parent w a = Some p ->
  gimp_viewable_get_children w p = Some (ChildrenOf p).
Proof.
  intros Hatt Hp. pose proof (attached_in_container w a Hatt) as Hin.
  unfold gimp_item_get_container in Hin. rewrite Hp in Hin.
  unfold gimp_viewable_get_children. cbn in Hin.
  destruct (heap w !! p ≫= children); [reflexivity|].
  apply elem_of_nil in Hin. destruct Hin.
Qed.

Lemma attached_container w a :
  gimp_item_is_attached w a = true ->
  children_or_toplevel w (gimp_item_get_parent w a)
  = Some (gimp_item_get_container w a).
Proof.
  intros Hatt. unfold gimp_item_get_container.
  destruct (gimp_item_get_parent w a) as [p|] eqn:Hp; [|reflexivity].
  cbn. apply (attached_parent_children w a p Hatt Hp).
Qed.

Lemma insert_pos_active_leaf w a :
  active_item w = Some a ->
  gimp_viewable_get_children w a = None ->
  gimp_item_is_attached w a = true ->
  gimp_item_tree_get_insert_pos w GIMP_IMAGE_ACTIVE_PARENT (-1)
  = (gimp_item_get_parent w a, gimp_item_get_index w a).
Proof.
  intros Ha Hc Hatt. unfold gimp_item_tree_get_insert_pos.
  rewrite Ha, Hc, (attached_container w a Hatt).
  change (-1 =? -1) with true. cbv iota.
  cbn [child_index_or_fail n_children_or_fail].
  fold (gimp_item_get_index w a).
  pose proof (index_from_bounds a _ 0 (attached_in_container w a Hatt)) as Hidx.
  fold (gimp_container_get_child_index w (gimp_item_get_container w a) a) in Hidx.
  fold (gimp_item_get_index w a) in Hidx.
  destruct (Z.eqb_spec (gimp_item_get_index w a) (-1)) as [He|_]; [lia|].
  f_equal. unfold CLAMP, gimp_container_get_n_children.
  destruct (Z.ltb_spec
              (Z.of_nat (length (container_items w (gimp_item_get_container w a))))
              (gimp_item_get_index w a)); [lia|].
  destruct (Z.ltb_spec (gimp_item_get_index w a) 0); [lia|reflexivity].
Qed.

(** X8.  With the hint [GIMP_IMAGE_ACTIVE_PARENT] and the position -1, an
    attached active item that has no children gives its own place: the
    returned parent is the active item's parent and the position the active
    item's index, so that the new item comes to lie on top of it. *)
Theorem insert_pos_on_top_of_active_item w a :
  active_item w = Some a ->
  gimp_viewable_get_children w a = None ->
  gimp_item_is_attached w a = true ->
  gimp_item_tree_get_insert_pos w GIMP_IMAGE_ACTIVE_PARENT (-1)
  = (gimp_item_get_parent w a, gimp_item_get_index w a).
Proof. exact (insert_pos_active_leaf w a). Qed.

(** X9.  With the hint [GIMP_IMAGE_ACTIVE_PARENT], an active item that has
    children becomes the parent, and the position is 0 whatever position
    the caller passed. *)
Theorem insert_pos_into_active_group w a c position :
  active_item w = Some a ->
  gimp_viewable_get_children w a = Some c ->
  gimp_item_tree_get_insert_pos w GIMP_IMAGE_ACTIVE_PARENT position
  = (Some a, 0).
Proof.
  intros Ha Hc. unfold gimp_item_tree_get_insert_pos. rewrite Ha, Hc.
  f_equal. change (0 =? -1) with false. cbv iota.
  pose proof (n_children_or_fail_nonneg w (children_or_toplevel w (Some a))).
  unfold CLAMP.
  destruct (Z.ltb_spec (n_children_or_fail w (children_or_toplevel w (Some a))) 0);
    [lia|reflexivity].
Qed.

(** ** What the updates of an object leave as it was *)

Lemma lookup_alter_bind {B} (g : GimpItem -> option B) (f : GimpItem -> GimpItem)
    i (h : gmap item GimpItem) j :
  (forall o, g (f o) = g o) -> alter f i h !! j ≫= g = h !! j ≫= g.
Proof.
  intros Hf. rewrite lookup_alter. case_decide; [subst|reflexivity].
  destruct (h !! j); cbn; [apply Hf|reflexivity].
Qed.

Lemma lookup_alter_fmap {B} (g : GimpItem -> B) (f : GimpItem -> GimpItem)
    i (h : gmap item GimpItem) j :
  (forall o, g (f o) = g o) -> g <$> alter f i h !! j = g <$> h !! j.
Proof.
  intros Hf. rewrite lookup_alter. case_decide; [subst|reflexivity].
  destruct (h !! j); cbn; [f_equal; apply Hf|reflexivity].
Qed.

Lemma lookup_alter_is_Some (f : GimpItem -> GimpItem) i
    (h : gmap item GimpItem) j :
  is_Some (alter f i h !! j) <-> is_Some (h !! j).
Proof.
  rewrite lookup_alter. case_decide; [subst|reflexivity].
  rewrite <- !not_eq_None_Some. destruct (h !! j); cbn; split; congruence.
Qed.

(** The name of an object. *)
Lemma get_name_set_name w i s j :
  GIMP_IS_ITEM w i = true ->
  gimp_object_get_name (gimp_object_set_name w i s) j
  = if decide (j = i) then s else gimp_object_get_name w j.
Proof.
  unfold GIMP_IS_ITEM, gimp_object_get_name. cbn.
  intros [o Ho]%bool_decide_eq_true. rewrite lookup_alter.
  destruct (decide (j = i)) as [->|Hne].
  - rewrite decide_True by reflexivity. rewrite Ho. reflexivity.
  - rewrite decide_False by congruence. reflexivity.
Qed.

Lemma get_name_alter w w' (f : GimpItem -> GimpItem) i j :
  heap w' = alter f i (heap w) -> (forall o, name (f o) = name o) ->
  gimp_object_get_name w' j = gimp_object_get_name w j.
Proof.
  intros Hh Hf. unfold gimp_object_get_name. rewrite Hh.
  pose proof (lookup_alter_fmap name f i (heap w) j Hf) as H.
  destruct (alter f i (heap w) !! j), (heap w !! j); cbn in H; congruence.
Qed.

Lemma get_name_set_parent w i p j :
  gimp_object_get_name (gimp_viewable_set_parent w i p) j
  = gimp_object_get_name w j.
Proof. apply (get_name_alter w _ (set_parent p) i); reflexivity. Qed.

Lemma get_name_set_container_items w c l j :
  gimp_object_get_name (set_container_items w c l) j
  = gimp_object_get_name w j.
Proof.
  destruct c as [|p]; [reflexivity|].
  apply (get_name_alter w _ (set_children (Some l)) p); reflexivity.
Qed.

Lemma name_hash_set_container_items w c l :
  name_hash (set_container_items w c l) = name_hash w.
Proof. destruct c; reflexivity. Qed.

Lemma active_item_set_container_items w c l :
  active_item (set_container_items w c l) = active_item w.
Proof. destruct c; reflexivity. Qed.

(** The structure of the tree after a change of name. *)
Lemma container_items_set_name w i s c :
  container_items (gimp_object_set_name w i s) c = container_items w c.
Proof.
  destruct c as [|q]; [reflexivity|]. cbn.
  rewrite (lookup_alter_bind children) by reflexivity. reflexivity.
Qed.

Lemma get_parent_set_name w i s j :
  gimp_item_get_parent (gimp_object_set_name w i s) j = gimp_item_get_parent w j.
Proof.
  unfold gimp_item_get_parent. cbn.
  apply (lookup_alter_bind parent). reflexivity.
Qed.

Lemma get_children_set_name w i s j :
  gimp_viewable_get_children (gimp_object_set_name w i s) j
  = gimp_viewable_get_children w j.
Proof.
  unfold gimp_viewable_get_children. cbn.
  rewrite (lookup_alter_bind children) by reflexivity. reflexivity.
Qed.

Lemma is_item_set_name w i s j :
  GIMP_IS_ITEM (gimp_object_set_name w i s) j = GIMP_IS_ITEM w j.
Proof.
  unfold GIMP_IS_ITEM. cbn. apply bool_decide_ext, lookup_alter_is_Some.
Qed.

Lemma get_image_set_name w i s j :
  gimp_item_get_image (gimp_object_set_name w i s) j = gimp_item_get_image w j.
Proof.
  unfold gimp_item_get_image. cbn.
  apply (lookup_alter_fmap item_image). reflexivity.
Qed.

(** ** Adding an item *)

(** The loop of the name collisions does not run for a name that is no
    key. *)
Lemma uniquefy_loop_free (hash : gmap string item) fuel s :
  hash !! s = None -> uniquefy_loop fuel hash s = Some s.
Proof. intros H. destruct fuel; cbn; rewrite H; reflexivity. Qed.

Lemma uniquefy_loop_fresh (hash : gmap string item) fuel : forall s s',
  uniquefy_loop fuel hash s = Some s' -> hash !! s' = None.
Proof.
  induction fuel as [|fuel IH]; intros s s'; cbn;
    destruct (hash !! s) eqn:Hs; try discriminate.
  - intros [= <-]. exact Hs.
  - apply IH.
  - intros [= <-]. exact Hs.
Qed.

(** What [gimp_item_tree_add_item] comes to once its checks have passed. *)
Lemma add_item_checked fuel w i new_parent position :
  GIMP_IS_ITEM w i = true ->
  gimp_item_is_attached w i = false ->
  gimp_item_get_image w i = Some (tree_image w) ->
  Z.of_nat (size (name_hash w)) < 2 ^ 32 ->
  (S (size (name_hash w)) <= fuel)%nat ->
  exists s,
    uniquefy_loop fuel (name_hash w) (gimp_object_get_name w i) = Some s
    /\ name_hash w !! s = None
    /\ gimp_item_tree_add_item fuel w i new_parent position
       = Some
           (let w1 := with_name_hash (<[s := i]> (name_hash w))
                        (gimp_object_set_name w i s) in
            let w2 := match new_parent with
                      | Some p => gimp_viewable_set_parent w1 i (Some p)
                      | None => w1
                      end in
            match children_or_toplevel w new_parent with
            | Some c => gimp_container_insert w2 c i position
            | None => w2
            end).
Proof.
  intros Hitem Hatt Himg Hsize Hfuel.
  destruct (uniquefy_loop_returns (name_hash w) fuel (gimp_object_get_name w i)
              Hsize Hfuel) as (s & Hs & Hfresh).
  exists s. split; [exact Hs|]. split; [exact Hfresh|].
  unfold gimp_item_tree_add_item, gimp_item_tree_uniquefy_name.
  rewrite Hitem, Hatt, (bool_decide_eq_true_2 _ Himg). cbn [negb].
  rewrite Hs. cbv zeta.
  rewrite get_name_set_name by exact Hitem.
  rewrite decide_True by reflexivity.
  destruct new_parent as [p|]; [|reflexivity].
  cbn [children_or_toplevel].
  replace (gimp_viewable_get_children
             (with_name_hash (<[s:=i]> (name_hash (gimp_object_set_name w i s)))
                (gimp_object_set_name w i s)) p)
    with (gimp_viewable_get_children w p)
    by (symmetry; apply (get_children_set_name w i s p)).
  destruct (gimp_viewable_get_children w p); reflexivity.
Qed.

(** The name index and the names after an item is added. *)
Lemma add_item_names fuel w i new_parent position :
  GIMP_IS_ITEM w i = true ->
  gimp_item_is_attached w i = false ->
  gimp_item_get_image w i = Some (tree_image w) ->
  Z.of_nat (size (name_hash w)) < 2 ^ 32 ->
  (S (size (name_hash w)) <= fuel)%nat ->
  exists s w',
    gimp_item_tree_add_item fuel w i new_parent position = Some w'
    /\ uniquefy_loop fuel (name_hash w) (gimp_object_get_name w i) = Some s
    /\ name_hash w !! s = None
    /\ name_hash w' = <[s := i]> (name_hash w)
    /\ forall j, gimp_object_get_name w' j
                 = if decide (j = i) then s else gimp_object_get_name w j.
Proof.
  intros Hitem Hatt Himg Hsize Hfuel.
  destruct (add_item_checked fuel w i new_parent position Hitem Hatt Himg
              Hsize Hfuel) as (s & Hs & Hfresh & Hadd).
  eexists s, _. split; [exact Hadd|]. split; [exact Hs|].
  split; [exact Hfresh|]. cbv zeta.
  destruct (children_or_toplevel w new_parent) as [c|];
    unfold gimp_container_insert;
    rewrite ?name_hash_set_container_items;
    (split; [destruct new_parent; reflexivity|]);
    intros j; rewrite ?get_name_set_container_items;
    (destruct new_parent; rewrite ?get_name_set_parent);
    apply (get_name_set_name w i s j Hitem).
Qed.


(** The state after the name is settled: the tree but for the name of the
    item and the name index. *)
Lemma container_items_named w i s h c :
  container_items (with_name_hash h (gimp_object_set_name w i s)) c
  = container_items w c.
Proof. exact (container_items_set_name w i s c). Qed.

Lemma get_parent_named w i s h j :
  gimp_item_get_parent (with_name_hash h (gimp_object_set_name w i s)) j
  = gimp_item_get_parent w j.
Proof. exact (get_parent_set_name w i s j). Qed.

Lemma is_item_named w i s h j :
  GIMP_IS_ITEM (with_name_hash h (gimp_object_set_name w i s)) j
  = GIMP_IS_ITEM w j.
Proof. exact (is_item_set_name w i s j). Qed.

Lemma is_item_heap w j : GIMP_IS_ITEM w j = true <-> is_Some (heap w !! j).
Proof. unfold GIMP_IS_ITEM. apply bool_decide_eq_true. Qed.

Lemma destination_exists w new_parent c :
  children_or_toplevel w new_parent = Some c ->
  c = reorder_destination new_parent
  /\ match c with
     | Toplevel => True
     | ChildrenOf p => GIMP_IS_ITEM w p = true
     end.
Proof.
  destruct new_parent as [p|]; cbn; [|intros [= <-]; split; [reflexivity|exact I]].
  intros Hc.
  destruct (children_destination w p (ex_intro _ c Hc)) as [Hc' Hp].
  rewrite Hc' in Hc. injection Hc as <-. split; [reflexivity|].
  apply is_item_heap, Hp.
Qed.

Lemma container_items_insert w c c' i position :
  match c with
  | Toplevel => True
  | ChildrenOf p => GIMP_IS_ITEM w p = true
  end ->
  container_items (gimp_container_insert w c i position) c'
  = if decide (c' = c) then insert_at position i (container_items w c)
    else container_items w c'.
Proof.
  intros Hc. unfold gimp_container_insert. destruct (decide (c' = c)) as [->|Hne].
  - apply container_items_set_exists.
    destruct c as [|p]; [exact I|]. apply is_item_heap, Hc.
  - apply container_items_set_other. congruence.
Qed.

Lemma add_item_placement fuel w i new_parent position c :
  GIMP_IS_ITEM w i = true ->
  gimp_item_is_attached w i = false ->
  gimp_item_get_image w i = Some (tree_image w) ->
  Z.of_nat (size (name_hash w)) < 2 ^ 32 ->
  (S (size (name_hash w)) <= fuel)%nat ->
  children_or_toplevel w new_parent = Some c ->
  0 <= position <= gimp_container_get_n_children w c ->
  exists w',
    gimp_item_tree_add_item fuel w i new_parent position = Some w'
    /\ container_items w' c
       = take (Z.to_nat position) (container_items w c)
         ++ i :: drop (Z.to_nat position) (container_items w c)
    /\ (forall c', c' <> c -> container_items w' c' = container_items w c')
    /\ gimp_item_get_parent w' i
       = match new_parent with
         | Some p => Some p
         | None => gimp_item_get_parent w i
         end
    /\ active_item w' = active_item w.
Proof.
  intros Hitem Hatt Himg Hsize Hfuel Hc Hpos.
  destruct (add_item_checked fuel w i new_parent position Hitem Hatt Himg
              Hsize Hfuel) as (s & Hs & Hfresh & Hadd).
  rewrite Hc in Hadd. cbv zeta in Hadd.
  eexists. split; [exact Hadd|].
  destruct (destination_exists w new_parent c Hc) as [_ Hex].
  set (w1 := with_name_hash (<[s:=i]> (name_hash w)) (gimp_object_set_name w i s)).
  set (w2 := match new_parent with
             | Some p => gimp_viewable_set_parent w1 i (Some p)
             | None => w1
             end).
  assert (Hitems2 : forall c', container_items w2 c' = container_items w c').
  { intros c'. subst w2 w1. destruct new_parent;
      rewrite ?container_items_set_parent; apply container_items_named. }
  assert (Hex2 : match c with
                 | Toplevel => True
                 | ChildrenOf p => GIMP_IS_ITEM w2 p = true
                 end).
  { destruct c as [|p]; [exact I|]. subst w2 w1.
    destruct new_parent as [q|].
    - apply is_item_heap, heap_set_parent, is_item_heap.
      rewrite is_item_named. exact Hex.
    - rewrite is_item_named. exact Hex. }
  split; [|split; [|split]].
  - rewrite container_items_insert by exact Hex2.
    rewrite decide_True by reflexivity. rewrite Hitems2.
    unfold insert_at. destruct (Z.ltb_spec position 0); [lia|reflexivity].
  - intros c' Hne. rewrite container_items_insert by exact Hex2.
    rewrite decide_False by exact Hne. apply Hitems2.
  - unfold gimp_container_insert. rewrite get_parent_set_container_items.
    subst w2 w1. destruct new_parent as [p|].
    + apply get_parent_set_parent. rewrite is_item_named. exact Hitem.
    + apply get_parent_named.
  - unfold gimp_container_insert. rewrite active_item_set_container_items.
    subst w2 w1. destruct new_parent; reflexivity.
Qed.

(** X11.  An item that passes the checks of [gimp_item_tree_add_item] and
    is added at an index between 0 and the number of children of the top
    level, or of a parent that has children, stands at that index
    afterwards, the children before it and after it in the order they had;
    the other containers are as they were, the parent of the item is the
    new parent when there is one, and the active item is the same. *)
Theorem add_item_places_item fuel w i new_parent position c :
  GIMP_IS_ITEM w i = true ->
  gimp_item_is_attached w i = false ->
  gimp_item_get_image w i = Some (tree_image w) ->
  Z.of_nat (size (name_hash w)) < 2 ^ 32 ->
  (S (size (name_hash w)) <= fuel)%nat ->
  children_or_toplevel w new_parent = Some c ->
  0 <= position <= gimp_container_get_n_children w c ->
  exists w',
    gimp_item_tree_add_item fuel w i new_parent position = Some w'
    /\ container_items w' c
       = take (Z.to_nat position) (container_items w c)
         ++ i :: drop (Z.to_nat position) (container_items w c)
    /\ (forall c', c' <> c -> container_items w' c' = container_items w c')
    /\ gimp_item_get_parent w' i
       = match new_parent with
         | Some p => Some p
         | None => gimp_item_get_parent w i
         end
    /\ active_item w' = active_item w.
Proof. exact (add_item_placement fuel w i new_parent position c). Qed.

(** The index of a child is the place where it stands. *)
Lemma index_from_lookup i l : forall k,
  i ∈ l -> l !! Z.to_nat (index_from k i l - k) = Some i.
Proof.
  induction l as [|x l IH]; intros k Hin.
  - apply elem_of_nil in Hin. destruct Hin.
  - cbn [index_from]. destruct (decide (x = i)) as [->|Hne].
    + rewrite Z.sub_diag. reflexivity.
    + apply elem_of_cons in Hin as [->|Hin]; [contradiction|].
      pose proof (index_from_bounds i l (k + 1) Hin) as Hb.
      replace (Z.to_nat (index_from (k + 1) i l - k))
        with (S (Z.to_nat (index_from (k + 1) i l - (k + 1)))) by lia.
      apply IH, Hin.
Qed.

Lemma lookup_insert_middle (l : list item) n i :
  (n <= length l)%nat ->
  (take n l ++ i :: drop n l) !! n = Some i
  /\ (take n l ++ i :: drop n l) !! S n = l !! n.
Proof.
  intros Hn. split.
  - rewrite lookup_app_r by (rewrite length_take; lia).
    rewrite length_take. replace (n - n `min` length l)%nat with 0%nat by lia.
    reflexivity.
  - rewrite lookup_app_r by (rewrite length_take; lia).
    rewrite length_take. replace (S n - n `min` length l)%nat with 1%nat by lia.
    change ((i :: drop n l) !! 1%nat) with (drop n l !! 0%nat).
    rewrite lookup_drop. f_equal. lia.
Qed.

(** X12.  An item added at the place that
    [gimp_item_tree_get_insert_pos] gives for the hint
    [GIMP_IMAGE_ACTIVE_PARENT] and the position -1, the active item being
    attached and without children, stands in the active item's container at
    the index the active item had, and the active item follows it. *)
Theorem add_item_at_insert_pos fuel w a i :
  active_item w = Some a ->
  gimp_viewable_get_children w a = None ->
  gimp_item_is_attached w a = true ->
  GIMP_IS_ITEM w i = true ->
  gimp_item_is_attached w i = false ->
  gimp_item_get_image w i = Some (tree_image w) ->
  Z.of_nat (size (name_hash w)) < 2 ^ 32 ->
  (S (size (name_hash w)) <= fuel)%nat ->
  exists w',
    gimp_item_tree_add_item fuel w i
      (fst (gimp_item_tree_get_insert_pos w GIMP_IMAGE_ACTIVE_PARENT (-1)))
      (snd (gimp_item_tree_get_insert_pos w GIMP_IMAGE_ACTIVE_PARENT (-1)))
    = Some w'
    /\ container_items w' (gimp_item_get_container w a)
         !! Z.to_nat (gimp_item_get_index w a) = Some i
    /\ container_items w' (gimp_item_get_container w a)
         !! S (Z.to_nat (gimp_item_get_index w a)) = Some a
    /\ length (container_items w' (gimp_item_get_container w a))
       = S (length (container_items w (gimp_item_get_container w a))).
Proof.
  intros Ha Hleaf Hatt Hitem Hnew Himg Hsize Hfuel.
  rewrite (insert_pos_active_leaf w a Ha Hleaf Hatt). cbn [fst snd].
  pose proof (attached_in_container w a Hatt) as Hin.
  pose proof (index_from_bounds a _ 0 Hin) as Hidx.
  pose proof (index_from_lookup a _ 0 Hin) as Hlook.
  rewrite Z.sub_0_r in Hlook.
  fold (gimp_container_get_child_index w (gimp_item_get_container w a) a)
    in Hidx, Hlook.
  fold (gimp_item_get_index w a) in Hidx, Hlook.
  destruct (add_item_placement fuel w i (gimp_item_get_parent w a)
              (gimp_item_get_index w a) (gimp_item_get_container w a))
    as (w' & Hadd & Hitems & _); try assumption.
  - apply attached_container, Hatt.
  - unfold gimp_container_get_n_children. lia.
  - exists w'. split; [exact Hadd|]. rewrite Hitems.
    destruct (lookup_insert_middle
                (container_items w (gimp_item_get_container w a))
                (Z.to_nat (gimp_item_get_index w a)) i) as [H1 H2]; [lia|].
    split; [exact H1|]. split; [rewrite H2; exact Hlook|].
    rewrite length_app, length_take. cbn [length]. rewrite length_drop. lia.
Qed.

(** ** Attached items *)

Lemma attached_within_mono w : forall f f' p,
  (f <= f')%nat -> attached_within f w p = true ->
  attached_within f' w p = true.
Proof.
  induction f as [|f IH]; intros f' p Hle H; [discriminate|].
  destruct f' as [|f']; [lia|]. cbn [attached_within] in *.
  destruct (gimp_item_get_parent w p); [|exact H].
  apply andb_true_iff in H as [H1 H2]. rewrite H1. cbn [andb].
  apply IH; [lia|exact H2].
Qed.

Lemma attached_within_not w f f' p :
  (f <= f')%nat -> attached_within f' w p = false ->
  attached_within f w p = false.
Proof.
  intros Hle H. destruct (attached_within f w p) eqn:Hf; [|reflexivity].
  rewrite (attached_within_mono w f f' p Hle Hf) in H. discriminate.
Qed.

(** The least fuel that shows an item attached. *)
Lemma attached_within_least w : forall f p,
  attached_within f w p = true ->
  exists m, (S m <= f)%nat /\ attached_within (S m) w p = true
            /\ attached_within m w p = false.
Proof.
  induction f as [|f IH]; intros p H; [discriminate|].
  destruct (attached_within f w p) eqn:Hf.
  - destruct (IH p Hf) as (m & Hm & H1 & H2). exists m.
    split; [lia|]. split; assumption.
  - exists f. split; [lia|]. split; assumption.
Qed.

Lemma size_heap_bound (h : gmap item GimpItem) (V : gset item) :
  V ⊆ dom h -> (size V <= size h)%nat.
Proof. intros HV. apply subseteq_size in HV. rewrite size_dom in HV. exact HV. Qed.

(** The way from an attached item to the top level passes through no item
    twice: every item that is not on it spares one unit of fuel. *)
Lemma attached_within_spare w : forall m p (V : gset item),
  attached_within (S m) w p = true -> attached_within m w p = false ->
  V ⊆ dom (heap w) ->
  (forall v, v ∈ V -> attached_within (S m) w v = false) ->
  attached_within (S (size (heap w)) - size V) w p = true.
Proof.
  induction m as [|m IH]; intros p V Htrue Hfalse HV Hout;
    pose proof (size_heap_bound _ _ HV) as Hsize.
  - replace (S (size (heap w)) - size V)%nat
      with (S (size (heap w) - size V)) by lia.
    cbn [attached_within] in *.
    destruct (gimp_item_get_parent w p); [|exact Htrue].
    rewrite andb_false_r in Htrue. discriminate.
  - cbn [attached_within] in Htrue, Hfalse.
    destruct (gimp_item_get_parent w p) as [q|] eqn:Hq;
      [|rewrite Htrue in Hfalse; discriminate].
    apply andb_true_iff in Htrue as [Hin Hq1]. rewrite Hin in Hfalse.
    cbn [andb] in Hfalse.
    assert (Hp : p ∈ dom (heap w)).
    { apply elem_of_dom. unfold gimp_item_get_parent in Hq.
      destruct (heap w !! p); [eauto|discriminate]. }
    assert (HpV : p ∉ V).
    { intros HpV. specialize (Hout p HpV). cbn [attached_within] in Hout.
      rewrite Hq, Hin, Hq1 in Hout. discriminate. }
    assert (HV' : {[p]} ∪ V ⊆ dom (heap w)).
    { intros v [Hv|Hv]%elem_of_union; [|apply HV, Hv].
      apply elem_of_singleton in Hv. subst v. exact Hp. }
    assert (Hsize' : size ({[p]} ∪ V) = S (size V)).
    { rewrite size_union, size_singleton; [reflexivity|].
      intros v Hv1 Hv2. apply elem_of_singleton in Hv1. subst v. contradiction. }
    pose proof (size_heap_bound _ _ HV') as Hb.
    specialize (IH q ({[p]} ∪ V) Hq1 Hfalse HV').
    rewrite Hsize' in IH, Hb.
    replace (S (size (heap w)) - size V)%nat
      with (S (S (size (heap w)) - S (size V))) by lia.
    cbn [attached_within]. rewrite Hq, Hin. cbn [andb]. apply IH.
    intros v [Hv|Hv]%elem_of_union.
    + apply elem_of_singleton in Hv. subst v. cbn [attached_within].
      rewrite Hq, Hin. exact Hfalse.
    + apply (attached_within_not w _ (S (S m))); [lia|]. apply Hout, Hv.
Qed.

(** An attached item is shown attached with one unit of fuel less than the
    heap has objects, when the heap holds an item that is not attached. *)
Lemma attached_with_spare w p i :
  gimp_item_is_attached w p = true ->
  GIMP_IS_ITEM w i = true -> gimp_item_is_attached w i = false ->
  attached_within (size (heap w)) w p = true.
Proof.
  unfold gimp_item_is_attached. intros [_ Hp]%andb_true_iff Hi Hni.
  rewrite Hi in Hni. cbn [andb] in Hni.
  destruct (attached_within_least w _ p Hp) as (m & Hm & H1 & H2).
  pose proof (attached_within_spare w m p {[i]} H1 H2) as H.
  rewrite size_singleton in H.
  replace (S (size (heap w)) - 1)%nat with (size (heap w)) in H by lia.
  apply H.
  - intros v Hv. apply elem_of_singleton in Hv. subst v.
    apply elem_of_dom, is_item_heap, Hi.
  - intros v Hv. apply elem_of_singleton in Hv. subst v.
    apply (attached_within_not w _ (S (size (heap w)))); [lia|exact Hni].
Qed.

(** A state with more children and the same parents, but for an item that
    is not attached, has every attached item still attached. *)
Lemma attached_within_grow w w' i :
  (forall q, q <> i -> gimp_item_get_parent w' q = gimp_item_get_parent w q) ->
  (forall c q, q ∈ container_items w c -> q ∈ container_items w' c) ->
  forall f p,
    attached_within f w p = true -> attached_within f w i = false ->
    attached_within f w' p = true.
Proof.
  intros Hpar Hitems. induction f as [|f IH]; intros p Hp Hi; [discriminate|].
  assert (Hne : p <> i) by (intros ->; rewrite Hp in Hi; discriminate).
  cbn [attached_within] in *. rewrite (Hpar p Hne).
  destruct (gimp_item_get_parent w p) as [q|].
  - apply andb_true_iff in Hp as [Hin Hq]. apply andb_true_iff. split.
    + apply bool_decide_eq_true. apply bool_decide_eq_true in Hin.
      apply Hitems, Hin.
    + apply IH; [exact Hq|].
      apply (attached_within_not w f (S f)); [lia|]. exact Hi.
  - apply bool_decide_eq_true. apply bool_decide_eq_true in Hp.
    apply (Hitems Toplevel), Hp.
Qed.

Lemma size_heap_alter (f : GimpItem -> GimpItem) i (h : gmap item GimpItem) :
  size (alter f i h) = size h.
Proof.
  rewrite <- !(size_dom (D := gset item)). rewrite dom_alter_L. reflexivity.
Qed.

(** An item that no container holds is not attached. *)
Lemma outside_not_attached w i :
  (forall c, i ∉ container_items w c) -> gimp_item_is_attached w i = false.
Proof.
  intros Hout. unfold gimp_item_is_attached. apply andb_false_iff. right.
  cbn [attached_within]. destruct (gimp_item_get_parent w i) as [p|].
  - apply andb_false_iff. left. apply bool_decide_eq_false, Hout.
  - apply bool_decide_eq_false, (Hout Toplevel).
Qed.

(** The objects after an item is added. *)
Lemma add_item_objects fuel w i new_parent position :
  GIMP_IS_ITEM w i = true ->
  gimp_item_is_attached w i = false ->
  gimp_item_get_image w i = Some (tree_image w) ->
  Z.of_nat (size (name_hash w)) < 2 ^ 32 ->
  (S (size (name_hash w)) <= fuel)%nat ->
  exists w',
    gimp_item_tree_add_item fuel w i new_parent position = Some w'
    /\ (forall q, q <> i ->
          gimp_item_get_parent w' q = gimp_item_get_parent w q)
    /\ (forall q, GIMP_IS_ITEM w' q = GIMP_IS_ITEM w q)
    /\ (forall q, gimp_item_get_image w' q = gimp_item_get_image w q)
    /\ size (heap w') = size (heap w)
    /\ tree_image w' = tree_image w
    /\ undo_stack w' = undo_stack w.
Proof.
  intros Hitem Hatt Himg Hsize Hfuel.
  destruct (add_item_checked fuel w i new_parent position Hitem Hatt Himg
              Hsize Hfuel) as (s & Hs & Hfresh & Hadd).
  eexists. split; [exact Hadd|]. cbv zeta.
  set (w1 := with_name_hash (<[s:=i]> (name_hash w)) (gimp_object_set_name w i s)).
  set (w2 := match new_parent with
             | Some p => gimp_viewable_set_parent w1 i (Some p)
             | None => w1
             end).
  assert (H2 : (forall q, q <> i ->
                  gimp_item_get_parent w2 q = gimp_item_get_parent w q)
               /\ (forall q, GIMP_IS_ITEM w2 q = GIMP_IS_ITEM w q)
               /\ (forall q, gimp_item_get_image w2 q = gimp_item_get_image w q)
               /\ size (heap w2) = size (heap w)
               /\ tree_image w2 = tree_image w
               /\ undo_stack w2 = undo_stack w).
  { subst w2 w1. destruct new_parent as [p|].
    - split; [|split; [|split; [|split; [|split]]]]; try reflexivity.
      + intros q Hq. unfold gimp_item_get_parent. cbn.
        rewrite lookup_alter_ne by congruence.
        apply (lookup_alter_bind parent). reflexivity.
      + intros q. unfold GIMP_IS_ITEM. cbn. apply bool_decide_ext.
        rewrite !lookup_alter_is_Some. reflexivity.
      + intros q. unfold gimp_item_get_image. cbn.
        rewrite !(lookup_alter_fmap item_image) by reflexivity. reflexivity.
      + cbn. rewrite !size_heap_alter. reflexivity.
    - split; [|split; [|split; [|split; [|split]]]]; try reflexivity.
      + intros q _. apply get_parent_named.
      + intros q. apply is_item_named.
      + intros q. apply (get_image_set_name w i s q).
      + cbn. apply size_heap_alter. }
  destruct H2 as (Hp & Hi & Hg & Hz & Ht & Hu).
  destruct (children_or_toplevel w new_parent) as [c|];
    [|split; [|split; [|split; [|split; [|split]]]]; assumption].
  unfold gimp_container_insert.
  split; [|split; [|split; [|split; [|split]]]].
  - intros q Hq. rewrite get_parent_set_container_items. apply Hp, Hq.
  - intros q. rewrite is_item_set_container_items. apply Hi.
  - intros q. rewrite <- Hg. destruct c as [|p]; [reflexivity|].
    unfold gimp_item_get_image. cbn.
    apply (lookup_alter_fmap item_image). reflexivity.
  - rewrite <- Hz. destruct c as [|p]; [reflexivity|]. cbn.
    apply size_heap_alter.
  - rewrite <- Ht. destruct c; reflexivity.
  - rewrite undo_stack_set_container_items. exact Hu.
Qed.

(** ** Removing an item *)

Lemma get_parent_removed w i j :
  gimp_item_get_parent (gimp_item_removed w i) j = gimp_item_get_parent w j.
Proof.
  unfold gimp_item_get_parent. cbn. apply (lookup_alter_bind parent). reflexivity.
Qed.

Lemma get_parent_set_parent_ne w i p j :
  j <> i ->
  gimp_item_get_parent (gimp_viewable_set_parent w i p) j
  = gimp_item_get_parent w j.
Proof.
  intros Hne. unfold gimp_item_get_parent. cbn.
  rewrite lookup_alter_ne by congruence. reflexivity.
Qed.

Lemma is_item_alter w w' (f : GimpItem -> GimpItem) i j :
  heap w' = alter f i (heap w) -> GIMP_IS_ITEM w' j = GIMP_IS_ITEM w j.
Proof.
  intros Hh. unfold GIMP_IS_ITEM. rewrite Hh.
  apply bool_decide_ext, lookup_alter_is_Some.
Qed.

Lemma is_item_set_parent w i p j :
  GIMP_IS_ITEM (gimp_viewable_set_parent w i p) j = GIMP_IS_ITEM w j.
Proof. apply (is_item_alter w _ (set_parent p) i). reflexivity. Qed.

Lemma is_item_removed w i j :
  GIMP_IS_ITEM (gimp_item_removed w i) j = GIMP_IS_ITEM w j.
Proof. apply (is_item_alter w _ (set_removed true) i). reflexivity. Qed.

Lemma get_name_removed w i j :
  gimp_object_get_name (gimp_item_removed w i) j = gimp_object_get_name w j.
Proof. apply (get_name_alter w _ (set_removed true) i); reflexivity. Qed.

Lemma container_items_set w c c' l :
  match c with
  | Toplevel => True
  | ChildrenOf p => GIMP_IS_ITEM w p = true
  end ->
  container_items (set_container_items w c l) c'
  = if decide (c' = c) then l else container_items w c'.
Proof.
  intros Hc. destruct (decide (c' = c)) as [->|Hne].
  - apply container_items_set_exists.
    destruct c as [|p]; [exact I|]. apply is_item_heap, Hc.
  - apply container_items_set_other. congruence.
Qed.

(** The parent of an attached item is an item. *)
Lemma attached_container_exists w i :
  gimp_item_is_attached w i = true ->
  match gimp_item_get_container w i with
  | Toplevel => True
  | ChildrenOf p => GIMP_IS_ITEM w p = true
  end.
Proof.
  intros Hatt. pose proof (attached_in_container w i Hatt) as Hin.
  destruct (gimp_item_get_container w i) as [|p]; [exact I|].
  apply is_item_heap. cbn in Hin.
  destruct (heap w !! p); [eauto|]. apply elem_of_nil in Hin. destruct Hin.
Qed.

(** The state [gimp_item_tree_remove_item] leaves once its checks have
    passed. *)
Lemma remove_item_state w i new_active :
  gimp_item_is_attached w i = true ->
  gimp_item_get_image w i = Some (tree_image w) ->
  let w' := fst (gimp_item_tree_remove_item w i new_active) in
  (forall c, container_items w' c
             = if decide (c = gimp_item_get_container w i)
               then remove_first i (container_items w c)
               else container_items w c)
  /\ gimp_item_get_parent w' i = None
  /\ (forall q, q <> i -> gimp_item_get_parent w' q = gimp_item_get_parent w q)
  /\ (forall q, gimp_object_get_name w' q = gimp_object_get_name w q)
  /\ (forall q, GIMP_IS_ITEM w' q = GIMP_IS_ITEM w q)
  /\ removed <$> heap w' !! i = Some true
  /\ name_hash w' = name_hash w
  /\ active_item w' = active_item w
  /\ undo_stack w' = undo_stack w.
Proof.
  intros Hatt Himg. cbv zeta. unfold gimp_item_tree_remove_item.
  pose proof (attached_is_item w i Hatt) as Hitem.
  pose proof (attached_container_exists w i Hatt) as Hex.
  rewrite Hitem, Hatt, (bool_decide_eq_true_2 _ Himg). cbn [negb fst]. cbv zeta.
  set (c0 := gimp_item_get_container w i) in *.
  set (w1 := gimp_container_remove w c0 i).
  set (w2 := match gimp_item_get_parent w i with
             | Some _ => gimp_viewable_set_parent w1 i None
             | None => w1
             end).
  assert (Hitem1 : GIMP_IS_ITEM w1 i = true).
  { subst w1. unfold gimp_container_remove.
    rewrite is_item_set_container_items. exact Hitem. }
  assert (Hitem2 : forall q, GIMP_IS_ITEM w2 q = GIMP_IS_ITEM w q).
  { intros q. subst w2 w1. unfold gimp_container_remove.
    destruct (gimp_item_get_parent w i).
    - rewrite is_item_set_parent. apply is_item_set_container_items.
    - apply is_item_set_container_items. }
  split; [|split; [|split; [|split; [|split; [|split; [|split; [|split]]]]]]].
  - intros c. rewrite container_items_removed. subst w2.
    replace (container_items
               match gimp_item_get_parent w i with
               | Some _ => gimp_viewable_set_parent w1 i None
               | None => w1
               end c) with (container_items w1 c)
      by (destruct (gimp_item_get_parent w i);
          rewrite ?container_items_set_parent; reflexivity).
    subst w1. unfold gimp_container_remove.
    rewrite container_items_set by exact Hex.
    destruct (decide (c = c0)) as [->|_]; reflexivity.
  - rewrite get_parent_removed. subst w2.
    destruct (gimp_item_get_parent w i) as [p|] eqn:Hp.
    + apply get_parent_set_parent, Hitem1.
    + subst w1. unfold gimp_container_remove.
      rewrite get_parent_set_container_items. exact Hp.
  - intros q Hq. rewrite get_parent_removed. subst w2.
    replace (gimp_item_get_parent
               match gimp_item_get_parent w i with
               | Some _ => gimp_viewable_set_parent w1 i None
               | None => w1
               end q) with (gimp_item_get_parent w1 q)
      by (destruct (gimp_item_get_parent w i);
          rewrite ?get_parent_set_parent_ne by exact Hq; reflexivity).
    subst w1. unfold gimp_container_remove.
    apply get_parent_set_container_items.
  - intros q.
    rewrite get_name_removed. subst w2.
    replace (gimp_object_get_name
               match gimp_item_get_parent w i with
               | Some _ => gimp_viewable_set_parent w1 i None
               | None => w1
               end q) with (gimp_object_get_name w1 q)
      by (destruct (gimp_item_get_parent w i);
          rewrite ?get_name_set_parent; reflexivity).
    subst w1. unfold gimp_container_remove. apply get_name_set_container_items.
  - intros q. rewrite is_item_removed. apply Hitem2.
  - cbn. rewrite lookup_alter_eq.
    pose proof (Hitem2 i) as Hi2. rewrite Hitem in Hi2.
    apply is_item_heap in Hi2 as [o Ho]. rewrite Ho. reflexivity.
  - subst w2 w1. unfold gimp_container_remove.
    destruct (gimp_item_get_parent w i); cbn;
      apply name_hash_set_container_items.
  - subst w2 w1. unfold gimp_container_remove.
    destruct (gimp_item_get_parent w i); cbn;
      apply active_item_set_container_items.
  - subst w2 w1. unfold gimp_container_remove.
    destruct (gimp_item_get_parent w i); cbn;
      apply undo_stack_set_container_items.
Qed.

(** X13.  For an attached item of the tree's image,
    [gimp_item_tree_remove_item] takes the item out of its container and
    leaves the other children in their order, clears the parent of the
    item and marks the item removed; the other containers, the parents and
    the names of the other items, the active item of the tree, the name
    index and the undo stack are as they were. *)
Theorem remove_item_detaches_item w i new_active :
  gimp_item_is_attached w i = true ->
  gimp_item_get_image w i = Some (tree_image w) ->
  let w' := fst (gimp_item_tree_remove_item w i new_active) in
  (forall c, container_items w' c
             = if decide (c = gimp_item_get_container w i)
               then remove_first i (container_items w c)
               else container_items w c)
  /\ gimp_item_get_parent w' i = None
  /\ (forall q, q <> i -> gimp_item_get_parent w' q = gimp_item_get_parent w q)
  /\ (forall q, gimp_object_get_name w' q = gimp_object_get_name w q)
  /\ (forall q, GIMP_IS_ITEM w' q = GIMP_IS_ITEM w q)
  /\ removed <$> heap w' !! i = Some true
  /\ name_hash w' = name_hash w
  /\ active_item w' = active_item w
  /\ undo_stack w' = undo_stack w.
Proof. exact (remove_item_state w i new_active). Qed.

(** X14.  The removal of the active item leaves it the active item of the
    tree: when the item was listed once, in its own container, the tree
    has an active item that is not attached. *)
Theorem remove_item_keeps_active_item w i new_active :
  gimp_item_is_attached w i = true ->
  gimp_item_get_image w i = Some (tree_image w) ->
  gimp_item_tree_get_active_item w = Some i ->
  (forall c, i ∈ container_items w c -> c = gimp_item_get_container w i) ->
  i ∉ remove_first i (container_items w (gimp_item_get_container w i)) ->
  let w' := fst (gimp_item_tree_remove_item w i new_active) in
  gimp_item_tree_get_active_item w' = Some i
  /\ gimp_item_is_attached w' i = false.
Proof.
  intros Hatt Himg Hact Hown Honce.
  destruct (remove_item_state w i new_active Hatt Himg)
    as (Hitems & _ & _ & _ & _ & _ & _ & Ha & _).
  cbv zeta. unfold gimp_item_tree_get_active_item in *.
  split; [rewrite Ha; exact Hact|].
  apply outside_not_attached. intros c. rewrite Hitems.
  destruct (decide (c = gimp_item_get_container w i)) as [->|Hne];
    [exact Honce|].
  intros Hin. apply Hne, Hown, Hin.
Qed.

Lemma remove_first_middle (l1 l2 : list item) i :
  i ∉ l1 -> remove_first i (l1 ++ i :: l2) = l1 ++ l2.
Proof.
  induction l1 as [|x l1 IH]; intros Hout; cbn [app remove_first].
  - rewrite decide_True by reflexivity. reflexivity.
  - apply not_elem_of_cons in Hout as [Hne Hout].
    rewrite decide_False by congruence. rewrite IH by exact Hout. reflexivity.
Qed.

(** X15.  An item that no container holds, added at an index between 0
    and the number of children of the top level, or of an attached parent
    that has children, is attached; removed again it leaves every
    container as it was before it was added, and has no parent and is not
    attached, while the name index still maps the name it has got to
    it. *)
Theorem add_then_remove_restores_containers fuel w i new_parent position c :
  GIMP_IS_ITEM w i = true ->
  (forall c0, i ∉ container_items w c0) ->
  gimp_item_get_image w i = Some (tree_image w) ->
  Z.of_nat (size (name_hash w)) < 2 ^ 32 ->
  (S (size (name_hash w)) <= fuel)%nat ->
  children_or_toplevel w new_parent = Some c ->
  0 <= position <= gimp_container_get_n_children w c ->
  match new_parent with
  | Some p => gimp_item_is_attached w p = true
  | None => gimp_item_get_parent w i = None
  end ->
  exists w',
    gimp_item_tree_add_item fuel w i new_parent position = Some w'
    /\ gimp_item_is_attached w' i = true
    /\ (forall c0,
          container_items (fst (gimp_item_tree_remove_item w' i None)) c0
          = container_items w c0)
    /\ gimp_item_get_parent (fst (gimp_item_tree_remove_item w' i None)) i
       = None
    /\ gimp_item_is_attached (fst (gimp_item_tree_remove_item w' i None)) i
       = false
    /\ gimp_item_tree_get_item_by_name
         (fst (gimp_item_tree_remove_item w' i None))
         (gimp_object_get_name (fst (gimp_item_tree_remove_item w' i None)) i)
       = Some i.
Proof.
  intros Hitem Hout Himg Hsize Hfuel Hc Hpos Hpar.
  pose proof (outside_not_attached w i Hout) as Hatt.
  destruct (add_item_placement fuel w i new_parent position c)
    as (w' & Hadd & Hitems & Hother & Hparent & _); try assumption.
  destruct (add_item_objects fuel w i new_parent position)
    as (w2 & Hadd2 & Hparents & Hisitem & Himage & Hheap & Htree & _);
    try assumption.
  rewrite Hadd in Hadd2. injection Hadd2 as <-.
  destruct (add_item_names fuel w i new_parent position)
    as (s & w3 & Hadd3 & _ & _ & Hhash & Hnames); try assumption.
  rewrite Hadd in Hadd3. injection Hadd3 as <-.
  destruct (destination_exists w new_parent c Hc) as [Hdst Hex].
  set (l := container_items w c) in *.
  set (n := Z.to_nat position) in *.
  assert (Hin : i ∈ container_items w' c).
  { rewrite Hitems. apply elem_of_app. right. apply list_elem_of_here. }
  assert (Hcont : gimp_item_get_container w' i = c).
  { unfold gimp_item_get_container. rewrite Hparent. rewrite Hdst.
    destruct new_parent; [reflexivity|]. rewrite Hpar. reflexivity. }
  assert (Hgrow : forall c0 q, q ∈ container_items w c0 ->
                               q ∈ container_items w' c0).
  { intros c0 q Hq. destruct (decide (c0 = c)) as [->|Hne].
    - rewrite Hitems. fold l in Hq. rewrite <- (take_drop n l) in Hq.
      apply elem_of_app in Hq as [Hq|Hq]; apply elem_of_app;
        [left; exact Hq|right; apply list_elem_of_further, Hq].
    - rewrite Hother by exact Hne. exact Hq. }
  assert (Hatt' : gimp_item_is_attached w' i = true).
  { unfold gimp_item_is_attached. rewrite Hisitem, Hitem, Hheap.
    cbn [andb attached_within]. rewrite Hparent.
    destruct new_parent as [p|].
    - rewrite Hdst in Hin. cbn [reorder_destination] in Hin.
      rewrite (bool_decide_eq_true_2 _ Hin). cbn [andb].
      apply (attached_within_grow w w' i Hparents Hgrow).
      + apply (attached_with_spare w p i Hpar Hitem Hatt).
      + unfold gimp_item_is_attached in Hatt. rewrite Hitem in Hatt.
        apply (attached_within_not w _ (S (size (heap w)))); [lia|exact Hatt].
    - rewrite Hpar. apply bool_decide_eq_true.
      rewrite Hdst in Hin. exact Hin. }
  assert (Himg' : gimp_item_get_image w' i = Some (tree_image w'))
    by (rewrite Himage, Htree; exact Himg).
  destruct (remove_item_state w' i None Hatt' Himg')
    as (Hritems & Hrparent & _ & Hrnames & _ & _ & Hrhash & _).
  assert (Hback : forall c0,
            container_items (fst (gimp_item_tree_remove_item w' i None)) c0
            = container_items w c0).
  { intros c0. rewrite Hritems, Hcont.
    destruct (decide (c0 = c)) as [->|Hne]; [|apply Hother, Hne].
    rewrite Hitems. rewrite remove_first_middle.
    - apply take_drop.
    - intros Hi. apply (Hout c). fold l. rewrite <- (take_drop n l).
      apply elem_of_app. left. exact Hi. }
  exists w'. split; [exact Hadd|]. split; [exact Hatt'|].
  split; [exact Hback|]. split; [exact Hrparent|]. split.
  - apply outside_not_attached. intros c0. rewrite Hback. apply Hout.
  - unfold gimp_item_tree_get_item_by_name.
    rewrite Hrhash, Hrnames, Hhash, Hnames.
    rewrite decide_True by reflexivity. apply lookup_insert_eq.
Qed.

(** ** Renaming an item *)

(** What [gimp_item_tree_uniquefy_name] comes to for an item when the loop
    of the name collisions returns. *)
Lemma uniquefy_name_result fuel w i new_name w' :
  GIMP_IS_ITEM w i = true ->
  gimp_item_tree_uniquefy_name fuel w i new_name = Some w' ->
  let hash :=
    match new_name with
    | Some _ => delete (gimp_object_get_name w i) (name_hash w)
    | None => name_hash w
    end in
  exists s,
    uniquefy_loop fuel hash
      (match new_name with Some n => n | None => gimp_object_get_name w i end)
    = Some s
    /\ hash !! s = None
    /\ name_hash w' = <[s := i]> hash
    /\ (forall j, gimp_object_get_name w' j
                  = if decide (j = i) then s else gimp_object_get_name w j)
    /\ (forall c, container_items w' c = container_items w c)
    /\ active_item w' = active_item w
    /\ undo_stack w' = undo_stack w.
Proof.
  intros Hitem. unfold gimp_item_tree_uniquefy_name. cbv zeta.
  destruct new_name as [n|].
  - assert (Hitem0 : GIMP_IS_ITEM
              (gimp_object_set_name
                 (with_name_hash
                    (delete (gimp_object_get_name w i) (name_hash w)) w) i n) i
            = true) by (rewrite is_item_set_name; exact Hitem).
    rewrite (get_name_set_name _ i n i) by exact Hitem.
    rewrite decide_True by reflexivity.
    change (name_hash (gimp_object_set_name
                         (with_name_hash
                            (delete (gimp_object_get_name w i) (name_hash w)) w)
                         i n))
      with (delete (gimp_object_get_name w i) (name_hash w)).
    destruct (uniquefy_loop fuel _ n) as [s|] eqn:Hs; [|discriminate].
    intros [= <-]. exists s. split; [reflexivity|].
    split; [apply (uniquefy_loop_fresh _ _ _ _ Hs)|].
    rewrite (get_name_set_name _ i s i) by exact Hitem0.
    rewrite decide_True by reflexivity.
    split; [reflexivity|]. split.
    + intros j.
      pose proof (get_name_set_name _ i s j Hitem0) as H1.
      pose proof (get_name_set_name
                    (with_name_hash
                       (delete (gimp_object_get_name w i) (name_hash w)) w)
                    i n j Hitem) as H2.
      destruct (decide (j = i)) as [->|Hne]; [exact H1|].
      etransitivity; [exact H1|]. exact H2.
    + split; [|split; reflexivity].
      intros c. destruct c as [|q]; [reflexivity|]. cbn.
      rewrite !(lookup_alter_bind children) by reflexivity. reflexivity.
  - destruct (uniquefy_loop fuel _ _) as [s|] eqn:Hs; [|discriminate].
    intros [= <-]. exists s. split; [reflexivity|].
    split; [apply (uniquefy_loop_fresh _ _ _ _ Hs)|].
    rewrite (get_name_set_name _ i s i) by exact Hitem.
    rewrite decide_True by reflexivity.
    split; [reflexivity|]. split.
    + intros j. apply (get_name_set_name w i s j Hitem).
    + split; [|split; reflexivity].
      intros c. apply (container_items_set_name w i s c).
Qed.

Lemma uniquefy_name_total fuel w i new_name :
  Z.of_nat (size (name_hash w)) < 2 ^ 32 ->
  (S (size (name_hash w)) <= fuel)%nat ->
  exists w', gimp_item_tree_uniquefy_name fuel w i new_name = Some w'.
Proof.
  intros Hsize Hfuel.
  destruct (uniquefy_name_returns fuel w i new_name Hsize Hfuel) as (w' & H & _).
  exists w'. exact H.
Qed.

(** X16.  For an attached item of the tree's image and a new name that is
    not the name it has, [gimp_item_tree_rename_item] pushes one undo
    record exactly when [push_undo] is set and indexes the item under the
    name it gets: the new name when no other item is indexed under it.
    The key of the old name is gone unless the item got the old name back,
    the other keys and the names of the other items are as they were, and
    so are the containers and the active item. *)
Theorem rename_item_reindexes fuel w i new_name push_undo undo_desc :
  gimp_item_is_attached w i = true ->
  gimp_item_get_image w i = Some (tree_image w) ->
  new_name <> gimp_object_get_name w i ->
  Z.of_nat (size (name_hash w)) < 2 ^ 32 ->
  (S (size (name_hash w)) <= fuel)%nat ->
  exists w',
    gimp_item_tree_rename_item fuel w i new_name push_undo undo_desc = Some w'
    /\ gimp_item_tree_get_item_by_name w' (gimp_object_get_name w' i) = Some i
    /\ (gimp_item_tree_get_item_by_name w new_name = None ->
        gimp_object_get_name w' i = new_name)
    /\ (gimp_object_get_name w' i <> gimp_object_get_name w i ->
        gimp_item_tree_get_item_by_name w (gimp_object_get_name w' i) = None
        /\ gimp_item_tree_get_item_by_name w' (gimp_object_get_name w i) = None)
    /\ (forall s, s <> gimp_object_get_name w' i ->
          s <> gimp_object_get_name w i ->
          gimp_item_tree_get_item_by_name w' s
          = gimp_item_tree_get_item_by_name w s)
    /\ (forall j, j <> i ->
          gimp_object_get_name w' j = gimp_object_get_name w j)
    /\ undo_stack w'
       = (if push_undo then [UndoItemRename undo_desc i] else [])
         ++ undo_stack w
    /\ (forall c, container_items w' c = container_items w c)
    /\ active_item w' = active_item w.
Proof.
  intros Hatt Himg Hnew Hsize Hfuel.
  pose proof (attached_is_item w i Hatt) as Hitem.
  unfold gimp_item_tree_rename_item.
  rewrite Hitem, Hatt, (bool_decide_eq_true_2 _ Himg). cbn [negb].
  destruct (String.eqb_spec new_name (gimp_object_get_name w i)) as [He|_];
    [contradiction|]. cbn [negb].
  set (w0 := if push_undo
             then gimp_image_undo_push_item_rename w undo_desc i else w).
  assert (Hw0 : name_hash w0 = name_hash w
                /\ (forall j, gimp_object_get_name w0 j = gimp_object_get_name w j)
                /\ (forall c, container_items w0 c = container_items w c)
                /\ active_item w0 = active_item w
                /\ GIMP_IS_ITEM w0 i = GIMP_IS_ITEM w i
                /\ undo_stack w0
                   = (if push_undo then [UndoItemRename undo_desc i] else [])
                     ++ undo_stack w).
  { subst w0. destruct push_undo; repeat split; try reflexivity;
      intros c; destruct c; reflexivity. }
  destruct Hw0 as (Hh0 & Hn0 & Hc0 & Ha0 & Hi0 & Hu0).
  destruct (uniquefy_name_total fuel w0 i (Some new_name)) as [w' Hw'];
    [rewrite Hh0; exact Hsize|rewrite Hh0; exact Hfuel|].
  exists w'. split; [exact Hw'|].
  destruct (uniquefy_name_result fuel w0 i (Some new_name) w')
    as (s & Hloop & Hfresh & Hhash & Hnames & Hitems & Hact & Hundo);
    [rewrite Hi0; exact Hitem|exact Hw'|].
  rewrite Hn0, Hh0 in Hloop, Hfresh, Hhash.
  assert (Hi : gimp_object_get_name w' i = s).
  { rewrite Hnames. rewrite decide_True by reflexivity. reflexivity. }
  unfold gimp_item_tree_get_item_by_name. rewrite Hi, Hhash.
  split; [apply lookup_insert_eq|]. split.
  { intros Hfree. rewrite uniquefy_loop_free in Hloop; [congruence|].
    rewrite lookup_delete_ne by congruence. exact Hfree. }
  split.
  { intros Hne. split.
    - rewrite lookup_delete_ne in Hfresh by congruence. exact Hfresh.
    - rewrite lookup_insert_ne by congruence. apply lookup_delete_eq. }
  split.
  { intros s' Hs1 Hs2. rewrite lookup_insert_ne by congruence.
    apply lookup_delete_ne. congruence. }
  split.
  { intros j Hj. rewrite Hnames, decide_False by exact Hj. apply Hn0. }
  split; [rewrite Hundo; exact Hu0|].
  split; [intros c; rewrite Hitems; apply Hc0|].
  rewrite Hact. exact Ha0.
Qed.

(** ** Reordering an item *)

(** What [gimp_item_tree_reorder_item] comes to once its checks have
    passed. *)
Lemma reorder_item_checked w i new_parent new_index push_undo undo_desc :
  gimp_item_is_attached w i = true ->
  gimp_item_get_image w i = Some (tree_image w) ->
  (forall p, new_parent = Some p ->
     gimp_item_is_attached w p = true
     /\ gimp_item_get_image w p = Some (tree_image w)
     /\ is_Some (gimp_viewable_get_children w p)) ->
  let c := gimp_item_get_container w i in
  let dst := reorder_destination new_parent in
  let n := gimp_container_get_n_children w dst in
  let index := CLAMP new_index 0 (if decide (dst = c) then n - 1 else n) in
  gimp_item_tree_reorder_item w i new_parent new_index push_undo undo_desc
  = if negb (bool_decide (dst = c)) || negb (index =? gimp_item_get_index w i)
    then
      let w1 := if push_undo
                then gimp_image_undo_push_item_reorder w undo_desc i else w in
      if negb (bool_decide (dst = c)) then
        (gimp_container_insert
           (gimp_viewable_set_parent (gimp_container_remove w1 c i) i new_parent)
           dst i index, true)
      else (gimp_container_reorder w1 c i index, true)
    else (w, true).
Proof.
  intros Hatt Himg Hpar c dst n index.
  assert (Hdst : match new_parent with
                 | Some p => default Toplevel (gimp_viewable_get_children w p)
                 | None => Toplevel
                 end = dst).
  { subst dst. destruct new_parent as [p|]; [|reflexivity].
    destruct (Hpar p eq_refl) as (_ & _ & Hc).
    destruct (children_destination w p Hc) as [-> _]. reflexivity. }
  unfold gimp_item_tree_reorder_item.
  rewrite (attached_is_item w i Hatt), Hatt, (bool_decide_eq_true_2 _ Himg).
  cbn [negb].
  replace (match new_parent with
           | Some p => _ && bool_decide (is_Some (gimp_viewable_get_children w p))
           | None => true
           end) with true.
  2:{ destruct new_parent as [p|]; [|reflexivity].
      destruct (Hpar p eq_refl) as (Hpa & Hpi & Hc).
      rewrite (attached_is_item w p Hpa), Hpa, (bool_decide_eq_true_2 _ Hpi),
        (bool_decide_eq_true_2 _ Hc). reflexivity. }
  cbn [negb]. cbv zeta. rewrite Hdst. fold c. fold n.
  subst index. reflexivity.
Qed.

(** A child taken out and put back at its index. *)
Lemma remove_first_insert_back i (l : list item) : forall k,
  i ∈ l ->
  take (Z.to_nat (index_from k i l - k)) (remove_first i l)
  ++ i :: drop (Z.to_nat (index_from k i l - k)) (remove_first i l) = l.
Proof.
  induction l as [|x l IH]; intros k Hin.
  - apply elem_of_nil in Hin. destruct Hin.
  - cbn [index_from remove_first]. destruct (decide (x = i)) as [->|Hne].
    + rewrite Z.sub_diag. reflexivity.
    + apply elem_of_cons in Hin as [->|Hin]; [contradiction|].
      pose proof (index_from_bounds i l (k + 1) Hin) as Hb.
      replace (Z.to_nat (index_from (k + 1) i l - k))
        with (S (Z.to_nat (index_from (k + 1) i l - (k + 1)))) by lia.
      cbn [take drop app]. rewrite IH by exact Hin. reflexivity.
Qed.

(** An attached item is not its own parent. *)
Lemma attached_within_self w i :
  gimp_item_get_parent w i = Some i -> forall f, attached_within f w i = false.
Proof.
  intros Hp. induction f as [|f IH]; [reflexivity|].
  cbn [attached_within]. rewrite Hp, IH. apply andb_false_r.
Qed.

Lemma attached_not_own_parent w i :
  gimp_item_is_attached w i = true -> gimp_item_get_parent w i <> Some i.
Proof.
  unfold gimp_item_is_attached. intros [_ H]%andb_true_iff Hp.
  rewrite (attached_within_self w i Hp) in H. discriminate.
Qed.

(** The state [gimp_item_tree_reorder_item] leaves once its checks have
    passed. *)
Lemma reorder_item_state w i new_parent new_index push_undo undo_desc :
  gimp_item_is_attached w i = true ->
  gimp_item_get_image w i = Some (tree_image w) ->
  (forall p, new_parent = Some p ->
     gimp_item_is_attached w p = true
     /\ gimp_item_get_image w p = Some (tree_image w)
     /\ is_Some (gimp_viewable_get_children w p)) ->
  let c := gimp_item_get_container w i in
  let dst := reorder_destination new_parent in
  let n := gimp_container_get_n_children w dst in
  let index := CLAMP new_index 0 (if decide (dst = c) then n - 1 else n) in
  let rest := if decide (dst = c) then remove_first i (container_items w c)
              else container_items w dst in
  let r := gimp_item_tree_reorder_item w i new_parent new_index push_undo
             undo_desc in
  snd r = true
  /\ 0 <= index <= Z.of_nat (length rest)
  /\ container_items (fst r) dst
     = take (Z.to_nat index) rest ++ i :: drop (Z.to_nat index) rest
  /\ (dst <> c ->
      container_items (fst r) c = remove_first i (container_items w c))
  /\ (forall c', c' <> c -> c' <> dst ->
        container_items (fst r) c' = container_items w c')
  /\ gimp_item_get_parent (fst r) i = new_parent
  /\ (forall q, q <> i ->
        gimp_item_get_parent (fst r) q = gimp_item_get_parent w q).
Proof.
  intros Hatt Himg Hpar c dst n index rest r.
  pose proof (reorder_item_checked w i new_parent new_index push_undo undo_desc
                Hatt Himg Hpar) as Hr.
  cbv zeta in Hr. fold c dst n index in Hr. fold r in Hr.
  pose proof (attached_in_container w i Hatt) as Hin. fold c in Hin.
  pose proof (attached_is_item w i Hatt) as Hitem.
  pose proof (attached_container_exists w i Hatt) as Hcex. fold c in Hcex.
  assert (Hidx : 0 <= gimp_item_get_index w i
                 < 0 + Z.of_nat (length (container_items w c)))
    by (apply index_from_bounds; exact Hin).
  assert (Hdex : match dst with
                 | Toplevel => True
                 | ChildrenOf p => GIMP_IS_ITEM w p = true
                 end).
  { subst dst. destruct new_parent as [p|]; [|exact I].
    destruct (Hpar p eq_refl) as (Hpa & _ & _). apply (attached_is_item w p Hpa). }
  assert (Hlen : 0 <= index <= Z.of_nat (length rest)).
  { subst index rest n. unfold gimp_container_get_n_children.
    destruct (decide (dst = c)) as [He|Hne].
    - rewrite He. pose proof (remove_first_length i _ Hin) as Hl.
      pose proof (CLAMP_bounds new_index
                    (Z.of_nat (length (container_items w c)) - 1)). lia.
    - apply CLAMP_bounds. lia. }
  assert (Hw1 : forall w1, w1 = (if push_undo
                           then gimp_image_undo_push_item_reorder w undo_desc i
                           else w) ->
            (forall k, container_items w1 k = container_items w k)
            /\ (forall q, gimp_item_get_parent w1 q = gimp_item_get_parent w q)
            /\ (forall q, GIMP_IS_ITEM w1 q = GIMP_IS_ITEM w q)).
  { intros w1 ->. destruct push_undo; repeat split; try reflexivity;
      intros k; apply container_items_undo. }
  destruct (decide (dst = c)) as [Hsame|Hdiff].
  - rewrite (bool_decide_eq_true_2 _ Hsame) in Hr. cbn [negb orb] in Hr.
    assert (Hpeq : gimp_item_get_parent w i = new_parent).
    { subst dst c. unfold gimp_item_get_container, reorder_destination in Hsame.
      destruct new_parent, (gimp_item_get_parent w i); congruence. }
    destruct (Z.eqb_spec index (gimp_item_get_index w i)) as [Heq|Hneq];
      cbn [negb] in Hr; rewrite Hr; cbn [fst snd].
    + split; [reflexivity|]. split; [exact Hlen|]. split.
      { subst rest. rewrite Heq, Hsame.
        pose proof (remove_first_insert_back i _ 0 Hin) as Hb.
        rewrite Z.sub_0_r in Hb. symmetry. exact Hb. }
      split; [intros; contradiction|]. split; [reflexivity|].
      split; [exact Hpeq|reflexivity].
    + cbv zeta.
      set (w1 := if push_undo
                 then gimp_image_undo_push_item_reorder w undo_desc i else w).
      destruct (Hw1 w1 eq_refl) as (Hc1 & Hp1 & Hi1).
      unfold gimp_container_reorder. rewrite Hc1.
      split; [reflexivity|]. split; [exact Hlen|]. split.
      { rewrite Hsame. rewrite container_items_set.
        - rewrite decide_True by reflexivity. subst rest. unfold insert_at.
          destruct (Z.ltb_spec index 0); [lia|reflexivity].
        - destruct c as [|p]; [exact I|]. rewrite Hi1. exact Hcex. }
      split; [intros; contradiction|]. split.
      { intros c' Hc' _. rewrite container_items_set_other by congruence.
        apply Hc1. }
      split.
      { rewrite get_parent_set_container_items, Hp1. exact Hpeq. }
      intros q _. rewrite get_parent_set_container_items. apply Hp1.
  - rewrite (bool_decide_eq_false_2 _ Hdiff) in Hr. cbn [negb orb] in Hr.
    cbv zeta in Hr. rewrite Hr. cbn [fst snd].
    set (w1 := if push_undo
               then gimp_image_undo_push_item_reorder w undo_desc i else w).
    destruct (Hw1 w1 eq_refl) as (Hc1 & Hp1 & Hi1).
    set (w2 := gimp_container_remove w1 c i).
    set (w3 := gimp_viewable_set_parent w2 i new_parent).
    assert (Hc2 : forall k, container_items w2 k
                            = if decide (k = c)
                              then remove_first i (container_items w c)
                              else container_items w k).
    { intros k. subst w2. unfold gimp_container_remove.
      rewrite container_items_set.
      - rewrite !Hc1. reflexivity.
      - destruct c as [|p]; [exact I|]. rewrite Hi1. exact Hcex. }
    assert (Hi3 : forall q, GIMP_IS_ITEM w3 q = GIMP_IS_ITEM w q).
    { intros q. subst w3 w2. unfold gimp_container_remove.
      rewrite is_item_set_parent, is_item_set_container_items. apply Hi1. }
    assert (Hd3 : match dst with
                  | Toplevel => True
                  | ChildrenOf p => GIMP_IS_ITEM w3 p = true
                  end)
      by (destruct dst as [|p]; [exact I|]; rewrite Hi3; exact Hdex).
    split; [reflexivity|]. split; [exact Hlen|]. split.
    { rewrite container_items_insert by exact Hd3.
      rewrite decide_True by reflexivity. subst w3.
      rewrite container_items_set_parent, Hc2.
      rewrite decide_False by exact Hdiff. subst rest. unfold insert_at.
      destruct (Z.ltb_spec index 0); [lia|reflexivity]. }
    split.
    { intros _. rewrite container_items_insert by exact Hd3.
      rewrite decide_False by congruence. subst w3.
      rewrite container_items_set_parent, Hc2.
      rewrite decide_True by reflexivity. reflexivity. }
    split.
    { intros c' Hc' Hd'. rewrite container_items_insert by exact Hd3.
      rewrite decide_False by exact Hd'. subst w3.
      rewrite container_items_set_parent, Hc2.
      rewrite decide_False by exact Hc'. reflexivity. }
    split.
    { unfold gimp_container_insert. rewrite get_parent_set_container_items.
      subst w3. apply get_parent_set_parent. subst w2.
      unfold gimp_container_remove. rewrite is_item_set_container_items, Hi1.
      exact Hitem. }
    intros q Hq. unfold gimp_container_insert.
    rewrite get_parent_set_container_items. subst w3.
    rewrite get_parent_set_parent_ne by exact Hq. subst w2.
    unfold gimp_container_remove. rewrite get_parent_set_container_items.
    apply Hp1.
Qed.

(** The names and the name index are none of what a removal or a move
    writes. *)
Lemma remove_item_keeps_names w i new_active q :
  gimp_object_get_name (fst (gimp_item_tree_remove_item w i new_active)) q
  = gimp_object_get_name w q.
Proof.
  unfold gimp_item_tree_remove_item.
  repeat (case_match; try reflexivity); cbn [fst];
    rewrite get_name_removed, ?get_name_set_parent;
    apply get_name_set_container_items.
Qed.

Lemma get_name_undo_reorder w s i q :
  gimp_object_get_name (gimp_image_undo_push_item_reorder w s i) q
  = gimp_object_get_name w q.
Proof. reflexivity. Qed.

Lemma reorder_item_keeps_names w i new_parent new_index push_undo undo_desc q :
  gimp_object_get_name
    (fst (gimp_item_tree_reorder_item w i new_parent new_index push_undo
            undo_desc)) q
  = gimp_object_get_name w q.
Proof.
  unfold gimp_item_tree_reorder_item.
  repeat (case_match; try reflexivity); cbn [fst];
    unfold gimp_container_insert, gimp_container_reorder, gimp_container_remove;
    rewrite ?get_name_set_container_items, ?get_name_set_parent,
      ?get_name_set_container_items; reflexivity.
Qed.

Lemma reorder_item_keeps_index w i new_parent new_index push_undo undo_desc :
  name_hash
    (fst (gimp_item_tree_reorder_item w i new_parent new_index push_undo
            undo_desc)) = name_hash w
  /\ active_item
       (fst (gimp_item_tree_reorder_item w i new_parent new_index push_undo
               undo_desc)) = active_item w.
Proof.
  unfold gimp_item_tree_reorder_item.
  repeat (case_match; try (split; reflexivity)); cbn [fst];
    unfold gimp_container_insert, gimp_container_reorder, gimp_container_remove;
    rewrite ?name_hash_set_container_items, ?active_item_set_container_items;
    cbn [gimp_viewable_set_parent with_heap name_hash active_item];
    rewrite ?name_hash_set_container_items, ?active_item_set_container_items;
    split; reflexivity.
Qed.

(** X17.  A move that passes the checks of [gimp_item_tree_reorder_item]
    keeps the order of the other children: the destination holds the
    children it had, the item itself apart, in the order they had, with
    the item at the clamped index; the container the item leaves holds its
    other children in their order; every other container, the parent of
    every other item, the names, the name index and the active item are as
    they were, and the parent of the item is the new parent. *)
Theorem reorder_item_keeps_order w i new_parent new_index push_undo undo_desc :
  gimp_item_is_attached w i = true ->
  gimp_item_get_image w i = Some (tree_image w) ->
  (forall p, new_parent = Some p ->
     gimp_item_is_attached w p = true
     /\ gimp_item_get_image w p = Some (tree_image w)
     /\ is_Some (gimp_viewable_get_children w p)) ->
  let c := gimp_item_get_container w i in
  let dst := reorder_destination new_parent in
  let n := gimp_container_get_n_children w dst in
  let index := CLAMP new_index 0 (if decide (dst = c) then n - 1 else n) in
  let rest := if decide (dst = c) then remove_first i (container_items w c)
              else container_items w dst in
  let r := gimp_item_tree_reorder_item w i new_parent new_index push_undo
             undo_desc in
  container_items (fst r) dst
  = take (Z.to_nat index) rest ++ i :: drop (Z.to_nat index) rest
  /\ (dst <> c ->
      container_items (fst r) c = remove_first i (container_items w c))
  /\ (forall c', c' <> c -> c' <> dst ->
        container_items (fst r) c' = container_items w c')
  /\ gimp_item_get_parent (fst r) i = new_parent
  /\ (forall q, q <> i ->
        gimp_item_get_parent (fst r) q = gimp_item_get_parent w q)
  /\ (forall q, gimp_object_get_name (fst r) q = gimp_object_get_name w q)
  /\ name_hash (fst r) = name_hash w
  /\ active_item (fst r) = active_item w.
Proof.
  intros Hatt Himg Hpar c dst n index rest r.
  destruct (reorder_item_state w i new_parent new_index push_undo undo_desc
              Hatt Himg Hpar) as (_ & _ & H1 & H2 & H3 & H4 & H5).
  destruct (reorder_item_keeps_index w i new_parent new_index push_undo
              undo_desc) as [H6 H7].
  repeat (split; [assumption|]).
  split; [|split; assumption].
  intros q. apply reorder_item_keeps_names.
Qed.

(** X18.  [gimp_item_tree_reorder_item] does not refuse to move an item
    into itself: for an attached item that has children and is asked to
    become its own parent the call returns [TRUE], the item is taken out
    of the container it was in and put among its own children, and it is
    its own parent. *)
Theorem reorder_item_into_itself w i new_index push_undo undo_desc :
  gimp_item_is_attached w i = true ->
  gimp_item_get_image w i = Some (tree_image w) ->
  is_Some (gimp_viewable_get_children w i) ->
  let r := gimp_item_tree_reorder_item w i (Some i) new_index push_undo
             undo_desc in
  snd r = true
  /\ gimp_item_get_parent (fst r) i = Some i
  /\ i ∈ container_items (fst r) (ChildrenOf i)
  /\ container_items (fst r) (gimp_item_get_container w i)
     = remove_first i (container_items w (gimp_item_get_container w i)).
Proof.
  intros Hatt Himg Hc r.
  assert (Hpar : forall p, Some i = Some p ->
            gimp_item_is_attached w p = true
            /\ gimp_item_get_image w p = Some (tree_image w)
            /\ is_Some (gimp_viewable_get_children w p)).
  { intros p [= <-]. repeat split; assumption. }
  assert (Hne : reorder_destination (Some i) <> gimp_item_get_container w i).
  { cbn. unfold gimp_item_get_container.
    pose proof (attached_not_own_parent w i Hatt) as Hown.
    destruct (gimp_item_get_parent w i); congruence. }
  destruct (reorder_item_state w i (Some i) new_index push_undo undo_desc
              Hatt Himg Hpar) as (H0 & _ & H1 & H2 & _ & H4 & _).
  fold r in H0, H1, H2, H4.
  split; [exact H0|]. split; [exact H4|]. split.
  - cbn [reorder_destination] in H1. rewrite H1.
    apply elem_of_app. right. apply list_elem_of_here.
  - apply H2, Hne.
Qed.

(** ** The name index *)

Lemma uniquefy_name_sound fuel w i new_name w' :
  GIMP_IS_ITEM w i = true ->
  name_index_sound w ->
  (new_name = None -> forall s, name_hash w !! s <> Some i) ->
  gimp_item_tree_uniquefy_name fuel w i new_name = Some w' ->
  (forall s j, name_hash w' !! s = Some j -> gimp_object_get_name w' j = s).
Proof.
  intros Hitem Hsound Hnew Hw'.
  destruct (uniquefy_name_result fuel w i new_name w' Hitem Hw')
    as (s0 & _ & _ & Hhash & Hnames & _).
  cbv zeta in Hhash. intros s j Hs. rewrite Hhash in Hs. rewrite Hnames.
  destruct (decide (s = s0)) as [->|Hne].
  - rewrite lookup_insert_eq in Hs. injection Hs as <-.
    rewrite decide_True by reflexivity. reflexivity.
  - rewrite lookup_insert_ne in Hs by congruence.
    assert (Hw : name_hash w !! s = Some j).
    { destruct new_name; [|exact Hs].
      apply lookup_delete_Some in Hs. apply Hs. }
    destruct (decide (j = i)) as [->|Hji]; [|apply Hsound, Hw].
    exfalso. destruct new_name as [n|].
    + apply lookup_delete_Some in Hs as [Hd _]. apply Hd.
      apply Hsound, Hw.
    + apply (Hnew eq_refl s), Hw.
Qed.

(** X19.  The operations of the tree keep the name index sound: when every
    key of the index is the name of the item it maps to, this is so again
    after an item that no key maps to is added, and after any item is
    removed, moved or renamed. *)
Theorem operations_keep_name_index_sound w :
  name_index_sound w ->
  (forall fuel i new_parent position w',
     (forall s, gimp_item_tree_get_item_by_name w s <> Some i) ->
     gimp_item_tree_add_item fuel w i new_parent position = Some w' ->
     name_index_sound w')
  /\ (forall i new_active,
        name_index_sound (fst (gimp_item_tree_remove_item w i new_active)))
  /\ (forall i new_parent new_index push_undo undo_desc,
        name_index_sound
          (fst (gimp_item_tree_reorder_item w i new_parent new_index push_undo
                  undo_desc)))
  /\ (forall fuel i new_name push_undo undo_desc w',
        gimp_item_tree_rename_item fuel w i new_name push_undo undo_desc
        = Some w' ->
        name_index_sound w').
Proof.
  intros Hsound. split; [|split; [|split]].
  - intros fuel i new_parent position w' Hfree.
    unfold gimp_item_tree_add_item.
    destruct (GIMP_IS_ITEM w i) eqn:Hitem; cbn [negb];
      [|intros [= <-]; exact Hsound].
    destruct (gimp_item_is_attached w i); [intros [= <-]; exact Hsound|].
    destruct (bool_decide _); cbn [negb]; [|intros [= <-]; exact Hsound].
    destruct (gimp_item_tree_uniquefy_name fuel w i None) as [w1|] eqn:Hw1;
      [|discriminate].
    pose proof (uniquefy_name_sound fuel w i None w1 Hitem Hsound
                  (fun _ => Hfree) Hw1) as H1.
    cbv zeta. intros Hw'. intros s j.
    unfold gimp_item_tree_get_item_by_name.
    destruct new_parent as [p|];
      [destruct (gimp_viewable_get_children w1 p)|];
      injection Hw' as <-; unfold gimp_container_insert;
      rewrite ?name_hash_set_container_items, ?get_name_set_container_items,
        ?get_name_set_parent; apply H1.
  - intros i new_active s j. unfold gimp_item_tree_get_item_by_name.
    rewrite remove_item_keeps_name_hash, remove_item_keeps_names.
    apply Hsound.
  - intros i new_parent new_index push_undo undo_desc s j.
    unfold gimp_item_tree_get_item_by_name.
    rewrite (proj1 (reorder_item_keeps_index _ _ _ _ _ _)),
      reorder_item_keeps_names.
    apply Hsound.
  - intros fuel i new_name push_undo undo_desc w'.
    unfold gimp_item_tree_rename_item.
    destruct (GIMP_IS_ITEM w i) eqn:Hitem; cbn [negb];
      [|intros [= <-]; exact Hsound].
    destruct (gimp_item_is_attached w i); cbn [negb];
      [|intros [= <-]; exact Hsound].
    destruct (bool_decide _); cbn [negb]; [|intros [= <-]; exact Hsound].
    destruct (String.eqb _ _); cbn [negb]; [intros [= <-]; exact Hsound|].
    intros Hw'. intros s j. unfold gimp_item_tree_get_item_by_name.
    apply (uniquefy_name_sound fuel
             (if push_undo
              then gimp_image_undo_push_item_rename w undo_desc i else w)
             i (Some new_name) w'); try exact Hw'.
    + destruct push_undo; exact Hitem.
    + destruct push_undo; exact Hsound.
    + discriminate.
Qed.

(** ** The checks *)

(** X20.  A call whose checks fail changes nothing: an item that is
    attached or of another image is not added, and an item that is not
    attached or of another image is neither removed, moved nor renamed;
    the removal returns null and the move [FALSE]. *)
Theorem failed_checks_change_nothing w i :
  (gimp_item_is_attached w i = true
   \/ gimp_item_get_image w i <> Some (tree_image w) ->
   forall fuel new_parent position,
     gimp_item_tree_add_item fuel w i new_parent position = Some w)
  /\ (gimp_item_is_attached w i = false
      \/ gimp_item_get_image w i <> Some (tree_image w) ->
      (forall new_active,
         gimp_item_tree_remove_item w i new_active = (w, None))
      /\ (forall new_parent new_index push_undo undo_desc,
            gimp_item_tree_reorder_item w i new_parent new_index push_undo
              undo_desc = (w, false))
      /\ (forall fuel new_name push_undo undo_desc,
            gimp_item_tree_rename_item fuel w i new_name push_undo undo_desc
            = Some w)).
Proof.
  split.
  - intros H fuel new_parent position. unfold gimp_item_tree_add_item.
    destruct (GIMP_IS_ITEM w i); [|reflexivity]. cbn [negb].
    destruct (gimp_item_is_attached w i); [reflexivity|].
    destruct H as [H|H]; [discriminate|].
    rewrite (bool_decide_eq_false_2 _ H). reflexivity.
  - intros H.
    assert (Hg : GIMP_IS_ITEM w i = false
                 \/ gimp_item_is_attached w i = false
                 \/ bool_decide (gimp_item_get_image w i = Some (tree_image w))
                    = false).
    { destruct H as [H|H]; [right; left; exact H|].
      right. right. apply bool_decide_eq_false_2, H. }
    split; [|split].
    + intros new_active. unfold gimp_item_tree_remove_item.
      destruct Hg as [->|[Hg|Hg]]; [reflexivity| |];
        destruct (GIMP_IS_ITEM w i); try reflexivity; rewrite Hg;
        try reflexivity.
      destruct (gimp_item_is_attached w i); reflexivity.
    + intros new_parent new_index push_undo undo_desc.
      unfold gimp_item_tree_reorder_item.
      destruct Hg as [->|[Hg|Hg]]; [reflexivity| |];
        destruct (GIMP_IS_ITEM w i); try reflexivity; rewrite Hg;
        try reflexivity.
      destruct (gimp_item_is_attached w i); reflexivity.
    + intros fuel new_name push_undo undo_desc.
      unfold gimp_item_tree_rename_item.
      destruct Hg as [->|[Hg|Hg]]; [reflexivity| |];
        destruct (GIMP_IS_ITEM w i); try reflexivity; rewrite Hg;
        try reflexivity.
      destruct (gimp_item_is_attached w i); reflexivity.
Qed.

(** ** The active item *)

Lemma attached_within_ext w w' :
  (forall q, gimp_item_get_parent w' q = gimp_item_get_parent w q) ->
  (forall c, container_items w' c = container_items w c) ->
  forall f p, attached_within f w' p = attached_within f w p.
Proof.
  intros Hpar Hitems. induction f as [|f IH]; intros p; [reflexivity|].
  cbn [attached_within]. rewrite Hpar.
  destruct (gimp_item_get_parent w p) as [q|].
  - rewrite IH, Hitems. reflexivity.
  - change (container w') with (container_items w' Toplevel).
    rewrite Hitems. reflexivity.
Qed.

Lemma is_attached_with_active_item w a p :
  gimp_item_is_attached (with_active_item a w) p = gimp_item_is_attached w p.
Proof.
  unfold gimp_item_is_attached. f_equal.
  apply attached_within_ext; [reflexivity|]. intros c. destruct c; reflexivity.
Qed.

(** X21.  Whatever the tree, [gimp_item_tree_set_active_item] makes null
    or an attached item of the tree's image the active item and leaves the
    active item as it was for any other item, and it writes nothing else:
    the image, the items, the containers, the name index and the undo
    stack are as they were.  So an active item that is null, or attached
    and of the tree's image, stays so. *)
Theorem set_active_item_keeps_valid w i :
  gimp_item_tree_get_active_item (gimp_item_tree_set_active_item w i)
  = match i with
    | None => None
    | Some a =>
        if gimp_item_is_attached w a
           && bool_decide (gimp_item_get_image w a = Some (tree_image w))
        then Some a else gimp_item_tree_get_active_item w
    end
  /\ tree_image (gimp_item_tree_set_active_item w i) = tree_image w
  /\ heap (gimp_item_tree_set_active_item w i) = heap w
  /\ container (gimp_item_tree_set_active_item w i) = container w
  /\ name_hash (gimp_item_tree_set_active_item w i) = name_hash w
  /\ undo_stack (gimp_item_tree_set_active_item w i) = undo_stack w
  /\ (active_item_valid w ->
      active_item_valid (gimp_item_tree_set_active_item w i)).
Proof.
  unfold gimp_item_tree_set_active_item.
  destruct i as [a|].
  - destruct (gimp_item_is_attached w a) eqn:Hatt.
    + rewrite (attached_is_item w a Hatt). cbn [andb].
      destruct (bool_decide (gimp_item_get_image w a = Some (tree_image w)))
        eqn:Himg; cbn [negb].
      * destruct (bool_decide (Some a = active_item w)) eqn:Hact.
        -- apply bool_decide_eq_true in Hact.
           unfold gimp_item_tree_get_active_item. rewrite <- Hact.
           do 6 (split; [reflexivity|]). intros Hvalid. exact Hvalid.
        -- do 6 (split; [reflexivity|]). intros _.
           apply bool_decide_eq_true in Himg. unfold active_item_valid. cbn.
           rewrite is_attached_with_active_item.
           split; [exact Hatt|exact Himg].
      * do 6 (split; [reflexivity|]). intros Hvalid. exact Hvalid.
    + rewrite andb_false_r. cbn [negb andb].
      do 6 (split; [reflexivity|]). intros Hvalid. exact Hvalid.
  - cbn [negb]. destruct (bool_decide (None = active_item w)) eqn:Hact.
    + apply bool_decide_eq_true in Hact.
      unfold gimp_item_tree_get_active_item. rewrite <- Hact.
      do 6 (split; [reflexivity|]). intros Hvalid. exact Hvalid.
    + do 6 (split; [reflexivity|]). intros _. exact I.
Qed.

(** ** The stem of a name *)

Lemma strrchr_Some s c : forall pre ext1,
  strrchr s c = Some (pre, ext1) -> s = pre +:+ String c ext1.
Proof.
  induction s as [|a s IH]; intros pre ext1; cbn [strrchr]; [discriminate|].
  destruct (strrchr s c) as [[pre' ext']|] eqn:Hs.
  - intros [= <- <-]. change (String a s = String a (pre' +:+ String c ext')).
    f_equal. apply IH. reflexivity.
  - destruct (Ascii.eqb_spec a c) as [->|_]; [|discriminate].
    intros [= <- <-]. reflexivity.
Qed.

(** One turn of the loop keeps the name up to its last [#], or the whole
    name. *)
Lemma next_name_stem s :
  exists stem k,
    gint_range k
    /\ next_name s = stem +:+ String "#" (printf_d k)
    /\ (stem = s
        \/ exists ext1, s = stem +:+ String "#" ext1
                        /\ ext1 = printf_d (atoi ext1)).
Proof.
  unfold next_name. destruct (strrchr s "#") as [[stem ext1]|] eqn:Hs.
  - destruct (String.eqb_spec (printf_d (atoi ext1)) ext1) as [He|_].
    + exists stem, (gint_wrap (atoi ext1 + 1)).
      split; [apply gint_wrap_range|]. split; [reflexivity|]. right.
      exists ext1. split; [apply strrchr_Some, Hs|congruence].
    + exists s, (gint_wrap (0 + 1)).
      split; [apply gint_wrap_range|]. split; [reflexivity|]. left. reflexivity.
  - exists s, (gint_wrap (0 + 1)).
    split; [apply gint_wrap_range|]. split; [reflexivity|]. left. reflexivity.
Qed.

Lemma uniquefy_loop_name_at (hash : gmap string item) fuel : forall s s',
  uniquefy_loop fuel hash s = Some s' ->
  exists i, (i <= fuel)%nat /\ s' = name_at s i.
Proof.
  induction fuel as [|fuel IH]; intros s s'; cbn [uniquefy_loop];
    destruct (hash !! s) as [x|]; try discriminate.
  - intros [= <-]. exists 0%nat. split; [lia|reflexivity].
  - intros H. destruct (IH _ _ H) as (i & Hi & ->).
    exists (S i). split; [lia|]. symmetry. apply name_at_S.
  - intros [= <-]. exists 0%nat. split; [lia|reflexivity].
Qed.

(** X23.  The name the loop of the name collisions ends with is the name
    it started from, or a stem, [#] and the decimal form of a [gint],
    where the stem is the whole name it started from, or that name without
    its last [#] and the number in decimal form that follows it: the loop
    rewrites nothing before the last [#] of a name. *)
Theorem uniquefied_name_keeps_stem (hash : gmap string item) fuel s s' :
  uniquefy_loop fuel hash s = Some s' ->
  s' = s
  \/ exists stem k,
       gint_range k
       /\ s' = stem +:+ String "#" (printf_d k)
       /\ (stem = s
           \/ exists ext1, s = stem +:+ String "#" ext1
                           /\ ext1 = printf_d (atoi ext1)).
Proof.
  intros Hloop.
  destruct (uniquefy_loop_name_at hash fuel s s' Hloop) as (i & _ & ->).
  destruct i as [|i]; [left; reflexivity|]. right.
  destruct (next_name_stem s) as (stem & k & Hk & Hnext & Hstem).
  exists stem, (gint_wrap (k + Z.of_nat i)).
  split; [apply gint_wrap_range|]. split.
  - rewrite name_at_S, Hnext. apply name_at_numbered, Hk.
  - exact Hstem.
Qed.

(** ** The theorems at work *)

Lemma spare_item_outside : forall c, 5%nat ∉ container_items spare_tree c.
Proof.
  intros [|p].
  - vm_compute. intros H.
    repeat (apply elem_of_cons in H as [H|H]; [discriminate|]).
    apply elem_of_nil in H. exact H.
  - cbn [container_items].
    destruct (heap spare_tree !! p) as [o|] eqn:Ho; [|apply not_elem_of_nil].
    assert (M : map_Forall
                  (fun (p : item) (o : GimpItem) =>
                     5%nat ∉ default [] (children o)) (heap spare_tree))
      by (refine (bool_decide_unpack _ _); vm_compute; exact I).
    apply (M p o Ho).
Qed.

(** A is the active item: a new item goes into G, at the index 0 of A. *)
Lemma insert_pos_on_top_of_active_item_witness :
  active_item spare_tree = Some 2%nat
  /\ gimp_viewable_get_children spare_tree 2%nat = None
  /\ gimp_item_is_attached spare_tree 2%nat = true
  /\ gimp_item_tree_get_insert_pos spare_tree GIMP_IMAGE_ACTIVE_PARENT (-1)
     = (gimp_item_get_parent spare_tree 2%nat,
        gimp_item_get_index spare_tree 2%nat).
Proof.
  assert (H1 : active_item spare_tree = Some 2%nat) by reflexivity.
  assert (H2 : gimp_viewable_get_children spare_tree 2%nat = None)
    by (vm_compute; reflexivity).
  assert (H3 : gimp_item_is_attached spare_tree 2%nat = true)
    by (vm_compute; reflexivity).
  split; [exact H1|]. split; [exact H2|]. split; [exact H3|].
  exact (insert_pos_on_top_of_active_item spare_tree 2%nat H1 H2 H3).
Defined.

(** G is the active item: a new item goes into G at the index 0. *)
Lemma insert_pos_into_active_group_witness :
  active_item group_active_tree = Some 1%nat
  /\ gimp_viewable_get_children group_active_tree 1%nat
     = Some (ChildrenOf 1%nat)
  /\ gimp_item_tree_get_insert_pos group_active_tree
       GIMP_IMAGE_ACTIVE_PARENT 7 = (Some 1%nat, 0).
Proof.
  assert (H1 : active_item group_active_tree = Some 1%nat) by reflexivity.
  assert (H2 : gimp_viewable_get_children group_active_tree 1%nat
               = Some (ChildrenOf 1%nat)) by (vm_compute; reflexivity).
  split; [exact H1|]. split; [exact H2|].
  exact (insert_pos_into_active_group group_active_tree 1%nat
           (ChildrenOf 1%nat) 7 H1 H2).
Defined.

Lemma spare_item_checks :
  GIMP_IS_ITEM spare_tree 5%nat = true
  /\ gimp_item_is_attached spare_tree 5%nat = false
  /\ gimp_item_get_image spare_tree 5%nat = Some (tree_image spare_tree)
  /\ Z.of_nat (size (name_hash spare_tree)) < 2 ^ 32
  /\ (S (size (name_hash spare_tree)) <= 8)%nat.
Proof.
  split; [vm_compute; reflexivity|]. split; [vm_compute; reflexivity|].
  split; [vm_compute; reflexivity|]. split; [vm_compute; reflexivity|].
  vm_compute. lia.
Qed.


Lemma add_item_places_item_witness :
  GIMP_IS_ITEM spare_tree 5%nat = true
  /\ gimp_item_is_attached spare_tree 5%nat = false
  /\ gimp_item_get_image spare_tree 5%nat = Some (tree_image spare_tree)
  /\ Z.of_nat (size (name_hash spare_tree)) < 2 ^ 32
  /\ (S (size (name_hash spare_tree)) <= 8)%nat
  /\ children_or_toplevel spare_tree (Some 1%nat) = Some (ChildrenOf 1%nat)
  /\ 0 <= 1 <= gimp_container_get_n_children spare_tree (ChildrenOf 1%nat)
  /\ exists w',
       gimp_item_tree_add_item 8 spare_tree 5%nat (Some 1%nat) 1 = Some w'
       /\ container_items w' (ChildrenOf 1%nat)
          = take (Z.to_nat 1) (container_items spare_tree (ChildrenOf 1%nat))
            ++ 5%nat
               :: drop (Z.to_nat 1)
                    (container_items spare_tree (ChildrenOf 1%nat))
       /\ (forall c', c' <> ChildrenOf 1%nat ->
             container_items w' c' = container_items spare_tree c')
       /\ gimp_item_get_parent w' 5%nat = Some 1%nat
       /\ active_item w' = active_item spare_tree.
Proof.
  destruct spare_item_checks as (H1 & H2 & H3 & H4 & H5).
  assert (H6 : children_or_toplevel spare_tree (Some 1%nat)
               = Some (ChildrenOf 1%nat)) by (vm_compute; reflexivity).
  assert (H7 : 0 <= 1 <= gimp_container_get_n_children spare_tree
                             (ChildrenOf 1%nat))
    by (vm_compute; split; discriminate).
  repeat (split; [assumption|]).
  exact (add_item_places_item 8 spare_tree 5%nat (Some 1%nat) 1
           (ChildrenOf 1%nat) H1 H2 H3 H4 H5 H6 H7).
Defined.

(** The spare item, added on top of the active item A. *)
Lemma add_item_at_insert_pos_witness :
  active_item spare_tree = Some 2%nat
  /\ gimp_viewable_get_children spare_tree 2%nat = None
  /\ gimp_item_is_attached spare_tree 2%nat = true
  /\ GIMP_IS_ITEM spare_tree 5%nat = true
  /\ gimp_item_is_attached spare_tree 5%nat = false
  /\ gimp_item_get_image spare_tree 5%nat = Some (tree_image spare_tree)
  /\ Z.of_nat (size (name_hash spare_tree)) < 2 ^ 32
  /\ (S (size (name_hash spare_tree)) <= 8)%nat
  /\ exists w',
       gimp_item_tree_add_item 8 spare_tree 5%nat
         (fst (gimp_item_tree_get_insert_pos spare_tree
                 GIMP_IMAGE_ACTIVE_PARENT (-1)))
         (snd (gimp_item_tree_get_insert_pos spare_tree
                 GIMP_IMAGE_ACTIVE_PARENT (-1)))
       = Some w'
       /\ container_items w' (gimp_item_get_container spare_tree 2%nat)
            !! Z.to_nat (gimp_item_get_index spare_tree 2%nat) = Some 5%nat
       /\ container_items w' (gimp_item_get_container spare_tree 2%nat)
            !! S (Z.to_nat (gimp_item_get_index spare_tree 2%nat))
          = Some 2%nat
       /\ length (container_items w' (gimp_item_get_container spare_tree 2%nat))
          = S (length (container_items spare_tree
                         (gimp_item_get_container spare_tree 2%nat))).
Proof.
  assert (A1 : active_item spare_tree = Some 2%nat) by reflexivity.
  assert (A2 : gimp_viewable_get_children spare_tree 2%nat = None)
    by (vm_compute; reflexivity).
  assert (A3 : gimp_item_is_attached spare_tree 2%nat = true)
    by (vm_compute; reflexivity).
  destruct spare_item_checks as (H1 & H2 & H3 & H4 & H5).
  repeat (split; [assumption|]).
  exact (add_item_at_insert_pos 8 spare_tree 2%nat 5%nat A1 A2 A3
           H1 H2 H3 H4 H5).
Defined.

(** The removal of A from the group G. *)
Lemma remove_item_detaches_item_witness :
  gimp_item_is_attached group_tree 2%nat = true
  /\ gimp_item_get_image group_tree 2%nat = Some (tree_image group_tree)
  /\ (forall c,
        container_items (fst (gimp_item_tree_remove_item group_tree 2%nat None)) c
        = if decide (c = gimp_item_get_container group_tree 2%nat)
          then remove_first 2%nat (container_items group_tree c)
          else container_items group_tree c)
  /\ gimp_item_get_parent
       (fst (gimp_item_tree_remove_item group_tree 2%nat None)) 2%nat = None
  /\ (forall q, q <> 2%nat ->
        gimp_item_get_parent
          (fst (gimp_item_tree_remove_item group_tree 2%nat None)) q
        = gimp_item_get_parent group_tree q)
  /\ (forall q,
        gimp_object_get_name
          (fst (gimp_item_tree_remove_item group_tree 2%nat None)) q
        = gimp_object_get_name group_tree q)
  /\ (forall q,
        GIMP_IS_ITEM (fst (gimp_item_tree_remove_item group_tree 2%nat None)) q
        = GIMP_IS_ITEM group_tree q)
  /\ removed
       <$> heap (fst (gimp_item_tree_remove_item group_tree 2%nat None))
           !! 2%nat = Some true
  /\ name_hash (fst (gimp_item_tree_remove_item group_tree 2%nat None))
     = name_hash group_tree
  /\ active_item (fst (gimp_item_tree_remove_item group_tree 2%nat None))
     = active_item group_tree
  /\ undo_stack (fst (gimp_item_tree_remove_item group_tree 2%nat None))
     = undo_stack group_tree.
Proof.
  assert (H1 : gimp_item_is_attached group_tree 2%nat = true)
    by (vm_compute; reflexivity).
  assert (H2 : gimp_item_get_image group_tree 2%nat
               = Some (tree_image group_tree)) by (vm_compute; reflexivity).
  split; [exact H1|]. split; [exact H2|].
  exact (remove_item_detaches_item group_tree 2%nat None H1 H2).
Defined.

Lemma active_item_listed_once :
  (forall c, 2%nat ∈ container_items spare_tree c ->
             c = gimp_item_get_container spare_tree 2%nat)
  /\ 2%nat ∉ remove_first 2%nat
               (container_items spare_tree
                  (gimp_item_get_container spare_tree 2%nat)).
Proof.
  split.
  - intros [|p].
    + vm_compute. intros H.
      repeat (apply elem_of_cons in H as [H|H]; [discriminate|]).
      apply elem_of_nil in H. destruct H.
    + cbn [container_items].
      destruct (heap spare_tree !! p) as [o|] eqn:Ho;
        [|intros H; apply elem_of_nil in H; destruct H].
      assert (M : map_Forall
                    (fun (p : item) (o : GimpItem) =>
                       2%nat ∈ default [] (children o) -> p = 1%nat)
                    (heap spare_tree))
        by (refine (bool_decide_unpack _ _); vm_compute; exact I).
      cbn. intros H. rewrite (M p o Ho H). vm_compute. reflexivity.
  - vm_compute. intros H.
    repeat (apply elem_of_cons in H as [H|H]; [discriminate|]).
    apply elem_of_nil in H. exact H.
Qed.

(** The removal of the active item A. *)
Lemma remove_item_keeps_active_item_witness :
  gimp_item_is_attached spare_tree 2%nat = true
  /\ gimp_item_get_image spare_tree 2%nat = Some (tree_image spare_tree)
  /\ gimp_item_tree_get_active_item spare_tree = Some 2%nat
  /\ gimp_item_tree_get_active_item
       (fst (gimp_item_tree_remove_item spare_tree 2%nat None)) = Some 2%nat
  /\ gimp_item_is_attached
       (fst (gimp_item_tree_remove_item spare_tree 2%nat None)) 2%nat = false.
Proof.
  assert (H1 : gimp_item_is_attached spare_tree 2%nat = true)
    by (vm_compute; reflexivity).
  assert (H2 : gimp_item_get_image spare_tree 2%nat
               = Some (tree_image spare_tree)) by (vm_compute; reflexivity).
  assert (H3 : gimp_item_tree_get_active_item spare_tree = Some 2%nat)
    by reflexivity.
  destruct active_item_listed_once as [H4 H5].
  split; [exact H1|]. split; [exact H2|]. split; [exact H3|].
  exact (remove_item_keeps_active_item spare_tree 2%nat None H1 H2 H3 H4 H5).
Defined.

(** The spare item, added to G at the index 1 and removed again. *)
Lemma add_then_remove_restores_containers_witness :
  GIMP_IS_ITEM spare_tree 5%nat = true
  /\ gimp_item_get_image spare_tree 5%nat = Some (tree_image spare_tree)
  /\ Z.of_nat (size (name_hash spare_tree)) < 2 ^ 32
  /\ (S (size (name_hash spare_tree)) <= 8)%nat
  /\ children_or_toplevel spare_tree (Some 1%nat) = Some (ChildrenOf 1%nat)
  /\ 0 <= 1 <= gimp_container_get_n_children spare_tree (ChildrenOf 1%nat)
  /\ gimp_item_is_attached spare_tree 1%nat = true
  /\ exists w',
       gimp_item_tree_add_item 8 spare_tree 5%nat (Some 1%nat) 1 = Some w'
       /\ gimp_item_is_attached w' 5%nat = true
       /\ (forall c0,
             container_items (fst (gimp_item_tree_remove_item w' 5%nat None)) c0
             = container_items spare_tree c0)
       /\ gimp_item_get_parent
            (fst (gimp_item_tree_remove_item w' 5%nat None)) 5%nat = None
       /\ gimp_item_is_attached
            (fst (gimp_item_tree_remove_item w' 5%nat None)) 5%nat = false
       /\ gimp_item_tree_get_item_by_name
            (fst (gimp_item_tree_remove_item w' 5%nat None))
            (gimp_object_get_name
               (fst (gimp_item_tree_remove_item w' 5%nat None)) 5%nat)
          = Some 5%nat.
Proof.
  destruct spare_item_checks as (H1 & _ & H3 & H4 & H5).
  assert (H6 : children_or_toplevel spare_tree (Some 1%nat)
               = Some (ChildrenOf 1%nat)) by (vm_compute; reflexivity).
  assert (H7 : 0 <= 1 <= gimp_container_get_n_children spare_tree
                             (ChildrenOf 1%nat))
    by (vm_compute; split; discriminate).
  assert (H8 : gimp_item_is_attached spare_tree 1%nat = true)
    by (vm_compute; reflexivity).
  repeat (split; [assumption|]).
  exact (add_then_remove_restores_containers 8 spare_tree 5%nat (Some 1%nat) 1
           (ChildrenOf 1%nat) H1 spare_item_outside H3 H4 H5 H6 H7 H8).
Defined.

(** C is renamed A, the name of another item. *)
Lemma rename_item_reindexes_witness :
  gimp_item_is_attached group_tree 4%nat = true
  /\ gimp_item_get_image group_tree 4%nat = Some (tree_image group_tree)
  /\ "A" <> gimp_object_get_name group_tree 4%nat
  /\ Z.of_nat (size (name_hash group_tree)) < 2 ^ 32
  /\ (S (size (name_hash group_tree)) <= 8)%nat
  /\ exists w',
       gimp_item_tree_rename_item 8 group_tree 4%nat "A" true "rename"
       = Some w'
       /\ gimp_item_tree_get_item_by_name w' (gimp_object_get_name w' 4%nat)
          = Some 4%nat
       /\ (gimp_item_tree_get_item_by_name group_tree "A" = None ->
           gimp_object_get_name w' 4%nat = "A")
       /\ (gimp_object_get_name w' 4%nat
           <> gimp_object_get_name group_tree 4%nat ->
           gimp_item_tree_get_item_by_name group_tree
             (gimp_object_get_name w' 4%nat) = None
           /\ gimp_item_tree_get_item_by_name w'
                (gimp_object_get_name group_tree 4%nat) = None)
       /\ (forall s, s <> gimp_object_get_name w' 4%nat ->
             s <> gimp_object_get_name group_tree 4%nat ->
             gimp_item_tree_get_item_by_name w' s
             = gimp_item_tree_get_item_by_name group_tree s)
       /\ (forall j, j <> 4%nat ->
             gimp_object_get_name w' j = gimp_object_get_name group_tree j)
       /\ undo_stack w'
          = (if true then [UndoItemRename "rename" 4%nat] else [])
            ++ undo_stack group_tree
       /\ (forall c, container_items w' c = container_items group_tree c)
       /\ active_item w' = active_item group_tree.
Proof.
  assert (H1 : gimp_item_is_attached group_tree 4%nat = true)
    by (vm_compute; reflexivity).
  assert (H2 : gimp_item_get_image group_tree 4%nat
               = Some (tree_image group_tree)) by (vm_compute; reflexivity).
  assert (H3 : "A" <> gimp_object_get_name group_tree 4%nat)
    by (vm_compute; discriminate).
  assert (H4 : Z.of_nat (size (name_hash group_tree)) < 2 ^ 32)
    by (vm_compute; reflexivity).
  assert (H5 : (S (size (name_hash group_tree)) <= 8)%nat)
    by (vm_compute; lia).
  repeat (split; [assumption|]).
  exact (rename_item_reindexes 8 group_tree 4%nat "A" true "rename"
           H1 H2 H3 H4 H5).
Defined.

(** The name the item C gets when it asks for the name A, and the name an
    item gets back when the name it asks for is taken and its old name is
    the next one in line. *)
Example rename_to_taken_name :
  option_map (fun w => gimp_object_get_name w 4%nat)
    (gimp_item_tree_rename_item 8 group_tree 4%nat "A" true "rename")
  = Some "A#1"
  /\ option_map (fun w => (gimp_object_get_name w 2%nat, undo_stack w))
       (w ← twice "Layer";
        gimp_item_tree_rename_item 8 w 2%nat "Layer" true "rename")
     = Some ("Layer#1", [UndoItemRename "rename" 2%nat]).
Proof. vm_compute. split; reflexivity. Qed.

Lemma group_parent_checks (new_parent : option item) :
  new_parent = Some 1%nat ->
  forall p, new_parent = Some p ->
    gimp_item_is_attached group_tree p = true
    /\ gimp_item_get_image group_tree p = Some (tree_image group_tree)
    /\ is_Some (gimp_viewable_get_children group_tree p).
Proof.
  intros -> p [= <-]. split; [vm_compute; reflexivity|].
  split; [vm_compute; reflexivity|]. vm_compute. eauto.
Qed.

(** The move of C into the group G, between A and B. *)
Lemma reorder_item_keeps_order_witness :
  gimp_item_is_attached group_tree 4%nat = true
  /\ gimp_item_get_image group_tree 4%nat = Some (tree_image group_tree)
  /\ (let c := gimp_item_get_container group_tree 4%nat in
      let dst := reorder_destination (Some 1%nat) in
      let n := gimp_container_get_n_children group_tree dst in
      let index := CLAMP 1 0 (if decide (dst = c) then n - 1 else n) in
      let rest := if decide (dst = c)
                  then remove_first 4%nat (container_items group_tree c)
                  else container_items group_tree dst in
      let r := gimp_item_tree_reorder_item group_tree 4%nat (Some 1%nat) 1 true
                 "move" in
      container_items (fst r) dst
      = take (Z.to_nat index) rest ++ 4%nat :: drop (Z.to_nat index) rest
      /\ (dst <> c ->
          container_items (fst r) c
          = remove_first 4%nat (container_items group_tree c))
      /\ (forall c', c' <> c -> c' <> dst ->
            container_items (fst r) c' = container_items group_tree c')
      /\ gimp_item_get_parent (fst r) 4%nat = Some 1%nat
      /\ (forall q, q <> 4%nat ->
            gimp_item_get_parent (fst r) q = gimp_item_get_parent group_tree q)
      /\ (forall q, gimp_object_get_name (fst r) q
                    = gimp_object_get_name group_tree q)
      /\ name_hash (fst r) = name_hash group_tree
      /\ active_item (fst r) = active_item group_tree).
Proof.
  assert (H1 : gimp_item_is_attached group_tree 4%nat = true)
    by (vm_compute; reflexivity).
  assert (H2 : gimp_item_get_image group_tree 4%nat
               = Some (tree_image group_tree)) by (vm_compute; reflexivity).
  split; [exact H1|]. split; [exact H2|].
  exact (reorder_item_keeps_order group_tree 4%nat (Some 1%nat) 1 true "move"
           H1 H2 (group_parent_checks (Some 1%nat) eq_refl)).
Defined.

(** The group G, moved into itself. *)
Lemma reorder_item_into_itself_witness :
  gimp_item_is_attached group_tree 1%nat = true
  /\ gimp_item_get_image group_tree 1%nat = Some (tree_image group_tree)
  /\ is_Some (gimp_viewable_get_children group_tree 1%nat)
  /\ (let r := gimp_item_tree_reorder_item group_tree 1%nat (Some 1%nat) 0
                 false "" in
      snd r = true
      /\ gimp_item_get_parent (fst r) 1%nat = Some 1%nat
      /\ 1%nat ∈ container_items (fst r) (ChildrenOf 1%nat)
      /\ container_items (fst r) (gimp_item_get_container group_tree 1%nat)
         = remove_first 1%nat
             (container_items group_tree
                (gimp_item_get_container group_tree 1%nat))).
Proof.
  assert (H1 : gimp_item_is_attached group_tree 1%nat = true)
    by (vm_compute; reflexivity).
  assert (H2 : gimp_item_get_image group_tree 1%nat
               = Some (tree_image group_tree)) by (vm_compute; reflexivity).
  assert (H3 : is_Some (gimp_viewable_get_children group_tree 1%nat))
    by (vm_compute; eauto).
  split; [exact H1|]. split; [exact H2|]. split; [exact H3|].
  exact (reorder_item_into_itself group_tree 1%nat 0 false "" H1 H2 H3).
Defined.

(** The group moved into itself: the top level has lost it, and it is
    listed among its own children. *)
Example group_into_itself :
  let r := gimp_item_tree_reorder_item group_tree 1%nat (Some 1%nat) 0 false
             "" in
  container (fst r) = [4%nat]
  /\ container_items (fst r) (ChildrenOf 1%nat) = [1%nat; 2%nat; 3%nat]
  /\ gimp_item_get_parent (fst r) 1%nat = Some 1%nat.
Proof. vm_compute. repeat split; reflexivity. Qed.

Lemma group_tree_index_sound : name_index_sound group_tree.
Proof.
  assert (M : map_Forall (fun s j => gimp_object_get_name group_tree j = s)
                (name_hash group_tree))
    by (refine (bool_decide_unpack _ _); vm_compute; exact I).
  intros s j. apply M.
Qed.

(** The tree of the group G. *)
Lemma operations_keep_name_index_sound_witness :
  name_index_sound group_tree
  /\ (forall fuel i new_parent position w',
        (forall s, gimp_item_tree_get_item_by_name group_tree s <> Some i) ->
        gimp_item_tree_add_item fuel group_tree i new_parent position
        = Some w' ->
        name_index_sound w')
  /\ (forall i new_active,
        name_index_sound
          (fst (gimp_item_tree_remove_item group_tree i new_active)))
  /\ (forall i new_parent new_index push_undo undo_desc,
        name_index_sound
          (fst (gimp_item_tree_reorder_item group_tree i new_parent new_index
                  push_undo undo_desc)))
  /\ (forall fuel i new_name push_undo undo_desc w',
        gimp_item_tree_rename_item fuel group_tree i new_name push_undo
          undo_desc = Some w' ->
        name_index_sound w').
Proof.
  split; [exact group_tree_index_sound|].
  exact (operations_keep_name_index_sound group_tree group_tree_index_sound).
Defined.

(** B is made the active item in the place of A. *)
Lemma set_active_item_keeps_valid_witness :
  active_item_valid spare_tree
  /\ gimp_item_tree_get_active_item
       (gimp_item_tree_set_active_item spare_tree (Some 3%nat))
     = (if gimp_item_is_attached spare_tree 3%nat
           && bool_decide (gimp_item_get_image spare_tree 3%nat
                           = Some (tree_image spare_tree))
        then Some 3%nat else gimp_item_tree_get_active_item spare_tree)
  /\ tree_image (gimp_item_tree_set_active_item spare_tree (Some 3%nat))
     = tree_image spare_tree
  /\ heap (gimp_item_tree_set_active_item spare_tree (Some 3%nat))
     = heap spare_tree
  /\ container (gimp_item_tree_set_active_item spare_tree (Some 3%nat))
     = container spare_tree
  /\ name_hash (gimp_item_tree_set_active_item spare_tree (Some 3%nat))
     = name_hash spare_tree
  /\ undo_stack (gimp_item_tree_set_active_item spare_tree (Some 3%nat))
     = undo_stack spare_tree
  /\ active_item_valid (gimp_item_tree_set_active_item spare_tree (Some 3%nat)).
Proof.
  assert (H : active_item_valid spare_tree)
    by (split; vm_compute; reflexivity).
  split; [exact H|].
  destruct (set_active_item_keeps_valid spare_tree (Some 3%nat))
    as (H1 & H2 & H3 & H4 & H5 & H6 & H7).
  split; [exact H1|]. split; [exact H2|]. split; [exact H3|].
  split; [exact H4|]. split; [exact H5|]. split; [exact H6|].
  exact (H7 H).
Defined.

(** The spare item is in no container: it is neither removed, moved nor
    renamed; A is attached: it is not added again. *)
Example calls_that_fail_their_checks :
  gimp_item_tree_remove_item spare_tree 5%nat None = (spare_tree, None)
  /\ gimp_item_tree_reorder_item spare_tree 5%nat (Some 1%nat) 0 true "move"
     = (spare_tree, false)
  /\ gimp_item_tree_rename_item 8 spare_tree 5%nat "Z" true "rename"
     = Some spare_tree
  /\ gimp_item_tree_add_item 8 spare_tree 2%nat None 0 = Some spare_tree.
Proof. vm_compute. repeat split; reflexivity. Qed.

(** Where a new item goes in the tree of the group G: into the group when
    the group is the active item, on top of A when A is, and at an index
    of the top level for a position beyond its end. *)
Example insert_positions :
  gimp_item_tree_get_insert_pos group_active_tree GIMP_IMAGE_ACTIVE_PARENT (-1)
  = (Some 1%nat, 0)
  /\ gimp_item_tree_get_insert_pos spare_tree GIMP_IMAGE_ACTIVE_PARENT (-1)
     = (Some 1%nat, 0)
  /\ gimp_item_tree_get_insert_pos group_tree GIMP_IMAGE_ACTIVE_PARENT (-1)
     = (None, 0)
  /\ gimp_item_tree_get_insert_pos group_tree (Parent None) 7 = (None, 2)
  /\ gimp_item_tree_get_insert_pos spare_tree (Parent None) (-1) = (None, 0)
  /\ gimp_item_tree_get_insert_pos spare_tree (Parent (Some 4%nat)) 3
     = (Some 4%nat, 0).
Proof. vm_compute. repeat split; reflexivity. Qed.

(** An attached item is made active, the spare item is refused. *)
Example set_active_item_checks :
  gimp_item_tree_get_active_item
    (gimp_item_tree_set_active_item spare_tree (Some 3%nat)) = Some 3%nat
  /\ gimp_item_tree_set_active_item spare_tree (Some 5%nat) = spare_tree
  /\ gimp_item_tree_get_active_item
       (gimp_item_tree_set_active_item spare_tree None) = None.
Proof. vm_compute. repeat split; reflexivity. Qed.

(** After the removal of the active item A the tree's active item is
    detached; a call then makes B the active item, and a call with A, now
    detached, changes nothing. *)
Example set_active_item_after_removal :
  gimp_item_tree_get_active_item
    (gimp_item_tree_set_active_item
       (fst (gimp_item_tree_remove_item spare_tree 2%nat None)) (Some 3%nat))
  = Some 3%nat
  /\ gimp_item_tree_set_active_item
       (gimp_item_tree_set_active_item
          (fst (gimp_item_tree_remove_item spare_tree 2%nat None))
          (Some 3%nat)) (Some 2%nat)
     = gimp_item_tree_set_active_item
         (fst (gimp_item_tree_remove_item spare_tree 2%nat None)) (Some 3%nat).
Proof. vm_compute. repeat split; reflexivity. Qed.

(** The loop over an index that holds Layer and Layer#1, from Layer#1. *)
Lemma uniquefied_name_keeps_stem_witness :
  uniquefy_loop 4 {["Layer" := 1%nat; "Layer#1" := 2%nat]} "Layer#1"
  = Some "Layer#2"
  /\ ("Layer#2" = "Layer#1"
      \/ exists stem k,
           gint_range k
           /\ "Layer#2" = stem +:+ String "#" (printf_d k)
           /\ (stem = "Layer#1"
               \/ exists ext1, "Layer#1" = stem +:+ String "#" ext1
                               /\ ext1 = printf_d (atoi ext1))).
Proof.
  assert (H : uniquefy_loop 4 {["Layer" := 1%nat; "Layer#1" := 2%nat]}
                "Layer#1" = Some "Layer#2") by (vm_compute; reflexivity).
  split; [exact H|].
  exact (uniquefied_name_keeps_stem _ 4 "Layer#1" "Layer#2" H).
Defined.

End ItemTreeInsertFacts.
